(** * Wire routing on an occupancy grid: a shallow embedding of the class
      [PathFinder] of [pathfinding.py], of
      [GenericObstacleDetector.create_obstacle_map] and of
      [SmartWireRouter.analyze_circuit] and [route_wire].

    Conventions of the embedding.
    - Python integers are [Z]; a point is a pair [(x, y)] of integers.
    - A 2-D numpy array of bytes is a shape together with its cells; reading
      it with [a[y, x]] follows numpy: an index in [-n, n) is accepted (a
      negative one counts from the end), any other raises [IndexError].
    - A Python call either returns a value, raises, or (in this model) runs
      out of the fuel that bounds its [while] loops: the type [res].
    - The float costs [1.0] and [1.4] of [a_star] and their sums are kept
      exactly, as a whole number of tenths: the binary rounding of these
      sums is not modelled.  The coverage of [analyze_circuit] is computed
      in binary64 in module [Router64]; module [Router] keeps it as an
      exact rational.
    - The calls of OpenCV are parameters of the detector. *)

From stdpp Require Import base gmap list.
From Stdlib Require Import ZArith Lia ZifyBool List Permutation.
From Stdlib Require Reals Lra QArith Qround String Floats.
Import ListNotations.

Local Open Scope Z_scope.

(* ================================================================== *)
(** ** Results of a call *)

Inductive exn : Type :=
  | IndexError | KeyError | ZeroDivisionError | ValueError | AttributeError
  | TypeError | CvError.

Inductive res (A : Type) : Type :=
  | Ret (a : A)
  | Raise (e : exn)
  | OutOfFuel.
Arguments Ret {A} a.
Arguments Raise {A} e.
Arguments OutOfFuel {A}.

Definition bind {A B : Type} (c : res A) (k : A -> res B) : res B :=
  match c with
  | Ret a => k a
  | Raise e => Raise e
  | OutOfFuel => OutOfFuel
  end.

Notation "'do' x <- c ; k" := (bind c (fun x => k))
  (at level 10, x name, c at level 100, k at level 200).

(* ================================================================== *)
(** ** Points, Python lists, numpy arrays *)

Abbreviation point := (Z * Z)%type (only parsing).

Definition point_eqb (a b : point) : bool :=
  (fst a =? fst b) && (snd a =? snd b).

(** Python's index normalisation, shared by lists and arrays: [i] is valid
    for a container of [n] items when [-n <= i < n]. *)
Definition normalize_index (i : Z) (n : nat) : option nat :=
  if (0 <=? i) && (i <? Z.of_nat n) then Some (Z.to_nat i)
  else if (- Z.of_nat n <=? i) && (i <? 0) then Some (Z.to_nat (i + Z.of_nat n))
  else None.

(** [l[i]] on a Python list. *)
Definition py_index {A : Type} (l : list A) (i : Z) : res A :=
  match normalize_index i (length l) with
  | Some k =>
      match nth_error l k with
      | Some v => Ret v
      | None => Raise IndexError
      end
  | None => Raise IndexError
  end.

(** [len(l)]. *)
Definition len {A : Type} (l : list A) : Z := Z.of_nat (length l).

(** A 2-D [np.ndarray] of [uint8]: [shape = (shape0, shape1)], the cell of
    row [r] and column [c] is [item r c] (read only inside the shape). *)
Record ndarray : Type := {
  shape0 : nat;
  shape1 : nat;
  item : nat -> nat -> Z
}.

(** [a[y, x]]. *)
Definition getitem (a : ndarray) (y x : Z) : res Z :=
  match normalize_index y (shape0 a), normalize_index x (shape1 a) with
  | Some r, Some c => Ret (item a r c)
  | _, _ => Raise IndexError
  end.

(** The array whose rows are the given lists (all of the length of the
    first one). *)
Definition array (rows : list (list Z)) : ndarray :=
  {| shape0 := length rows;
     shape1 := length (hd [] rows);
     item := fun r c => nth c (nth r rows []) 0 |}.

Definition OBSTACLE : Z := 255.
Definition FREE : Z := 0.

(* ================================================================== *)
(** ** [class PathFinder] *)

Record PathFinder : Type := {
  obstacle_map : ndarray;
  height : Z;
  width : Z
}.

(** [PathFinder.__init__]: [self.height, self.width = obstacle_map.shape]. *)
Definition PathFinder_init (m : ndarray) : PathFinder :=
  {| obstacle_map := m;
     height := Z.of_nat (shape0 m);
     width := Z.of_nat (shape1 m) |}.

(** The test repeated before every probe of the map in [manhattan_routing]
    and [_can_connect_directly]:
    [x < 0 or x >= self.width or y < 0 or y >= self.height or
     self.obstacle_map[y, x] == 255], with Python's short-circuit [or]. *)
Definition blocked (self : PathFinder) (x y : Z) : res bool :=
  if (x <? 0) || (x >=? width self) || (y <? 0) || (y >=? height self)
  then Ret true
  else do v <- getitem (obstacle_map self) y x; Ret (v =? 255).

(* ------------------------------------------------------------------ *)
(** *** [_can_connect_directly] *)

Section LineOfSight.
Variable self : PathFinder.
Variables x1 y1 dx dy x_step y_step : Z.

(** One turn of the [while True] loop after its two tests: the new
    [(x, y, err)]. *)
Definition advance (x y err : Z) : Z * Z * Z :=
  let e2 := 2 * err in
  let '(err, x) := if e2 >? - dy then (err - dy, x + x_step) else (err, x) in
  let '(err, y) := if e2 <? dx then (err + dx, y + y_step) else (err, y) in
  (x, y, err).

Fixpoint connect_loop (fuel : nat) (x y err : Z) : res bool :=
  match fuel with
  | O => OutOfFuel
  | S fuel' =>
      do b <- blocked self x y;
      if b then Ret false
      else if (x =? x1) && (y =? y1) then Ret true
      else let '(x', y', err') := advance x y err in
           connect_loop fuel' x' y' err'
  end.

(** The cells the loop visits when no probe stops it. *)
Fixpoint line_loop (fuel : nat) (x y err : Z) : list point :=
  match fuel with
  | O => []
  | S fuel' =>
      (x, y) ::
      if (x =? x1) && (y =? y1) then []
      else let '(x', y', err') := advance x y err in
           line_loop fuel' x' y' err'
  end.
End LineOfSight.

(** Fuel for the walk from a point to another: one turn per cell, and the
    walk has at most [dx + dy + 1] cells. *)
Definition walk_fuel (dx dy : Z) : nat := S (Z.to_nat (dx + dy)).

Definition _can_connect_directly (self : PathFinder) (start end_ : point) : res bool :=
  let '(x0, y0) := start in
  let '(x1, y1) := end_ in
  let dx := Z.abs (x1 - x0) in
  let dy := Z.abs (y1 - y0) in
  let x_step := if x0 <? x1 then 1 else -1 in
  let y_step := if y0 <? y1 then 1 else -1 in
  let err := dx - dy in
  connect_loop self x1 y1 dx dy x_step y_step (walk_fuel dx dy) x0 y0 err.

(** The rasterised line from [start] to [end_]: what the loop of
    [_can_connect_directly] walks through. *)
Definition line_cells (start end_ : point) : list point :=
  let '(x0, y0) := start in
  let '(x1, y1) := end_ in
  let dx := Z.abs (x1 - x0) in
  let dy := Z.abs (y1 - y0) in
  let x_step := if x0 <? x1 then 1 else -1 in
  let y_step := if y0 <? y1 then 1 else -1 in
  let err := dx - dy in
  line_loop x1 y1 dx dy x_step y_step (walk_fuel dx dy) x0 y0 err.

(** Reading aids for the statements: whether a point lies inside the array,
    the byte stored there, and whether the probe lets it pass. *)
Definition inside (m : ndarray) (p : point) : bool :=
  (0 <=? fst p) && (fst p <? Z.of_nat (shape1 m)) &&
  (0 <=? snd p) && (snd p <? Z.of_nat (shape0 m)).

Definition cell (m : ndarray) (p : point) : Z :=
  item m (Z.to_nat (snd p)) (Z.to_nat (fst p)).

Definition passable (m : ndarray) (p : point) : bool :=
  inside m p && negb (cell m p =? OBSTACLE).

(** The occupancy grids of the data model hold nothing but [FREE] and
    [OBSTACLE]. *)
Definition binary (m : ndarray) : Prop :=
  forall p, inside m p = true -> cell m p = FREE \/ cell m p = OBSTACLE.

(* ------------------------------------------------------------------ *)
(** *** [optimize_path] *)

Section OptimizePath.
Variable self : PathFinder.
Variable path : list point.

(** The inner loop [while j < len(path)]: the value of [j] when it is
    left, either at the end of the path or by [break]. *)
Fixpoint look_ahead (fuel : nat) (i j : Z) : res Z :=
  match fuel with
  | O => OutOfFuel
  | S fuel' =>
      if j <? len path then
        do pi <- py_index path i;
        do pj <- py_index path j;
        do ok <- _can_connect_directly self pi pj;
        if ok then look_ahead fuel' i (j + 1) else Ret j
      else Ret j
  end.

(** The outer loop [while i < len(path) - 1]. *)
Fixpoint optimize_loop (fuel : nat) (i : Z) (optimized : list point)
  : res (list point) :=
  match fuel with
  | O => OutOfFuel
  | S fuel' =>
      if i <? len path - 1 then
        do j <- look_ahead (S (length path)) i (i + 1);
        if j - 1 >? i then
          do p <- py_index path (j - 1);
          optimize_loop fuel' (j - 1) (optimized ++ [p])
        else
          do p <- py_index path (i + 1);
          optimize_loop fuel' (i + 1) (optimized ++ [p])
      else Ret optimized
  end.
End OptimizePath.

Definition optimize_path (self : PathFinder) (path : list point)
  : res (list point) :=
  if len path <? 3 then Ret path
  else
    do p0 <- py_index path 0;
    do optimized <- optimize_loop self path (S (length path)) 0 [p0];
    do last_o <- py_index optimized (-1);
    do last_p <- py_index path (-1);
    if negb (point_eqb last_o last_p) then Ret (optimized ++ [last_p])
    else Ret optimized.

(** Two items that follow each other in a list. *)
Definition adjacent {A : Type} (l : list A) (a b : A) : Prop :=
  exists k : nat, nth_error l k = Some a /\ nth_error l (S k) = Some b.

(** After [a] steps along x and [b] steps along y of a walk towards
    [(x1, y1)], the state of the loop of [_can_connect_directly]. *)
Definition walk_inv (x1 y1 dx dy x_step y_step a b x y err : Z) : Prop :=
  0 <= a <= dx /\ 0 <= b <= dy /\
  err = dx - dy - a * dy + b * dx /\
  x1 - x = x_step * (dx - a) /\ y1 - y = y_step * (dy - b) /\
  (x_step = 1 \/ x_step = -1) /\ (y_step = 1 \/ y_step = -1).

(** Line of sight as a plain boolean: every cell of the line passes. *)
Definition los (m : ndarray) (a b : point) : bool :=
  forallb (passable m) (line_cells a b).

(** What the outer loop of [optimize_path] keeps true: the anchor [path[i]]
    is the last point put out, and every pair put out is either in sight
    or a pair of the input. *)
Definition opt_inv (m : ndarray) (path : list point) (i : Z)
    (optimized : list point) : Prop :=
  exists o q,
    optimized = o ++ [q] /\
    nth_error path (Z.to_nat i) = Some q /\
    0 <= i <= len path - 1 /\
    hd_error optimized = hd_error path /\
    len optimized <= i + 1 /\
    forall a b, adjacent optimized a b -> los m a b = true \/ adjacent path a b.

(** No waypoint sees both its successor and the waypoint after it. *)
Definition shortcut_free (self : PathFinder) (path : list point) : Prop :=
  forall (k : nat) (a b c : point),
    nth_error path k = Some a ->
    nth_error path (S k) = Some b ->
    nth_error path (S (S k)) = Some c ->
    _can_connect_directly self a b = Ret true ->
    _can_connect_directly self a c = Ret false.

(* ------------------------------------------------------------------ *)
(** *** [a_star] *)

(** Costs and scores are floats in the source; here a whole number of
    tenths ([1.0] is [10], [1.4] is [14]), so that sums are exact. *)
Abbreviation tenths := Z (only parsing).

(** An integer used where a float is expected. *)
Definition of_int (n : Z) : tenths := 10 * n.

Definition heuristic (a b : point) : Z :=
  Z.abs (fst a - fst b) + Z.abs (snd a - snd b).

Definition directions : list (Z * Z) :=
  [(-1, -1); (-1, 0); (-1, 1); (0, -1); (0, 1); (1, -1); (1, 0); (1, 1)].

(** The [for dx, dy in directions] loop of [get_neighbors]. *)
Fixpoint neighbors_loop (self : PathFinder) (x y : Z) (dirs : list (Z * Z))
    (neighbors : list point) : res (list point) :=
  match dirs with
  | [] => Ret neighbors
  | (dx, dy) :: rest =>
      let nx := x + dx in
      let ny := y + dy in
      do ok <- (if (0 <=? nx) && (nx <? width self) &&
                   (0 <=? ny) && (ny <? height self)
                then do v <- getitem (obstacle_map self) ny nx; Ret (v =? 0)
                else Ret false);
      neighbors_loop self x y rest
        (if ok then neighbors ++ [(nx, ny)] else neighbors)
  end.

Definition get_neighbors (self : PathFinder) (pos : point) : res (list point) :=
  let '(x, y) := pos in neighbors_loop self x y directions [].

(** [move_cost = 1.4 if dx + dy == 2 else 1.0], in tenths. *)
Definition move_cost (current neighbor : point) : tenths :=
  let dx := Z.abs (fst neighbor - fst current) in
  let dy := Z.abs (snd neighbor - snd current) in
  if dx + dy =? 2 then 14 else 10.

(** The frontier holds tuples [(f_score, (x, y))]; Python orders them by
    the score first and by the coordinates next. *)
Abbreviation entry := (Z * (Z * Z))%type (only parsing).

Definition point_ltb (a b : point) : bool :=
  if fst a =? fst b then snd a <? snd b else fst a <? fst b.

Definition entry_ltb (a b : entry) : bool :=
  if fst a =? fst b then point_ltb (snd a) (snd b) else fst a <? fst b.

(** [heapq] keeps the frontier in a list arranged as a binary heap.  All
    that the search uses of it is that [heappop] takes a least tuple out;
    the model keeps the tuples in a list and looks the least one up. *)
Definition heappush (h : list entry) (e : entry) : list entry := e :: h.

Fixpoint heap_min (e : entry) (h : list entry) : entry :=
  match h with
  | [] => e
  | e' :: h' => heap_min (if entry_ltb e' e then e' else e) h'
  end.

Definition entry_eqb (a b : entry) : bool :=
  (fst a =? fst b) && point_eqb (snd a) (snd b).

Fixpoint remove_one (e : entry) (h : list entry) : list entry :=
  match h with
  | [] => []
  | e' :: h' => if entry_eqb e e' then h' else e' :: remove_one e h'
  end.

Definition heappop (h : list entry) : res (entry * list entry) :=
  match h with
  | [] => Raise IndexError
  | e :: h' => let least := heap_min e h' in Ret (least, remove_one least h)
  end.

(** [d[k]] on a dict. *)
Definition dict_get {V : Type} (d : gmap point V) (k : point) : res V :=
  match d !! k with
  | Some v => Ret v
  | None => Raise KeyError
  end.

(** The local state of [a_star]. *)
Record search : Type := {
  open_set : list entry;
  came_from : gmap point point;
  g_score : gmap point tenths;
  f_score : gmap point tenths
}.

(** The [for neighbor in get_neighbors(current)] loop. *)
Fixpoint relax (goal current : point) (neighbors : list point) (st : search)
  : res search :=
  match neighbors with
  | [] => Ret st
  | neighbor :: rest =>
      do g_current <- dict_get (g_score st) current;
      let tentative_g_score := g_current + move_cost current neighbor in
      do better <- (match g_score st !! neighbor with
                    | None => Ret true
                    | Some _ => do g <- dict_get (g_score st) neighbor;
                                Ret (tentative_g_score <? g)
                    end);
      if better then
        let g' := <[neighbor := tentative_g_score]> (g_score st) in
        do g_neighbor <- dict_get g' neighbor;
        let f := g_neighbor + of_int (heuristic neighbor goal) in
        let f' := <[neighbor := f]> (f_score st) in
        do f_neighbor <- dict_get f' neighbor;
        relax goal current rest
          {| open_set := heappush (open_set st) (f_neighbor, neighbor);
             came_from := <[neighbor := current]> (came_from st);
             g_score := g';
             f_score := f' |}
      else relax goal current rest st
  end.

(** [while current in came_from: path.append(current);
     current = came_from[current]]. *)
Fixpoint reconstruct (fuel : nat) (came_from : gmap point point)
    (current : point) (path : list point) : res (list point) :=
  match fuel with
  | O => OutOfFuel
  | S fuel' =>
      match came_from !! current with
      | Some _ =>
          do previous <- dict_get came_from current;
          reconstruct fuel' came_from previous (path ++ [current])
      | None => Ret path
      end
  end.

(** Fuel for the loops of [a_star] on a grid of [n] cells: every push lowers
    the score of a cell, and a score is a whole number of tenths between 0
    and [14 * (n + 1)]. *)
Definition search_fuel (self : PathFinder) : nat :=
  let n := Z.max 0 (width self) * Z.max 0 (height self) + 1 in
  Z.to_nat (2 + 2 * n * (14 * n + 15)).

(** The [while open_set] loop. *)
Fixpoint search_loop (self : PathFinder) (start goal : point) (fuel : nat)
    (st : search) : res (list point) :=
  match fuel with
  | O => OutOfFuel
  | S fuel' =>
      match open_set st with
      | [] => Ret []
      | _ :: _ =>
          do popped <- heappop (open_set st);
          let current := snd (fst popped) in
          let st := {| open_set := snd popped;
                       came_from := came_from st;
                       g_score := g_score st;
                       f_score := f_score st |} in
          if point_eqb current goal then
            do path <- reconstruct (search_fuel self) (came_from st) current [];
            Ret (rev (path ++ [start]))
          else
            do neighbors <- get_neighbors self current;
            do st' <- relax goal current neighbors st;
            search_loop self start goal fuel' st'
      end
  end.

(** The state when the loop is entered. *)
Definition initial_state (start goal : point) : search :=
  {| open_set := heappush [] (0, start);
     came_from := ∅;
     g_score := {[ start := 0 ]};
     f_score := {[ start := of_int (heuristic start goal) ]} |}.

Definition a_star (self : PathFinder) (start goal : point) : res (list point) :=
  search_loop self start goal (search_fuel self) (initial_state start goal).

(* ------------------------------------------------------------------ *)
(** *** [manhattan_routing] *)

(** [range(start, stop, step)] for a step other than 0. *)
Definition py_range (start stop step : Z) : list Z :=
  let n := if 0 <? step then (stop - start + step - 1) / step
           else (start - stop - step - 1) / (- step) in
  map (fun k => start + step * Z.of_nat k) (seq 0 (Z.to_nat n)).

(** One leg of an elbow: [for c in cells: if <blocked>: return None;
    path.append(c)]. *)
Fixpoint leg (self : PathFinder) (cells : list point) (path : list point)
  : res (option (list point)) :=
  match cells with
  | [] => Ret (Some path)
  | (x, y) :: rest =>
      do b <- blocked self x y;
      if b then Ret None else leg self rest (path ++ [(x, y)])
  end.

Definition route_horizontal_first (self : PathFinder) (start_pt end_pt : point)
  : res (option (list point)) :=
  let '(x1, y1) := start_pt in
  let '(x2, y2) := end_pt in
  do first <- (if negb (x1 =? x2) then
                 let direction := if x2 >? x1 then 1 else -1 in
                 leg self (map (fun x => (x, y1))
                               (py_range x1 (x2 + direction) direction)) []
               else Ret (Some [(x1, y1)]));
  match first with
  | None => Ret None
  | Some path =>
      if negb (y1 =? y2) then
        let direction := if y2 >? y1 then 1 else -1 in
        leg self (map (fun y => (x2, y))
                      (py_range (y1 + direction) (y2 + direction) direction)) path
      else Ret (Some path)
  end.

Definition route_vertical_first (self : PathFinder) (start_pt end_pt : point)
  : res (option (list point)) :=
  let '(x1, y1) := start_pt in
  let '(x2, y2) := end_pt in
  do first <- (if negb (y1 =? y2) then
                 let direction := if y2 >? y1 then 1 else -1 in
                 leg self (map (fun y => (x1, y))
                               (py_range y1 (y2 + direction) direction)) []
               else Ret (Some [(x1, y1)]));
  match first with
  | None => Ret None
  | Some path =>
      if negb (x1 =? x2) then
        let direction := if x2 >? x1 then 1 else -1 in
        leg self (map (fun x => (x, y2))
                      (py_range (x1 + direction) (x2 + direction) direction)) path
      else Ret (Some path)
  end.

(** Truth value of a route: [None] and the empty list are false. *)
Definition truthy (route : option (list point)) : bool :=
  match route with
  | Some (_ :: _) => true
  | _ => false
  end.

Definition route_list (route : option (list point)) : list point :=
  match route with
  | Some path => path
  | None => []
  end.

Definition manhattan_routing (self : PathFinder) (start goal : point)
  : res (list point) :=
  do route1 <- route_horizontal_first self start goal;
  do route2 <- route_vertical_first self start goal;
  if truthy route1 && truthy route2 then
    Ret (if len (route_list route1) <=? len (route_list route2)
         then route_list route1 else route_list route2)
  else if truthy route1 then Ret (route_list route1)
  else if truthy route2 then Ret (route_list route2)
  else a_star self start goal.

(* ------------------------------------------------------------------ *)
(** *** [find_best_path] *)

(** Truth value of a list. *)
Definition nonempty {A : Type} (l : list A) : bool :=
  match l with
  | [] => false
  | _ :: _ => true
  end.

Definition find_best_path (self : PathFinder) (start goal : point)
    (prefer_manhattan : bool) : res (list point) :=
  do path <- (if prefer_manhattan then
                do path <- manhattan_routing self start goal;
                if negb (nonempty path) then a_star self start goal
                else Ret path
              else a_star self start goal);
  if nonempty path then optimize_path self path else Ret path.

(* ------------------------------------------------------------------ *)
(** *** Notions used to state what the search does *)

(** The test of [get_neighbors] on a cell, as a plain boolean. *)
Definition free_at (m : ndarray) (p : point) : bool :=
  inside m p && (cell m p =? FREE).

(** [n] is a cell that [a_star] may enter from [c]: one of the eight cells
    around [c], inside the grid and FREE. *)
Definition step (m : ndarray) (c n : point) : Prop :=
  (exists d, In d directions /\ n = (fst c + fst d, snd c + snd d)) /\
  inside m n = true /\ cell m n = FREE.

(** [goal] can be reached from [start] by such moves. *)
Inductive reachable (m : ndarray) (start : point) : point -> Prop :=
  | reach_start : reachable m start start
  | reach_step (c n : point) :
      reachable m start c -> step m c n -> reachable m start n.

(** The cells of the grid, row after row. *)
Definition all_cells (m : ndarray) : list point :=
  flat_map (fun y => map (fun x => (Z.of_nat x, Z.of_nat y)) (seq 0 (shape1 m)))
           (seq 0 (shape0 m)).

(** Every point the search can come across. *)
Definition universe (m : ndarray) (start : point) : list point :=
  start :: all_cells m.

(** The measure that bounds the loop of [a_star]: a point counts for its
    score once it has one and for [cap] before. *)
Definition weight (cap : Z) (g : gmap point Z) (c : point) : Z :=
  default cap (g !! c).

Definition total (cap : Z) (g : gmap point Z) (u : list point) : Z :=
  fold_right Z.add 0 (map (weight cap g) u).

Definition unseen (g : gmap point Z) (u : list point) : Z :=
  fold_right Z.add 0
    (map (fun c => match g !! c with Some _ => 0 | None => 1 end) u).

Definition cap (m : ndarray) (start : point) : Z :=
  14 * len (universe m start) + 15.

Definition potential (m : ndarray) (start : point) (st : search) : Z :=
  len (open_set st) + 2 * total (cap m start) (g_score st) (universe m start).

(** What every turn of the loop of [a_star] keeps true. *)
Record search_inv (m : ndarray) (start : point) (st : search) : Prop := {
  inv_open_known :
    forall e, In e (open_set st) -> is_Some (g_score st !! snd e);
  inv_open_linked :
    forall e, In e (open_set st) ->
      snd e = start \/ is_Some (came_from st !! snd e);
  inv_start : is_Some (g_score st !! start);
  inv_bound :
    forall c gc, g_score st !! c = Some gc ->
      0 <= gc /\
      gc + 14 * unseen (g_score st) (universe m start)
        <= 14 * len (universe m start) /\
      In c (universe m start);
  inv_parent :
    forall c p, came_from st !! c = Some p ->
      exists gc gp, g_score st !! c = Some gc /\ g_score st !! p = Some gp /\
                    gp + 10 <= gc;
  inv_linked_free :
    forall c p, came_from st !! c = Some p -> free_at m c = true
}.

(** A point with a score is still on the frontier, or is not the goal and
    all the cells it leads to have a score. *)
Definition closed_inv (m : ndarray) (goal : point) (st : search) : Prop :=
  forall c, is_Some (g_score st !! c) ->
    (exists f, In (f, c) (open_set st)) \/
    (c <> goal /\ forall n, step m c n -> is_Some (g_score st !! n)).

(** How the state grows along the relaxation of the neighbours. *)
Record grows (m : ndarray) (start : point) (st st' : search) : Prop := {
  grows_known : forall c, is_Some (g_score st !! c) -> is_Some (g_score st' !! c);
  grows_open : forall e, In e (open_set st) -> In e (open_set st');
  grows_new :
    forall c, g_score st !! c = None -> is_Some (g_score st' !! c) ->
      exists f, In (f, c) (open_set st');
  grows_potential : potential m start st' <= potential m start st
}.

(** The state after the four assignments made for a better neighbour. *)
Definition improved (goal current neighbor : point) (tentative : tenths)
    (st : search) : search :=
  {| open_set := heappush (open_set st)
                   (tentative + of_int (heuristic neighbor goal), neighbor);
     came_from := <[neighbor := current]> (came_from st);
     g_score := <[neighbor := tentative]> (g_score st);
     f_score := <[neighbor := tentative + of_int (heuristic neighbor goal)]>
                  (f_score st) |}.

(* ------------------------------------------------------------------ *)
(** *** Notions used to state what the elbow router does *)

(** The direction of a leg from [a] to [b]: [1 if b > a else -1]. *)
Definition toward (a b : Z) : Z := if b >? a then 1 else -1.

(** The integers from [a] to [b], both included, [a] first. *)
Definition span (a b : Z) : list Z :=
  map (fun k => a + toward a b * Z.of_nat k)
      (seq 0 (S (Z.to_nat (Z.abs (b - a))))).

(** The cells of the two elbows from [s] to [g]. *)
Definition elbow_h (s g : point) : list point :=
  map (fun x => (x, snd s)) (span (fst s) (fst g)) ++
  map (fun y => (fst g, y)) (tl (span (snd s) (snd g))).

Definition elbow_v (s g : point) : list point :=
  map (fun y => (fst s, y)) (span (snd s) (snd g)) ++
  map (fun x => (x, snd g)) (tl (span (fst s) (fst g))).

(** The cells each route probes: all of its elbow, but for the start when
    the first leg has no length. *)
Definition probed_h (s g : point) : list point :=
  if fst s =? fst g then tl (elbow_h s g) else elbow_h s g.

Definition probed_v (s g : point) : list point :=
  if snd s =? snd g then tl (elbow_v s g) else elbow_v s g.

(** The real number a count of tenths stands for. *)
Definition to_real (t : tenths) : Rdefinitions.R :=
  Rdefinitions.Rdiv (Rdefinitions.IZR t) (Rdefinitions.IZR 10).

(* ------------------------------------------------------------------ *)
(** *** [a_star] over any heap *)

(** What [heapq] promises of [heappop]: the tuple it returns is a least
    one of the frontier, and the others stay, arranged as the heap likes. *)
Definition pops (h : list entry) (e : entry) (rest : list entry) : Prop :=
  Permutation h (e :: rest) /\ forall e', In e' h -> entry_ltb e' e = false.

(** Two states of the search that differ at most in how the frontier is
    arranged. *)
Definition same_state (a b : search) : Prop :=
  Permutation (open_set a) (open_set b) /\
  came_from a = came_from b /\ g_score a = g_score b /\ f_score a = f_score b.

(** The runs of the loop of [a_star] when nothing is fixed of the frontier
    but what [heapq] promises. *)
Inductive run (self : PathFinder) (start goal : point)
  : search -> list point -> Prop :=
  | run_empty (st : search) :
      open_set st = [] -> run self start goal st []
  | run_goal (st : search) (e : entry) (rest : list entry) (path : list point) :
      pops (open_set st) e rest ->
      point_eqb (snd e) goal = true ->
      reconstruct (search_fuel self) (came_from st) (snd e) [] = Ret path ->
      run self start goal st (rev (path ++ [start]))
  | run_expand (st : search) (e : entry) (rest : list entry)
      (neighbors : list point) (st' next : search) (result : list point) :
      pops (open_set st) e rest ->
      point_eqb (snd e) goal = false ->
      get_neighbors self (snd e) = Ret neighbors ->
      relax goal (snd e) neighbors
        {| open_set := rest; came_from := came_from st;
           g_score := g_score st; f_score := f_score st |} = Ret st' ->
      same_state st' next ->
      run self start goal next result ->
      run self start goal st result.

(* ================================================================== *)
(** ** [GenericObstacleDetector.create_obstacle_map] and
       [SmartWireRouter.analyze_circuit] *)

(** [np.count_nonzero(a)]. *)
Definition count_nonzero (a : ndarray) : Z :=
  len (List.filter (fun p => negb (cell a p =? 0)) (all_cells a)).

(** [a == 0]: the array of booleans, [True] being 1. *)
Definition equals_zero (a : ndarray) : ndarray :=
  {| shape0 := shape0 a;
     shape1 := shape1 a;
     item := fun r c => if item a r c =? 0 then 1 else 0 |}.

Module Router.
Import Stdlib.QArith.QArith Stdlib.QArith.Qround.

(** Floats are exact rationals here.  [a / b] on two Python integers. *)
Definition true_div (a b : Z) : res Q :=
  if (b =? 0)%Z then Raise ZeroDivisionError
  else Ret (inject_Z a / inject_Z b)%Q.

(** The nearest integer, ties going to the even one. *)
Definition round_half_even (q : Q) : Z :=
  let f := Qfloor q in
  match Qcompare (q - inject_Z f) (1 # 2) with
  | Lt => f
  | Gt => (f + 1)%Z
  | Eq => if Z.even f then f else (f + 1)%Z
  end.

(** [round(q, ndigits)]. *)
Definition py_round (q : Q) (ndigits : nat) : Q :=
  let scale := Z.to_pos (10 ^ Z.of_nat ndigits) in
  Qmake (round_half_even (q * inject_Z (Z.pos scale))) scale.

Section Cv2.
(** What the detector takes from OpenCV: the conversion to grey, the
    adaptive threshold, the structuring elements and the dilation.
    Each may raise [cv2.error]. *)
Variable color_image : Type.
Variable structuring_element : Type.
Variable cvtColor_BGR2GRAY : color_image -> res ndarray.
Variable adaptiveThreshold_GAUSSIAN_BINARY_INV :
  ndarray -> Z -> Z -> Z -> res ndarray.
Variable getStructuringElement_RECT : Z -> Z -> res structuring_element.
Variable dilate : ndarray -> structuring_element -> res ndarray.

(** An image has two dimensions (grey) or three (colour). *)
Inductive image : Type :=
  | Gray (a : ndarray)
  | Color (c : color_image).

Record GenericObstacleDetector : Type := {
  detector_obstacle_map : option ndarray;
  original_binary : option ndarray
}.

Definition create_obstacle_map (self : GenericObstacleDetector)
    (img : image) (dilation_size safety_padding : Z)
  : res (GenericObstacleDetector * ndarray) :=
  do gray <- (match img with
              | Color c => cvtColor_BGR2GRAY c
              | Gray a => Ret a
              end);
  do binary <- adaptiveThreshold_GAUSSIAN_BINARY_INV gray 255 11 2;
  do kernel <- getStructuringElement_RECT dilation_size dilation_size;
  do dilated <- dilate binary kernel;
  do dilated <- (if (safety_padding >? 0)%Z then
                   do padding_kernel <-
                     getStructuringElement_RECT (safety_padding * 2 + 1)
                                                (safety_padding * 2 + 1);
                   dilate dilated padding_kernel
                 else Ret dilated);
  Ret ({| detector_obstacle_map := Some dilated;
          original_binary := Some binary |}, dilated).

Record SmartWireRouter : Type := {
  use_generic_detection : bool;
  obstacle_detector : GenericObstacleDetector;
  current_obstacle_map : option ndarray
}.

(** The dictionary returned for the generic method. *)
Record analysis : Type := {
  analysis_obstacle_map : ndarray;
  obstacle_pixels : Z;
  free_pixels : Z;
  coverage : Q
}.

(** [analyze_circuit]; the other method reads [self.symbol_detector],
    an attribute that [__init__] does not set. *)
Definition analyze_circuit (self : SmartWireRouter) (img : image)
    (dilation_size safety_padding : Z)
  : res (SmartWireRouter * analysis) :=
  if use_generic_detection self then
    do made <- create_obstacle_map (obstacle_detector self) img
                 dilation_size safety_padding;
    let current := snd made in
    let obstacle := count_nonzero current in
    let free := count_nonzero (equals_zero current) in
    do ratio <- true_div obstacle (obstacle + free);
    Ret ({| use_generic_detection := use_generic_detection self;
            obstacle_detector := fst made;
            current_obstacle_map := Some current |},
         {| analysis_obstacle_map := current;
            obstacle_pixels := obstacle;
            free_pixels := free;
            coverage := py_round (ratio * 100) 2 |})
  else Raise AttributeError.
End Cv2.

Import Stdlib.Strings.String.

(** The routing style that tries the elbows first. *)
Definition MANHATTAN : string := "manhattan".

(** [route_wire]: the same steps as [find_best_path], on the map kept by
    the last analysis. *)
Definition route_wire (self : SmartWireRouter) (start_point end_point : point)
    (routing_style : String.string) : res (list point) :=
  match current_obstacle_map self with
  | None => Raise ValueError
  | Some current =>
      let pathfinder := PathFinder_init current in
      do path <- (if String.eqb routing_style "manhattan" then
                    do path <- manhattan_routing pathfinder start_point end_point;
                    if negb (nonempty path)
                    then a_star pathfinder start_point end_point
                    else Ret path
                  else a_star pathfinder start_point end_point);
      if nonempty path then optimize_path pathfinder path else Ret path
  end.
End Router.

(* ================================================================== *)
(** ** Notions used for the further properties *)

(** [q] is one of the eight cells around [p]. *)
Definition king_move (p q : point) : Prop :=
  Z.abs (fst q - fst p) <= 1 /\ Z.abs (snd q - snd p) <= 1 /\ p <> q.

(** [c] lies in the rectangle spanned by [a] and [b]. *)
Definition in_box (a b c : point) : Prop :=
  Z.min (fst a) (fst b) <= fst c <= Z.max (fst a) (fst b) /\
  Z.min (snd a) (snd b) <= snd c <= Z.max (snd a) (snd b).


(** What the links of [came_from] keep true along the loop of [a_star]:
    a link goes from a cell to one that [get_neighbors] gave for it, and
    every point with a score but the start has a link. *)
Record links_inv (m : ndarray) (start : point) (st : search) : Prop := {
  link_step : forall c p, came_from st !! c = Some p -> step m p c;
  link_known :
    forall c, is_Some (g_score st !! c) ->
      c = start \/ is_Some (came_from st !! c)
}.

(** [chain] is what the reconstruction loop appends from [cur]: [cur], the
    point it is linked to, and so on, up to [final], left out, which has
    no link. *)
Fixpoint is_chain (cf : gmap point point) (cur : point) (chain : list point)
    (final : point) : Prop :=
  match chain with
  | [] => cur = final
  | c :: rest => c = cur /\ exists p, cf !! cur = Some p /\ is_chain cf p rest final
  end.


(** [q] is next to [p] along one axis. *)
Definition axis_move (p q : point) : Prop :=
  Z.abs (fst q - fst p) + Z.abs (snd q - snd p) = 1.




(* ================================================================== *)
(** ** [GenericObstacleDetector]: the queries on the map *)

Module Detector.
Import Router.

(** [GenericObstacleDetector()]. *)
Definition GenericObstacleDetector_init : GenericObstacleDetector :=
  {| detector_obstacle_map := None; original_binary := None |}.

Section Clearance.
Variable obstacle_map : ndarray.
Variables x2 y2 dx dy x_step y_step : Z.

(** The [while True] loop of [check_path_clearance]: a pixel outside the
    map is passed over, one inside stops the walk when it holds 255; the
    steps are those of [_can_connect_directly]. *)
Fixpoint clearance_loop (fuel : nat) (x y err : Z) : res bool :=
  match fuel with
  | O => OutOfFuel
  | S fuel' =>
      do hit <- (if (0 <=? y) && (y <? Z.of_nat (shape0 obstacle_map)) &&
                    (0 <=? x) && (x <? Z.of_nat (shape1 obstacle_map))
                 then do v <- getitem obstacle_map y x; Ret (v =? 255)
                 else Ret false);
      if hit then Ret false
      else if (x =? x2) && (y =? y2) then Ret true
      else let '(x', y', err') := advance dx dy x_step y_step x y err in
           clearance_loop fuel' x' y' err'
  end.
End Clearance.

Definition check_path_clearance (self : GenericObstacleDetector)
    (start end_ : point) : res bool :=
  match detector_obstacle_map self with
  | None => Ret true
  | Some obstacle_map =>
      let '(x1, y1) := start in
      let '(x2, y2) := end_ in
      let dx := Z.abs (x2 - x1) in
      let dy := Z.abs (y2 - y1) in
      let x_step := if x1 <? x2 then 1 else -1 in
      let y_step := if y1 <? y2 then 1 else -1 in
      let err := dx - dy in
      clearance_loop obstacle_map x2 y2 dx dy x_step y_step
        (walk_fuel dx dy) x1 y1 err
  end.

Section FreeSpace.
(** [cv2.bitwise_not], which may raise [cv2.error]. *)
Variable bitwise_not : ndarray -> res ndarray.

Definition get_free_space_map (self : GenericObstacleDetector) : res ndarray :=
  match detector_obstacle_map self with
  | None => Raise ValueError
  | Some obstacle_map => bitwise_not obstacle_map
  end.
End FreeSpace.

(** A pixel that does not stop the walk of [check_path_clearance]. *)
Definition clear (m : ndarray) (p : point) : bool :=
  negb (inside m p && (cell m p =? 255)).
End Detector.


(* ================================================================== *)
(** ** [SmartWireRouter]: construction *)

Module RouterInit.
Import Router Detector.

(** [SmartWireRouter(use_generic_detection)], but for [current_symbols]. *)
Definition SmartWireRouter_init (use_generic_detection : bool) : SmartWireRouter :=
  {| use_generic_detection := use_generic_detection;
     obstacle_detector := GenericObstacleDetector_init;
     current_obstacle_map := None |}.
End RouterInit.


(* ================================================================== *)
(** ** [SmartWireRouter.get_routing_statistics] *)

Module Statistics.

(** The test for a change of direction between two segments:
    [(prev_dx != 0 and curr_dx == 0) or (prev_dy != 0 and curr_dy == 0) or
     (prev_dx == 0 and curr_dx != 0) or (prev_dy == 0 and curr_dy != 0)]. *)
Definition direction_changed (prev_dx prev_dy curr_dx curr_dy : Z) : bool :=
  (negb (prev_dx =? 0) && (curr_dx =? 0)) ||
  (negb (prev_dy =? 0) && (curr_dy =? 0)) ||
  ((prev_dx =? 0) && negb (curr_dx =? 0)) ||
  ((prev_dy =? 0) && negb (curr_dy =? 0)).

Section RoutingStatistics.
(** The floats are those of NumPy and Python, taken as they come: the
    float that [np.sqrt] gives for an integer it accepts, the sum kept in
    [total_length] (which starts as the integer 0) and
    [round(total_length, 2)]. *)
Variable float : Type.
Variable np_sqrt : Z -> float.

(** [np.sqrt(n)] on a Python integer that is not negative: NumPy takes it
    as a 64-bit integer, and raises [TypeError] for one that does not fit,
    from [2**64] on. *)
Definition np_sqrt_int (n : Z) : res float :=
  if n <? 2 ^ 64 then Ret (np_sqrt n) else Raise TypeError.

Inductive number : Type :=
  | Int (n : Z)
  | Float (f : float).

Variable add : number -> float -> float.
Variable round2 : number -> number.

(** The dictionary returned; the short one has no ['waypoints']. *)
Record statistics : Type := {
  stat_length : number;
  stat_segments : Z;
  stat_turns : Z;
  stat_waypoints : option Z
}.

(** The [for i in range(len(path) - 1)] loop. *)
Fixpoint statistics_loop (path : list point) (indices : list Z)
    (total_length : number) (turns : Z) : res (number * Z) :=
  match indices with
  | [] => Ret (total_length, turns)
  | i :: rest =>
      do p <- py_index path (i + 1); do q <- py_index path i;
      let dx := fst p - fst q in
      do p <- py_index path (i + 1); do q <- py_index path i;
      let dy := snd p - snd q in
      do segment_length <- np_sqrt_int (dx ^ 2 + dy ^ 2);
      let total_length := Float (add total_length segment_length) in
      do turns <- (if i >? 0 then
                     do p <- py_index path i; do q <- py_index path (i - 1);
                     let prev_dx := fst p - fst q in
                     do p <- py_index path i; do q <- py_index path (i - 1);
                     let prev_dy := snd p - snd q in
                     do p <- py_index path (i + 1); do q <- py_index path i;
                     let curr_dx := fst p - fst q in
                     do p <- py_index path (i + 1); do q <- py_index path i;
                     let curr_dy := snd p - snd q in
                     Ret (if direction_changed prev_dx prev_dy curr_dx curr_dy
                          then turns + 1 else turns)
                   else Ret turns);
      statistics_loop path rest total_length turns
  end.

Definition get_routing_statistics (path : list point) : res statistics :=
  if len path <? 2 then
    Ret {| stat_length := Int 0; stat_segments := 0; stat_turns := 0;
           stat_waypoints := None |}
  else
    do r <- statistics_loop path (py_range 0 (len path - 1) 1) (Int 0) 0;
    Ret {| stat_length := round2 (fst r);
           stat_segments := len path - 1;
           stat_turns := snd r;
           stat_waypoints := Some (len path) |}.
End RoutingStatistics.

Arguments stat_length {float} _.
Arguments stat_segments {float} _.
Arguments stat_turns {float} _.
Arguments stat_waypoints {float} _.

(** Whether the wire turns at [b] on its way from [a] to [c], for the
    test above. *)
Definition turn (a b c : point) : bool :=
  direction_changed (fst b - fst a) (snd b - snd a) (fst c - fst b) (snd c - snd b).

(** The number of waypoints at which it does. *)
Fixpoint turns_of (path : list point) : Z :=
  match path with
  | [] => 0
  | a :: rest =>
      match rest with
      | b :: c :: _ => (if turn a b c then 1 else 0) + turns_of rest
      | _ => 0
      end
  end.

(** Every segment of the path is one whose squared length [np.sqrt]
    accepts. *)
Fixpoint segments_fit (path : list point) : bool :=
  match path with
  | [] => true
  | a :: rest =>
      match rest with
      | b :: _ =>
          ((fst b - fst a) ^ 2 + (snd b - snd a) ^ 2 <? 2 ^ 64) &&
          segments_fit rest
      | [] => true
      end
  end.
End Statistics.


(* ================================================================== *)
(** ** [SmartWireRouter.get_connection_suggestions] *)

Module Suggestions.

(** A bounding box [(x, y, w, h)]. *)
Abbreviation box := (Z * Z * Z * Z)%type (only parsing).

Section ConnectionSuggestions.
(** [np.sqrt] of an integer and the comparison of its result with the
    integer [radius] are NumPy's. *)
Variable float : Type.
Variable np_sqrt : Z -> float.
Variable le_int : float -> Z -> bool.

(** The [for sx, sy, sw, sh in symbols] loop. *)
Fixpoint suggest_symbols (x y radius : Z) (symbols : list box)
    (suggestions : list point) : list point :=
  match symbols with
  | [] => suggestions
  | (sx, sy, sw, sh) :: rest =>
      let symbol_center_x := sx + sw / 2 in
      let symbol_center_y := sy + sh / 2 in
      let distance :=
        np_sqrt ((symbol_center_x - x) ^ 2 + (symbol_center_y - y) ^ 2) in
      suggest_symbols x y radius rest
        (if le_int distance radius then
           suggestions ++ [(sx, symbol_center_y); (sx + sw, symbol_center_y);
                           (symbol_center_x, sy); (symbol_center_x, sy + sh)]
         else suggestions)
  end.

(** The [for symbol_type, symbols in self.current_symbols.items()] loop,
    over the items of the dict in their order. *)
Fixpoint suggest_types (x y radius : Z)
    (items : list (String.string * list box)) (suggestions : list point)
  : list point :=
  match items with
  | [] => suggestions
  | (_, symbols) :: rest =>
      suggest_types x y radius rest
        (suggest_symbols x y radius symbols suggestions)
  end.

(** [get_connection_suggestions], of [self] its [current_symbols]. *)
Definition get_connection_suggestions
    (current_symbols : list (String.string * list box))
    (point_ : point) (radius : Z) : list point :=
  let '(x, y) := point_ in suggest_types x y radius current_symbols [].

(** The test made on a symbol. *)
Definition near (x y radius : Z) (b : box) : bool :=
  let '(sx, sy, sw, sh) := b in
  le_int (np_sqrt ((sx + sw / 2 - x) ^ 2 + (sy + sh / 2 - y) ^ 2)) radius.
End ConnectionSuggestions.

(** The four points suggested for a symbol. *)
Definition edge_points (b : box) : list point :=
  let '(sx, sy, sw, sh) := b in
  [(sx, sy + sh / 2); (sx + sw, sy + sh / 2);
   (sx + sw / 2, sy); (sx + sw / 2, sy + sh)].

(** [p] is on the border of the box. *)
Definition on_border (b : box) (p : point) : Prop :=
  let '(sx, sy, sw, sh) := b in
  sx <= fst p <= sx + sw /\ sy <= snd p <= sy + sh /\
  (fst p = sx \/ fst p = sx + sw \/ snd p = sy \/ snd p = sy + sh).
End Suggestions.

(* ================================================================== *)
(** ** [CircuitSymbolDetector]: template matching *)

Module SymbolDetector.
Import Stdlib.QArith.QArith.
Import Router Suggestions.

Definition _boxes_overlap (box1 box2 : box) : bool :=
  let '(x1, y1, w1, h1) := box1 in
  let '(x2, y2, w2, h2) := box2 in
  negb ((x1 + w1 <? x2) || (x2 + w2 <? x1) || (y1 + h1 <? y2) || (y2 + h2 <? y1))%Z.

(** [int(f)] on a float, here an exact rational: towards zero. *)
Definition int_of (q : Q) : Z := Z.quot (Qnum q) (Z.pos (Qden q)).

(** [scales = [0.5, 0.75, 1.0, 1.25, 1.5, 2.0]]. *)
Definition scales : list Q := [1 # 2; 3 # 4; 1; 5 # 4; 3 # 2; 2].

(** [for existing in found_symbols: if self._boxes_overlap(...): overlap =
    True; break]. *)
Fixpoint overlaps_found (b : box) (found_symbols : list box) : bool :=
  match found_symbols with
  | [] => false
  | existing :: rest =>
      if _boxes_overlap b existing then true else overlaps_found b rest
  end.

(** [for pt in zip( *locations[::-1])]. *)
Fixpoint add_matches (width height : Z) (pts : list (Z * Z))
    (found_symbols : list box) : list box :=
  match pts with
  | [] => found_symbols
  | (x, y) :: rest =>
      add_matches width height rest
        (if negb (overlaps_found (x, y, width, height) found_symbols)
         then found_symbols ++ [(x, y, width, height)]
         else found_symbols)
  end.

Section TemplateMatching.
(** What is taken from OpenCV and NumPy: the conversion to grey, the
    resizing of the template, and the places where the match with the
    resized template reaches the threshold, as pairs [(x, y)]. *)
Variable color_image : Type.
Variable threshold : Type.
Variable cvtColor_BGR2GRAY : color_image -> res ndarray.
Variable resize : ndarray -> Z -> Z -> res ndarray.
Variable match_locations : ndarray -> ndarray -> threshold -> res (list (Z * Z)).

(** The [for scale in scales] loop. *)
Fixpoint scales_loop (template gray : ndarray) (t : threshold)
    (todo : list Q) (found_symbols : list box) : res (list box) :=
  match todo with
  | [] => Ret found_symbols
  | scale :: rest =>
      let width := int_of (inject_Z (Z.of_nat (shape1 template)) * scale) in
      let height := int_of (inject_Z (Z.of_nat (shape0 template)) * scale) in
      if ((width <? 10) || (height <? 10) ||
          (width >? Z.of_nat (shape1 gray)) ||
          (height >? Z.of_nat (shape0 gray)))%Z
      then scales_loop template gray t rest found_symbols
      else
        do resized_template <- resize template width height;
        do pts <- match_locations gray resized_template t;
        scales_loop template gray t rest
          (add_matches width height pts found_symbols)
  end.

Definition detect_by_template_matching
    (templates : list (String.string * ndarray)) (img : image color_image)
    (symbol_type : String.string) (t : threshold) : res (list box) :=
  match List.find (fun kv => String.eqb (fst kv) symbol_type) templates with
  | None => Ret []
  | Some (_, template) =>
      do gray <- (match img with
                  | Color _ c => cvtColor_BGR2GRAY c
                  | Gray _ a => Ret a
                  end);
      scales_loop template gray t scales []
  end.
End TemplateMatching.

(** No two boxes of the list overlap. *)
Definition apart (found : list box) : Prop :=
  forall (i j : nat) (a b : box),
    i <> j -> nth_error found i = Some a -> nth_error found j = Some b ->
    _boxes_overlap a b = false.

(** The sides of a box are at least 10. *)
Definition large (b : box) : Prop := (10 <= snd (fst b) /\ 10 <= snd b)%Z.

(** The closed rectangles of two boxes share a point. *)
Definition share_point (box1 box2 : box) : Prop :=
  let '(x1, y1, w1, h1) := box1 in
  let '(x2, y2, w2, h2) := box2 in
  exists px py : Z,
    (x1 <= px <= x1 + w1 /\ y1 <= py <= y1 + h1 /\
     x2 <= px <= x2 + w2 /\ y2 <= py <= y2 + h2)%Z.
End SymbolDetector.


(* ================================================================== *)
(** ** [SmartWireRouter.analyze_circuit] with its floats in binary64 *)

(** Module [Router] above keeps the coverage as the exact rational, which
    is enough for the bounds proved of it; here the division, the product
    and the rounding are those of the floats the program computes with. *)
Module Router64.
Import Stdlib.Floats.PrimFloat Stdlib.Floats.FloatOps Stdlib.Floats.SpecFloat.
Import Stdlib.QArith.QArith.
Import Router.

(** Python's [float] is IEEE binary64, and so is Rocq's primitive [float].
    [float(n)] for a Python integer; exact up to [2**53]. *)
Definition of_int (n : Z) : float :=
  if (n <? 0)%Z then PrimFloat.opp (PrimFloat.of_uint63 (Uint63.of_Z (- n)))
  else PrimFloat.of_uint63 (Uint63.of_Z n).

(** [a / b] on two Python integers: the quotient rounded once, which for
    integers up to [2**53] is the quotient of the two floats. *)
Definition true_div (a b : Z) : res float :=
  if (b =? 0)%Z then Raise ZeroDivisionError
  else Ret (PrimFloat.div (of_int a) (of_int b)).

(** [x * n] for a float and a Python integer. *)
Definition mul_int (x : float) (n : Z) : float := PrimFloat.mul x (of_int n).

(** The rational number a finite float stands for. *)
Definition exact (x : float) : option Q :=
  match Prim2SF x with
  | S754_zero _ => Some 0
  | S754_finite s m e =>
      let v := inject_Z (Z.pos m) * Qpower 2 e in
      Some (if s then - v else v)
  | _ => None
  end.

(** The float nearest to [n / 10**ndigits]: what Python reads a decimal
    numeral with [ndigits] decimals as. *)
Definition decimal (n : Z) (ndigits : nat) : float :=
  PrimFloat.div (of_int n) (of_int (10 ^ Z.of_nat ndigits)).

(** [round(x, ndigits)] on a float: the value of [x] is rounded to
    [ndigits] decimals, ties going to the even digit, and the float
    nearest to that decimal is returned. *)
Definition py_round (x : float) (ndigits : nat) : float :=
  match exact x with
  | Some q =>
      decimal (round_half_even (q * inject_Z (10 ^ Z.of_nat ndigits))) ndigits
  | None => x
  end.

Section Cv2.
Variable color_image : Type.
Variable structuring_element : Type.
Variable cvtColor_BGR2GRAY : color_image -> res ndarray.
Variable adaptiveThreshold_GAUSSIAN_BINARY_INV :
  ndarray -> Z -> Z -> Z -> res ndarray.
Variable getStructuringElement_RECT : Z -> Z -> res structuring_element.
Variable dilate : ndarray -> structuring_element -> res ndarray.

(** The dictionary returned for the generic method. *)
Record analysis : Type := {
  analysis_obstacle_map : ndarray;
  obstacle_pixels : Z;
  free_pixels : Z;
  coverage : float
}.

Definition analyze_circuit (self : SmartWireRouter) (img : image color_image)
    (dilation_size safety_padding : Z)
  : res (SmartWireRouter * analysis) :=
  if use_generic_detection self then
    do made <- create_obstacle_map color_image structuring_element
                 cvtColor_BGR2GRAY adaptiveThreshold_GAUSSIAN_BINARY_INV
                 getStructuringElement_RECT dilate
                 (obstacle_detector self) img dilation_size safety_padding;
    let current := snd made in
    let obstacle := count_nonzero current in
    let free := count_nonzero (equals_zero current) in
    do ratio <- true_div obstacle (obstacle + free);
    Ret ({| use_generic_detection := use_generic_detection self;
            obstacle_detector := fst made;
            current_obstacle_map := Some current |},
         {| analysis_obstacle_map := current;
            obstacle_pixels := obstacle;
            free_pixels := free;
            coverage := py_round (mul_int ratio 100) 2 |})
  else Raise AttributeError.

(** [image.shape[:2]]: the height and the width of an image, those of a
    colour image being given by [color_shape]. *)
Definition image_shape (color_shape : color_image -> nat * nat)
    (img : image color_image) : nat * nat :=
  match img with
  | Gray _ a => (shape0 a, shape1 a)
  | Color _ c => color_shape c
  end.

(** What OpenCV documents of the three operations on images: the result
    has the size of the source. *)
Definition keeps_size (color_shape : color_image -> nat * nat) : Prop :=
  (forall c g, cvtColor_BGR2GRAY c = Ret g ->
               (shape0 g, shape1 g) = color_shape c) /\
  (forall a max_value block_size C r,
     adaptiveThreshold_GAUSSIAN_BINARY_INV a max_value block_size C = Ret r ->
     shape0 r = shape0 a /\ shape1 r = shape1 a) /\
  (forall a kernel r,
     dilate a kernel = Ret r -> shape0 r = shape0 a /\ shape1 r = shape1 a).
End Cv2.

End Router64.

Module Router64Sample.
Import Router Router64.

(** The image of 10 rows and 16 columns whose first 23 pixels, row after
    row, are set. *)
Definition sample_image : ndarray :=
  {| shape0 := 10; shape1 := 16;
     item := fun r c => if (r * 16 + c <? 23)%nat then 255 else 0 |}.

(** OpenCV standing for itself: operations that keep the image as it is. *)
Definition analyze_sample : res (SmartWireRouter * analysis) :=
  analyze_circuit ndarray unit (fun c => Ret c) (fun a _ _ _ => Ret a)
    (fun _ _ => Ret tt) (fun a _ => Ret a)
    {| use_generic_detection := true;
       obstacle_detector := {| detector_obstacle_map := None;
                               original_binary := None |};
       current_obstacle_map := None |}
    (Gray ndarray sample_image) 7 5.
End Router64Sample.

(* ================================================================== *)
(** ** Facts about the embedding *)

Lemma normalize_index_inside (i : Z) (n : nat) :
  0 <= i < Z.of_nat n -> normalize_index i n = Some (Z.to_nat i).
Proof.
  intros H. unfold normalize_index.
  replace ((0 <=? i) && (i <? Z.of_nat n)) with true by lia. reflexivity.
Qed.

Lemma getitem_inside (m : ndarray) (p : point) :
  inside m p = true -> getitem m (snd p) (fst p) = Ret (cell m p).
Proof.
  intros H. unfold inside in H. unfold getitem, cell.
  rewrite !normalize_index_inside by lia. reflexivity.
Qed.

(** Bound to the array it was built from, the probe never raises. *)
Lemma blocked_init (m : ndarray) (x y : Z) :
  blocked (PathFinder_init m) x y = Ret (negb (passable m (x, y))).
Proof.
  unfold blocked, passable. cbn [PathFinder_init width height obstacle_map].
  destruct (inside m (x, y)) eqn:Hin.
  - pose proof Hin as Hin'. unfold inside in Hin'. cbn [fst snd] in Hin'.
    replace ((x <? 0) || (x >=? Z.of_nat (shape1 m)) || (y <? 0) || (y >=? Z.of_nat (shape0 m)))
      with false by lia.
    pose proof (getitem_inside m (x, y) Hin) as G. cbn [fst snd] in G.
    rewrite G. cbn [bind andb]. unfold OBSTACLE.
    destruct (cell m (x, y) =? 255); reflexivity.
  - unfold inside in Hin. cbn [fst snd] in Hin.
    replace ((x <? 0) || (x >=? Z.of_nat (shape1 m)) || (y <? 0) || (y >=? Z.of_nat (shape0 m)))
      with true by lia.
    reflexivity.
Qed.

Section Walk.
Variable m : ndarray.
Variables x1 y1 dx dy x_step y_step : Z.
Hypothesis Hdx : 0 <= dx.
Hypothesis Hdy : 0 <= dy.

Local Abbreviation walk_inv := (walk_inv x1 y1 dx dy x_step y_step).

Lemma walk_inv_end a b x y err :
  walk_inv a b x y err ->
  ((x =? x1) && (y =? y1) = true <-> a = dx /\ b = dy).
Proof. unfold walk_inv. intros (Ha & Hb & _ & Hx & Hy & Hsx & Hsy). split; intros H; nia. Qed.

Lemma walk_inv_advance a b x y err :
  walk_inv a b x y err -> (x =? x1) && (y =? y1) = false ->
  exists a' b',
    walk_inv a' b' (advance dx dy x_step y_step x y err).1.1
                   (advance dx dy x_step y_step x y err).1.2
                   (advance dx dy x_step y_step x y err).2 /\
    (dx - a') + (dy - b') < (dx - a) + (dy - b).
Proof.
  intros Hinv Hne.
  assert (Hlt : a < dx \/ b < dy).
  { destruct (walk_inv_end _ _ _ _ _ Hinv) as [_ Hend].
    destruct (Z.eq_dec a dx) as [->|]; [|unfold walk_inv in Hinv; lia].
    destruct (Z.eq_dec b dy) as [->|]; [|unfold walk_inv in Hinv; lia].
    rewrite Hend in Hne by auto. discriminate. }
  destruct Hinv as (Ha & Hb & He & Hx & Hy & Hsx & Hsy).
  assert (Hxs : a = dx -> 2 * err <= - dy).
  { intros ->. assert (0 <= dx * (dy - 1 - b)) by nia. nia. }
  assert (Hys : b = dy -> dx <= 2 * err).
  { intros ->. assert (0 <= dy * (dx - 1 - a)) by nia. nia. }
  unfold advance.
  destruct (2 * err >? - dy) eqn:E1; destruct (2 * err <? dx) eqn:E2; cbn [fst snd].
  - exists (a + 1), (b + 1). unfold walk_inv. repeat split; try lia; nia.
  - exists (a + 1), b. unfold walk_inv. repeat split; try lia; nia.
  - exists a, (b + 1). unfold walk_inv. repeat split; try lia; nia.
  - exfalso. lia.
Qed.

Lemma line_loop_last fuel : forall a b x y err d,
  walk_inv a b x y err ->
  (dx - a) + (dy - b) < Z.of_nat fuel ->
  List.last (line_loop x1 y1 dx dy x_step y_step fuel x y err) d = (x1, y1).
Proof.
  induction fuel as [|fuel IH]; intros a b x y err d Hinv Hfuel.
  - unfold walk_inv in Hinv. lia.
  - cbn [line_loop].
    destruct ((x =? x1) && (y =? y1)) eqn:E.
    + cbn. f_equal; lia.
    + destruct (walk_inv_advance _ _ _ _ _ Hinv E) as (a' & b' & Hinv' & Hm).
      destruct (advance dx dy x_step y_step x y err) as [[x' y'] err'] eqn:Ea.
      cbn [fst snd] in Hinv'.
      specialize (IH a' b' x' y' err' d Hinv' ltac:(lia)).
      destruct fuel as [|fuel]; [unfold walk_inv in Hinv'; lia|].
      cbn [line_loop] in *. exact IH.
Qed.

Lemma connect_loop_forallb fuel : forall a b x y err,
  walk_inv a b x y err ->
  (dx - a) + (dy - b) < Z.of_nat fuel ->
  connect_loop (PathFinder_init m) x1 y1 dx dy x_step y_step fuel x y err
  = Ret (forallb (passable m) (line_loop x1 y1 dx dy x_step y_step fuel x y err)).
Proof.
  induction fuel as [|fuel IH]; intros a b x y err Hinv Hfuel.
  - unfold walk_inv in Hinv. lia.
  - cbn [connect_loop line_loop forallb]. rewrite blocked_init. cbn [bind].
    destruct (passable m (x, y)); cbn [negb andb]; [|reflexivity].
    destruct ((x =? x1) && (y =? y1)) eqn:E; [reflexivity|].
    destruct (walk_inv_advance _ _ _ _ _ Hinv E) as (a' & b' & Hinv' & Hm).
    destruct (advance dx dy x_step y_step x y err) as [[x' y'] err'] eqn:Ea.
    cbn [fst snd] in Hinv'.
    apply (IH a' b' x' y' err' Hinv'). lia.
Qed.
End Walk.

Lemma walk_inv_start (start end_ : point) :
  walk_inv (fst end_) (snd end_)
    (Z.abs (fst end_ - fst start)) (Z.abs (snd end_ - snd start))
    (if fst start <? fst end_ then 1 else -1)
    (if snd start <? snd end_ then 1 else -1)
    0 0 (fst start) (snd start)
    (Z.abs (fst end_ - fst start) - Z.abs (snd end_ - snd start)).
Proof.
  unfold walk_inv.
  destruct (fst start <? fst end_) eqn:E1; destruct (snd start <? snd end_) eqn:E2;
    repeat split; lia.
Qed.

(** The line starts at [start], ends at [end_], and so holds both. *)
Lemma line_cells_hd (start end_ : point) :
  exists l, line_cells start end_ = start :: l.
Proof.
  destruct start as [x0 y0], end_ as [x1 y1]. unfold line_cells, walk_fuel.
  cbn [line_loop]. eexists. reflexivity.
Qed.

Lemma line_cells_last (start end_ : point) :
  List.last (line_cells start end_) start = end_.
Proof.
  destruct start as [x0 y0], end_ as [x1 y1]. unfold line_cells.
  eapply line_loop_last; [| | apply (walk_inv_start (x0, y0) (x1, y1)) |];
    unfold walk_fuel; cbn [fst snd]; lia.
Qed.

Lemma last_in_nonempty {A : Type} (l : list A) (d : A) :
  l <> [] -> In (List.last l d) l.
Proof.
  induction l as [|c l IH]; intros Hne; [congruence|].
  destruct l as [|c' l']; [left; reflexivity|].
  right. apply IH. discriminate.
Qed.

Lemma line_cells_ends (start end_ : point) :
  In start (line_cells start end_) /\ In end_ (line_cells start end_).
Proof.
  destruct (line_cells_hd start end_) as [l Hl]. split.
  - rewrite Hl. left. reflexivity.
  - rewrite <- (line_cells_last start end_) at 1.
    apply last_in_nonempty. rewrite Hl. discriminate.
Qed.

(** [_can_connect_directly] always returns, and returns whether every cell
    of the line passes the probe. *)
Lemma can_connect_spec (m : ndarray) (a b : point) :
  _can_connect_directly (PathFinder_init m) a b
  = Ret (forallb (passable m) (line_cells a b)).
Proof.
  destruct a as [x0 y0], b as [x1 y1]. unfold _can_connect_directly, line_cells.
  eapply connect_loop_forallb; [| | apply (walk_inv_start (x0, y0) (x1, y1)) |];
    unfold walk_fuel; cbn [fst snd]; lia.
Qed.

(* ------------------------------------------------------------------ *)
(** *** Python lists *)

Lemma py_index_inside {A : Type} (l : list A) (i : Z) :
  0 <= i < len l ->
  exists v, py_index l i = Ret v /\ nth_error l (Z.to_nat i) = Some v.
Proof.
  intros H. unfold py_index, len in *. rewrite normalize_index_inside by lia.
  destruct (nth_error l (Z.to_nat i)) as [v|] eqn:E.
  - exists v. split; reflexivity.
  - apply nth_error_None in E. lia.
Qed.

Lemma py_index_nth {A : Type} (l : list A) (i : Z) (v : A) :
  0 <= i -> nth_error l (Z.to_nat i) = Some v -> py_index l i = Ret v.
Proof.
  intros Hi Hv.
  assert (Z.to_nat i < length l)%nat by (apply nth_error_Some; congruence).
  destruct (py_index_inside l i) as (w & Hw & Hn); [unfold len; lia|].
  congruence.
Qed.

Lemma nth_error_last {A : Type} (l : list A) (d : A) :
  l <> [] -> nth_error l (Nat.pred (length l)) = Some (List.last l d).
Proof.
  induction l as [|c l IH]; intros Hne; [congruence|].
  destruct l as [|c' l']; [reflexivity|].
  specialize (IH ltac:(discriminate)). cbn [length Nat.pred] in *.
  cbn [nth_error]. rewrite IH. reflexivity.
Qed.

(** [l[-1]] is the last item of a list that has one. *)
Lemma py_index_last {A : Type} (l : list A) (d : A) :
  l <> [] -> py_index l (-1) = Ret (List.last l d).
Proof.
  intros Hne. unfold py_index, normalize_index.
  assert (0 < length l)%nat by (destruct l; [congruence|cbn; lia]).
  replace ((0 <=? -1) && (-1 <? Z.of_nat (length l))) with false by lia.
  replace ((- Z.of_nat (length l) <=? -1) && (-1 <? 0)) with true by lia.
  replace (Z.to_nat (-1 + Z.of_nat (length l))) with (Nat.pred (length l)) by lia.
  rewrite (nth_error_last l d Hne). reflexivity.
Qed.

Lemma last_snoc {A : Type} (l : list A) (x d : A) : List.last (l ++ [x]) d = x.
Proof. apply last_last. Qed.

Lemma adjacent_snoc {A : Type} (o : list A) (q p a b : A) :
  adjacent ((o ++ [q]) ++ [p]) a b ->
  adjacent (o ++ [q]) a b \/ (a = q /\ b = p).
Proof.
  intros (k & Ha & Hb).
  assert (Hk : (S k < length ((o ++ [q]) ++ [p]))%nat) by (apply nth_error_Some; congruence).
  rewrite !length_app in Hk. cbn [length] in Hk.
  destruct (Nat.eq_dec k (length o)) as [->|Hne].
  - right. split.
    + rewrite nth_error_app1 in Ha by (rewrite length_app; cbn; lia).
      rewrite nth_error_app2 in Ha by lia. rewrite Nat.sub_diag in Ha.
      cbn in Ha. congruence.
    + rewrite nth_error_app2 in Hb by (rewrite length_app; cbn; lia).
      rewrite length_app in Hb. cbn [length] in Hb.
      replace (S (length o) - (length o + 1))%nat with 0%nat in Hb by lia.
      cbn in Hb. congruence.
  - left. exists k. split.
    + rewrite nth_error_app1 in Ha by (rewrite length_app; cbn; lia). exact Ha.
    + rewrite nth_error_app1 in Hb by (rewrite length_app; cbn; lia). exact Hb.
Qed.

Lemma adjacent_nth {A : Type} (l : list A) (k : nat) (a b : A) :
  nth_error l k = Some a -> nth_error l (S k) = Some b -> adjacent l a b.
Proof. intros Ha Hb. exists k. split; assumption. Qed.

(* ------------------------------------------------------------------ *)
(** *** The loops of [optimize_path] *)

Section OptimizeLoops.
Variable m : ndarray.
Variable path : list point.
Let self := PathFinder_init m.

Lemma can_connect_los (a b : point) :
  _can_connect_directly self a b = Ret (los m a b).
Proof. apply can_connect_spec. Qed.

(** The inner loop stops at the first point out of sight of the anchor. *)
Lemma look_ahead_spec (i : Z) (pi : point) (fuel : nat) : forall j,
  nth_error path (Z.to_nat i) = Some pi -> 0 <= i ->
  i < j <= len path -> len path - j < Z.of_nat fuel ->
  exists j',
    look_ahead self path fuel i j = Ret j' /\
    j <= j' <= len path /\
    (forall k pk, j <= k < j' -> nth_error path (Z.to_nat k) = Some pk ->
                  los m pi pk = true) /\
    (j' < len path ->
     exists pk, nth_error path (Z.to_nat j') = Some pk /\ los m pi pk = false).
Proof.
  induction fuel as [|fuel IH]; intros j Hpi Hi Hj Hfuel; [lia|].
  cbn [look_ahead].
  destruct (j <? len path) eqn:E.
  - rewrite (py_index_nth path i pi Hi Hpi). cbn [bind].
    destruct (py_index_inside path j ltac:(lia)) as (pj & Hpj & Hnj).
    rewrite Hpj. cbn [bind]. rewrite can_connect_los. cbn [bind].
    destruct (los m pi pj) eqn:Hlos.
    + destruct (IH (j + 1) Hpi Hi ltac:(lia) ltac:(lia)) as (j' & Hrun & Hb & Hall & Hstop).
      exists j'. split; [exact Hrun|]. split; [lia|]. split; [|exact Hstop].
      intros k pk Hk Hnk. destruct (Z.eq_dec k j) as [->|Hne].
      * congruence.
      * apply (Hall k pk); [lia|exact Hnk].
    + exists j. split; [reflexivity|]. split; [lia|]. split.
      * intros k pk Hk. lia.
      * intros _. exists pj. split; assumption.
  - exists j. split; [reflexivity|]. split; [lia|]. split.
    + intros k pk Hk. lia.
    + intros Hlt. lia.
Qed.

(** The outer loop returns, and leaves its anchor on the last point. *)
Lemma optimize_loop_spec (fuel : nat) : forall i optimized,
  opt_inv m path i optimized ->
  len path - 1 - i < Z.of_nat fuel ->
  exists out,
    optimize_loop self path fuel i optimized = Ret out /\
    opt_inv m path (len path - 1) out.
Proof.
  induction fuel as [|fuel IH]; intros i optimized Hinv Hfuel.
  - destruct Hinv as (o & q & _ & _ & Hi & _). lia.
  - cbn [optimize_loop].
    destruct (i <? len path - 1) eqn:E.
    + destruct Hinv as (o & q & Ho & Hq & Hi & Hhd & Hlen & Hpairs).
      destruct (look_ahead_spec i q (S (length path)) (i + 1) Hq ltac:(lia)
                  ltac:(lia) ltac:(unfold len; lia))
        as (j & Hrun & Hj & Hall & _).
      rewrite Hrun. cbn [bind].
      assert (Hhd' : forall p, hd_error (optimized ++ [p]) = hd_error path).
      { intros p. rewrite Ho in *. destruct o; exact Hhd. }
      destruct (j - 1 >? i) eqn:Ej.
      * destruct (py_index_inside path (j - 1) ltac:(lia)) as (p & Hp & Hnp).
        rewrite Hp. cbn [bind]. apply IH; [|lia].
        exists optimized, p. repeat split; try lia; auto.
        -- unfold len in *. rewrite length_app. cbn [length]. lia.
        -- intros a b Hab. rewrite Ho in Hab.
           apply adjacent_snoc in Hab. destruct Hab as [Hab|[-> ->]].
           ++ apply Hpairs. rewrite Ho. exact Hab.
           ++ left. apply (Hall (j - 1)); [lia|exact Hnp].
      * destruct (py_index_inside path (i + 1) ltac:(lia)) as (p & Hp & Hnp).
        rewrite Hp. cbn [bind]. apply IH; [|lia].
        exists optimized, p. repeat split; try lia; auto.
        -- unfold len in *. rewrite length_app. cbn [length]. lia.
        -- intros a b Hab. rewrite Ho in Hab.
           apply adjacent_snoc in Hab. destruct Hab as [Hab|[-> ->]].
           ++ apply Hpairs. rewrite Ho. exact Hab.
           ++ right. apply (adjacent_nth path (Z.to_nat i)); [exact Hq|].
              replace (S (Z.to_nat i)) with (Z.to_nat (i + 1)) by lia. exact Hnp.
    + exists optimized. split; [reflexivity|].
      destruct Hinv as (o & q & Ho & Hq & Hi & Hhd & Hlen & Hpairs).
      assert (i = len path - 1) by lia. subst i.
      exists o, q. repeat split; auto; lia.
Qed.
End OptimizeLoops.

Lemma point_eqb_refl (p : point) : point_eqb p p = true.
Proof. unfold point_eqb. lia. Qed.

Lemma point_eqb_eq (p q : point) : point_eqb p q = true <-> p = q.
Proof.
  destruct p as [a b], q as [c d]. unfold point_eqb. cbn [fst snd]. split.
  - intros H. f_equal; lia.
  - intros [= -> ->]. lia.
Qed.

Lemma opt_inv_last (m : ndarray) (path out : list point) (d : point) :
  opt_inv m path (len path - 1) out ->
  path <> [] ->
  List.last out d = List.last path d /\ out <> [].
Proof.
  intros (o & q & -> & Hq & _) Hne. split.
  - rewrite last_snoc.
    replace (Z.to_nat (len path - 1)) with (Nat.pred (length path)) in Hq
      by (unfold len; lia).
    rewrite (nth_error_last path d Hne) in Hq. congruence.
  - destruct o; discriminate.
Qed.

(** [optimize_path] on a path of three points or more: the loop result is
    returned as it is, the final test never adds a point. *)
Lemma optimize_path_long (m : ndarray) (P : list point) :
  3 <= len P ->
  exists Q,
    optimize_path (PathFinder_init m) P = Ret Q /\
    optimize_loop (PathFinder_init m) P (S (length P)) 0 (firstn 1 P) = Ret Q /\
    opt_inv m P (len P - 1) Q.
Proof.
  intros H3. unfold optimize_path.
  replace (len P <? 3) with false by lia.
  destruct P as [|p0 P']; [unfold len in H3; cbn in H3; lia|].
  set (P := p0 :: P') in *.
  assert (Hp0 : py_index P 0 = Ret p0) by (apply py_index_nth; [lia|reflexivity]).
  rewrite Hp0. cbn [bind].
  destruct (optimize_loop_spec m P (S (length P)) 0 [p0]) as (Q & HQ & Hinv).
  { exists [], p0. repeat split; try reflexivity; try lia.
    intros a b (k & Ha & Hb). destruct k; cbn in Hb; discriminate. }
  { unfold len. lia. }
  rewrite HQ. cbn [bind].
  destruct (opt_inv_last m P Q p0 Hinv ltac:(discriminate)) as (Hlast & Hne).
  rewrite (py_index_last Q p0 Hne), (py_index_last P p0 ltac:(discriminate)).
  cbn [bind]. rewrite Hlast, point_eqb_refl. cbn [negb].
  exists Q. repeat split; auto.
Qed.

Lemma forallb_false_In {A : Type} (f : A -> bool) (l : list A) :
  forallb f l = false -> exists c, In c l /\ f c = false.
Proof.
  induction l as [|c l IH]; [discriminate|]. cbn [forallb].
  destruct (f c) eqn:Ec.
  - intros H. destruct (IH H) as (c' & Hc' & Hf). exists c'. split; [right|]; assumption.
  - intros _. exists c. split; [left; reflexivity|assumption].
Qed.

Lemma firstn_snoc_nth {A : Type} (l : list A) (n : nat) (p : A) :
  nth_error l n = Some p -> firstn n l ++ [p] = firstn (S n) l.
Proof.
  revert n. induction l as [|c l IH]; intros n Hn.
  - destruct n; discriminate.
  - destruct n as [|n].
    + injection Hn as ->. reflexivity.
    + change (c :: (firstn n l ++ [p]) = c :: firstn (S n) l).
      rewrite (IH n Hn). reflexivity.
Qed.

(** On a path without shortcut the outer loop of [optimize_path] moves its
    anchor one point at a time and puts every point out again. *)
Lemma optimize_loop_fixed (m : ndarray) (Q : list point) (fuel : nat) :
  shortcut_free (PathFinder_init m) Q ->
  forall i, 0 <= i <= len Q - 1 -> len Q - 1 - i < Z.of_nat fuel ->
  optimize_loop (PathFinder_init m) Q fuel i (firstn (Z.to_nat (i + 1)) Q) = Ret Q.
Proof.
  intros Hsf. induction fuel as [|fuel IH]; intros i Hi Hfuel; [lia|].
  cbn [optimize_loop].
  destruct (i <? len Q - 1) eqn:E.
  - destruct (py_index_inside Q i ltac:(lia)) as (q & _ & Hq).
    destruct (look_ahead_spec m Q i q (S (length Q)) (i + 1) Hq ltac:(lia)
                ltac:(lia) ltac:(unfold len; lia))
      as (j & Hrun & Hj & Hall & _).
    rewrite Hrun. cbn [bind].
    destruct (py_index_inside Q (i + 1) ltac:(lia)) as (p & Hp & Hnp).
    assert (Hj2 : j <= i + 2).
    { destruct (Z_le_gt_dec j (i + 2)) as [|Hgt]; [assumption|exfalso].
      destruct (py_index_inside Q (i + 2) ltac:(lia)) as (c & _ & Hnc).
      pose proof (Hall (i + 1) p ltac:(lia) Hnp) as L1.
      pose proof (Hall (i + 2) c ltac:(lia) Hnc) as L2.
      assert (Hcon : _can_connect_directly (PathFinder_init m) q c = Ret false).
      { apply (Hsf (Z.to_nat i) q p c Hq).
        - replace (S (Z.to_nat i)) with (Z.to_nat (i + 1)) by lia. exact Hnp.
        - replace (S (S (Z.to_nat i))) with (Z.to_nat (i + 2)) by lia. exact Hnc.
        - rewrite can_connect_spec. fold (los m q p). rewrite L1. reflexivity. }
      rewrite can_connect_spec in Hcon. fold (los m q c) in Hcon.
      rewrite L2 in Hcon. discriminate. }
    assert (Hnext : firstn (Z.to_nat (i + 1)) Q ++ [p] = firstn (Z.to_nat (i + 1 + 1)) Q).
    { replace (Z.to_nat (i + 1 + 1)) with (S (Z.to_nat (i + 1))) by lia.
      apply firstn_snoc_nth. exact Hnp. }
    destruct (j - 1 >? i) eqn:Ej.
    + replace (j - 1) with (i + 1) by lia. rewrite Hp. cbn [bind].
      rewrite Hnext. apply IH; lia.
    + rewrite Hp. cbn [bind]. rewrite Hnext. apply IH; lia.
  - rewrite firstn_all2; [reflexivity|]. unfold len in *. lia.
Qed.

(** A shortcut at index [k] costs the result of the outer loop a point:
    the anchor either jumps over [k] or jumps from it. *)
Lemma optimize_loop_shorter (m : ndarray) (Q : list point) (k : Z)
    (a b c : point) (fuel : nat) :
  0 <= k ->
  nth_error Q (Z.to_nat k) = Some a ->
  nth_error Q (Z.to_nat (k + 1)) = Some b ->
  nth_error Q (Z.to_nat (k + 2)) = Some c ->
  los m a b = true -> los m a c = true ->
  forall i optimized out,
    optimize_loop (PathFinder_init m) Q fuel i optimized = Ret out ->
    0 <= i <= len Q - 1 ->
    len optimized <= i \/ (i <= k /\ len optimized <= i + 1) ->
    len out < len Q.
Proof.
  intros Hk Ha Hb Hc Lab Lac.
  assert (Hlen : k + 2 < len Q).
  { assert (Z.to_nat (k + 2) < length Q)%nat by (apply nth_error_Some; congruence).
    unfold len. lia. }
  induction fuel as [|fuel IH]; intros i optimized out Hrun Hi Hcase; [discriminate|].
  cbn [optimize_loop] in Hrun.
  destruct (i <? len Q - 1) eqn:E.
  - destruct (py_index_inside Q i ltac:(lia)) as (q & _ & Hq).
    destruct (look_ahead_spec m Q i q (S (length Q)) (i + 1) Hq ltac:(lia)
                ltac:(lia) ltac:(unfold len; lia))
      as (j & Hj & Hjb & Hall & Hstop).
    rewrite Hj in Hrun. cbn [bind] in Hrun.
    assert (Hjump : i = k -> k + 3 <= j).
    { intros ->. assert (q = a) by congruence. subst q.
      destruct (Z_lt_le_dec j (k + 3)) as [Hlt|]; [exfalso|assumption].
      destruct (Hstop ltac:(lia)) as (pk & Hpk & Lpk).
      assert (j = k + 1 \/ j = k + 2) as [-> | ->] by lia; congruence. }
    assert (Hsnoc : forall p, len (optimized ++ [p]) = len optimized + 1).
    { intros p. unfold len. rewrite length_app. cbn [length]. lia. }
    destruct (j - 1 >? i) eqn:Ej.
    + destruct (py_index_inside Q (j - 1) ltac:(lia)) as (p & Hp & _).
      rewrite Hp in Hrun. cbn [bind] in Hrun.
      apply (IH _ _ _ Hrun); [lia|]. rewrite Hsnoc.
      destruct Hcase as [Hs|[Hik Hl]]; [left; lia|].
      destruct (Z.eq_dec i k) as [Heq|Hne]; [specialize (Hjump Heq); left; lia|].
      destruct (Z_le_gt_dec (j - 1) k); [right; lia|left; lia].
    + destruct (py_index_inside Q (i + 1) ltac:(lia)) as (p & Hp & _).
      rewrite Hp in Hrun. cbn [bind] in Hrun.
      apply (IH _ _ _ Hrun); [lia|]. rewrite Hsnoc.
      destruct Hcase as [Hs|[Hik Hl]]; [left; lia|].
      destruct (Z.eq_dec i k) as [Heq|Hne]; [specialize (Hjump Heq); lia|].
      right. lia.
  - injection Hrun as <-. destruct Hcase as [Hs|[Hik Hl]]; lia.
Qed.

(* ------------------------------------------------------------------ *)
(** *** The measure of the search *)

Section Measure.
Variable B : Z.
Variable g : gmap point Z.
Variable n : point.
Variable v : Z.

Lemma weight_insert_eq : weight B (<[n := v]> g) n = v.
Proof. unfold weight. rewrite lookup_insert_eq. reflexivity. Qed.

Lemma weight_insert_ne (c : point) : c <> n -> weight B (<[n := v]> g) c = weight B g c.
Proof. intros H. unfold weight. rewrite lookup_insert_ne by congruence. reflexivity. Qed.

Lemma total_insert_le (u : list point) :
  v <= weight B g n -> total B (<[n := v]> g) u <= total B g u.
Proof.
  intros Hv. induction u as [|c u IH]; [reflexivity|].
  unfold total in *. cbn [map fold_right].
  destruct (decide (c = n)) as [->|Hne].
  - rewrite weight_insert_eq. lia.
  - rewrite weight_insert_ne by assumption. lia.
Qed.

Lemma total_insert_lt (u : list point) :
  v < weight B g n -> In n u -> total B (<[n := v]> g) u < total B g u.
Proof.
  intros Hv. induction u as [|c u IH]; intros Hin; [destruct Hin|].
  pose proof (total_insert_le u ltac:(lia)) as Hle.
  unfold total in *. cbn [map fold_right].
  destruct (decide (c = n)) as [->|Hne].
  - rewrite weight_insert_eq. lia.
  - rewrite weight_insert_ne by assumption.
    destruct Hin as [Heq|Hin]; [congruence|]. specialize (IH Hin). lia.
Qed.

Lemma unseen_insert_le (u : list point) :
  unseen (<[n := v]> g) u <= unseen g u.
Proof.
  induction u as [|c u IH]; [reflexivity|].
  unfold unseen in *. cbn [map fold_right].
  destruct (decide (c = n)) as [->|Hne].
  - rewrite lookup_insert_eq. destruct (g !! n); lia.
  - rewrite lookup_insert_ne by congruence. lia.
Qed.

Lemma unseen_insert_new (u : list point) :
  g !! n = None -> In n u -> unseen (<[n := v]> g) u + 1 <= unseen g u.
Proof.
  intros Hnone. induction u as [|c u IH]; intros Hin; [destruct Hin|].
  pose proof (unseen_insert_le u) as Hle.
  unfold unseen in *. cbn [map fold_right].
  destruct (decide (c = n)) as [->|Hne].
  - rewrite lookup_insert_eq, Hnone. lia.
  - rewrite lookup_insert_ne by congruence.
    destruct Hin as [Heq|Hin]; [congruence|]. specialize (IH Hin). lia.
Qed.
End Measure.

Lemma unseen_nonneg (g : gmap point Z) (u : list point) : 0 <= unseen g u.
Proof.
  induction u as [|c u IH]; [reflexivity|].
  unfold unseen in *. cbn [map fold_right]. destruct (g !! c); lia.
Qed.

Lemma total_bounds (B : Z) (g : gmap point Z) (u : list point) :
  0 <= B -> (forall c gc, g !! c = Some gc -> 0 <= gc <= B) ->
  0 <= total B g u <= B * len u.
Proof.
  intros HB Hg. induction u as [|c u IH]; [unfold total, len; cbn; lia|].
  unfold total, len in *. cbn [map fold_right length].
  assert (0 <= weight B g c <= B).
  { unfold weight. destruct (g !! c) as [gc|] eqn:E; cbn; [apply (Hg c gc E)|lia]. }
  lia.
Qed.

(* ------------------------------------------------------------------ *)
(** *** [get_neighbors], the frontier, the cells of the grid *)

Lemma neighbors_loop_spec (m : ndarray) (x y : Z) (dirs : list (Z * Z)) :
  forall acc,
    neighbors_loop (PathFinder_init m) x y dirs acc
    = Ret (acc ++ List.filter (free_at m)
                              (map (fun d => (x + fst d, y + snd d)) dirs)).
Proof.
  induction dirs as [|[dx dy] dirs IH]; intros acc.
  - cbn. rewrite app_nil_r. reflexivity.
  - cbn [neighbors_loop map fst snd List.filter].
    cbn [PathFinder_init width height obstacle_map].
    unfold free_at at 1.
    destruct (inside m (x + dx, y + dy)) eqn:Hin.
    + pose proof Hin as Hin'. unfold inside in Hin'. cbn [fst snd] in Hin'.
      rewrite Hin'.
      pose proof (getitem_inside m (x + dx, y + dy) Hin) as G. cbn [fst snd] in G.
      rewrite G. cbn [bind andb]. unfold FREE. rewrite IH.
      destruct (cell m (x + dx, y + dy) =? 0).
      * rewrite <- app_assoc. reflexivity.
      * reflexivity.
    + unfold inside in Hin. cbn [fst snd] in Hin. rewrite Hin. cbn [bind andb].
      rewrite IH. reflexivity.
Qed.

(** [get_neighbors] returns exactly the cells one step away. *)
Lemma get_neighbors_spec (m : ndarray) (c : point) :
  exists l, get_neighbors (PathFinder_init m) c = Ret l /\
            forall n, In n l <-> step m c n.
Proof.
  destruct c as [x y]. unfold get_neighbors. rewrite neighbors_loop_spec.
  eexists. split; [reflexivity|]. intros n. cbn [app].
  rewrite filter_In, in_map_iff.
  unfold step, free_at, FREE. cbn [fst snd]. split.
  - intros ((d & <- & Hd) & Hf). split; [exists d; auto|]. lia.
  - intros ((d & Hd & ->) & Hin & Hc). split; [exists d; auto|lia].
Qed.

Lemma step_not_self (m : ndarray) (c n : point) : step m c n -> n <> c.
Proof.
  intros ((d & Hd & ->) & _) Heq. destruct c as [x y]. cbn [fst snd] in Heq.
  injection Heq as Hx Hy.
  unfold directions in Hd. cbn [In] in Hd.
  repeat (destruct Hd as [<-|Hd]; [cbn [fst snd] in *; lia|]). destruct Hd.
Qed.

Lemma step_move_cost (m : ndarray) (c n : point) :
  step m c n -> move_cost c n = 10 \/ move_cost c n = 14.
Proof. intros _. unfold move_cost. destruct (_ =? 2); auto. Qed.

Lemma in_all_cells (m : ndarray) (p : point) :
  inside m p = true -> In p (all_cells m).
Proof.
  intros H. unfold inside in H. destruct p as [x y]. cbn [fst snd] in H.
  unfold all_cells. apply in_flat_map. exists (Z.to_nat y). split.
  - apply in_seq. lia.
  - apply in_map_iff. exists (Z.to_nat x). split.
    + f_equal; lia.
    + apply in_seq. lia.
Qed.

Lemma length_all_cells (m : ndarray) :
  length (all_cells m) = (shape0 m * shape1 m)%nat.
Proof.
  unfold all_cells. generalize 0%nat at 2. induction (shape0 m) as [|k IH]; intros s.
  - reflexivity.
  - cbn [seq flat_map]. rewrite length_app, length_map, length_seq, IH. lia.
Qed.

Lemma entry_eqb_eq (a b : entry) : entry_eqb a b = true <-> a = b.
Proof.
  destruct a as [fa pa], b as [fb pb]. unfold entry_eqb. cbn [fst snd].
  rewrite andb_true_iff, point_eqb_eq, Z.eqb_eq. split.
  - intros [-> ->]. reflexivity.
  - intros [= -> ->]. auto.
Qed.

Lemma heap_min_in (h : list entry) : forall e,
  heap_min e h = e \/ In (heap_min e h) h.
Proof.
  induction h as [|e' h IH]; intros e; [left; reflexivity|].
  cbn [heap_min]. destruct (IH (if entry_ltb e' e then e' else e)) as [H|H].
  - rewrite H. destruct (entry_ltb e' e); [right; left; reflexivity|left; reflexivity].
  - right. right. exact H.
Qed.

Lemma remove_one_spec (e : entry) (h : list entry) :
  In e h ->
  Permutation h (e :: remove_one e h).
Proof.
  induction h as [|e' h IH]; intros Hin; [destruct Hin|].
  cbn [remove_one]. destruct (entry_eqb e e') eqn:E.
  - apply entry_eqb_eq in E. subst e'. reflexivity.
  - destruct Hin as [Heq|Hin].
    + subst e'. rewrite (proj2 (entry_eqb_eq e e) eq_refl) in E. discriminate.
    + rewrite (IH Hin) at 1. apply perm_swap.
Qed.

(** [heappop] on a frontier that is not empty takes one of its tuples out. *)
Lemma heappop_spec (h : list entry) :
  h <> [] ->
  exists e rest, heappop h = Ret (e, rest) /\ Permutation h (e :: rest).
Proof.
  destruct h as [|e0 h]; [congruence|]. intros _. unfold heappop.
  eexists _, _. split; [reflexivity|].
  apply remove_one_spec.
  destruct (heap_min_in h e0) as [->|H]; [left; reflexivity|right; exact H].
Qed.

(* ------------------------------------------------------------------ *)
(** *** One relaxation *)

Lemma unseen_le_len (g : gmap point Z) (u : list point) : unseen g u <= len u.
Proof.
  induction u as [|c u IH]; [reflexivity|].
  unfold unseen, len in *. cbn [map fold_right length]. destruct (g !! c); lia.
Qed.

Lemma relax_cons (goal current n : point) (rest : list point) (st : search)
    (gcur : Z) :
  g_score st !! current = Some gcur ->
  relax goal current (n :: rest) st
  = if match g_score st !! n with
       | None => true
       | Some gn => gcur + move_cost current n <? gn
       end
    then relax goal current rest
           (improved goal current n (gcur + move_cost current n) st)
    else relax goal current rest st.
Proof.
  intros Hcur. cbn [relax]. unfold dict_get. rewrite Hcur. cbn [bind].
  destruct (g_score st !! n) as [gn|] eqn:En; cbn [bind].
  - destruct (_ <? gn); [|reflexivity].
    rewrite lookup_insert_eq. cbn [bind].
    rewrite lookup_insert_eq. cbn [bind]. reflexivity.
  - rewrite lookup_insert_eq. cbn [bind].
    rewrite lookup_insert_eq. cbn [bind]. reflexivity.
Qed.

Section Improve.
Variable m : ndarray.
Variables start goal current n : point.
Variable st : search.
Variables gcur t : Z.
Hypothesis Hinv : search_inv m start st.
Hypothesis Hcur : g_score st !! current = Some gcur.
Hypothesis Hne : n <> current.
Hypothesis Hin : In n (universe m start).
Hypothesis Hfree : free_at m n = true.
Hypothesis Ht : gcur + 10 <= t <= gcur + 14.
Hypothesis Hbetter :
  g_score st !! n = None \/ exists gn, g_score st !! n = Some gn /\ t < gn.

Local Abbreviation st' := (improved goal current n t st).

Lemma improved_bound_cur : 0 <= gcur <= 14 * len (universe m start).
Proof.
  destruct (inv_bound _ _ _ Hinv _ _ Hcur) as (H0 & Hb & _).
  pose proof (unseen_nonneg (g_score st) (universe m start)). lia.
Qed.

Lemma improved_inv : search_inv m start st'.
Proof.
  pose proof improved_bound_cur as Hbc.
  constructor; unfold improved, heappush; cbn [open_set came_from g_score f_score].
  - intros e [<-|He]; cbn [snd].
    + rewrite lookup_insert_eq. eauto.
    + destruct (inv_open_known _ _ _ Hinv e He) as [x Hx].
      destruct (decide (snd e = n)) as [->|Hd].
      * rewrite lookup_insert_eq. eauto.
      * rewrite lookup_insert_ne by congruence. eauto.
  - intros e [<-|He]; cbn [snd].
    + right. rewrite lookup_insert_eq. eauto.
    + destruct (inv_open_linked _ _ _ Hinv e He) as [Hs|[x Hx]]; [left; exact Hs|].
      right. destruct (decide (snd e = n)) as [->|Hd].
      * rewrite lookup_insert_eq. eauto.
      * rewrite lookup_insert_ne by congruence. eauto.
  - destruct (inv_start _ _ _ Hinv) as [x Hx].
    destruct (decide (start = n)) as [->|Hd].
    + rewrite lookup_insert_eq. eauto.
    + rewrite lookup_insert_ne by congruence. eauto.
  - intros c gc Hc.
    pose proof (unseen_insert_le (g_score st) n t (universe m start)) as Hle.
    destruct (decide (c = n)) as [->|Hd].
    + rewrite lookup_insert_eq in Hc. injection Hc as <-.
      split; [lia|]. split; [|exact Hin].
      destruct Hbetter as [Hnone|(gn & Hgn & Hlt)].
      * pose proof (unseen_insert_new (g_score st) n t (universe m start) Hnone Hin).
        destruct (inv_bound _ _ _ Hinv _ _ Hcur) as (_ & Hb & _). lia.
      * destruct (inv_bound _ _ _ Hinv _ _ Hgn) as (_ & Hb & _). lia.
    + rewrite lookup_insert_ne in Hc by congruence.
      destruct (inv_bound _ _ _ Hinv _ _ Hc) as (H0 & Hb & HU).
      split; [lia|]. split; [lia|exact HU].
  - intros c p Hc.
    destruct (decide (c = n)) as [->|Hd].
    + rewrite lookup_insert_eq in Hc. injection Hc as <-.
      exists t, gcur. rewrite lookup_insert_eq.
      rewrite lookup_insert_ne by congruence. split; [reflexivity|]. split; [exact Hcur|lia].
    + rewrite lookup_insert_ne in Hc by congruence.
      destruct (inv_parent _ _ _ Hinv _ _ Hc) as (gc & gp & Hgc & Hgp & Hlt).
      rewrite lookup_insert_ne by congruence.
      destruct (decide (p = n)) as [->|Hp].
      * rewrite lookup_insert_eq. exists gc, t. split; [exact Hgc|]. split; [reflexivity|].
        destruct Hbetter as [Hnone|(gn & Hgn & Hlt')]; [congruence|].
        assert (gn = gp) by congruence. lia.
      * rewrite lookup_insert_ne by congruence. exists gc, gp. auto.
  - intros c p Hc.
    destruct (decide (c = n)) as [->|Hd]; [exact Hfree|].
    rewrite lookup_insert_ne in Hc by congruence.
    apply (inv_linked_free _ _ _ Hinv c p Hc).
Qed.

Lemma improved_grows : grows m start st st'.
Proof.
  pose proof improved_bound_cur as Hbc.
  constructor; unfold improved, heappush; cbn [open_set came_from g_score f_score].
  - intros c [x Hx]. destruct (decide (c = n)) as [->|Hd].
    + rewrite lookup_insert_eq. eauto.
    + rewrite lookup_insert_ne by congruence. eauto.
  - intros e He. right. exact He.
  - intros c Hnone [x Hx]. destruct (decide (c = n)) as [->|Hd].
    + eexists. left. reflexivity.
    + rewrite lookup_insert_ne in Hx by congruence. congruence.
  - unfold potential. cbn [open_set g_score].
    assert (Hw : t < weight (cap m start) (g_score st) n).
    { unfold weight, cap. destruct Hbetter as [Hnone|(gn & Hgn & Hlt)].
      - rewrite Hnone. cbn. lia.
      - rewrite Hgn. cbn. lia. }
    pose proof (total_insert_lt (cap m start) (g_score st) n t (universe m start) Hw Hin).
    unfold heappush, len in *. cbn [length]. lia.
Qed.

Lemma improved_known : g_score st' !! n = Some t /\ g_score st' !! current = Some gcur.
Proof.
  cbn [improved g_score]. rewrite lookup_insert_eq.
  rewrite lookup_insert_ne by congruence. auto.
Qed.
End Improve.

Lemma grows_refl (m : ndarray) (start : point) (st : search) : grows m start st st.
Proof.
  constructor; auto.
  - intros c Hnone [x Hx]. congruence.
  - lia.
Qed.

Lemma grows_trans (m : ndarray) (start : point) (a b c : search) :
  grows m start a b -> grows m start b c -> grows m start a c.
Proof.
  intros Hab Hbc. constructor.
  - intros x Hx. apply (grows_known _ _ _ _ Hbc), (grows_known _ _ _ _ Hab), Hx.
  - intros e He. apply (grows_open _ _ _ _ Hbc), (grows_open _ _ _ _ Hab), He.
  - intros x Hnone Hsome.
    destruct (g_score b !! x) as [gb|] eqn:Eb.
    + destruct (grows_new _ _ _ _ Hab x Hnone ltac:(eauto)) as [f Hf].
      exists f. apply (grows_open _ _ _ _ Hbc), Hf.
    + apply (grows_new _ _ _ _ Hbc x Eb Hsome).
  - pose proof (grows_potential _ _ _ _ Hab). pose proof (grows_potential _ _ _ _ Hbc). lia.
Qed.

(** The loop over the neighbours returns, keeps the invariant, gives every
    neighbour a score and does not raise the measure. *)
Lemma relax_spec (m : ndarray) (start goal current : point)
    (neighbors : list point) : forall (st : search) (gcur : Z),
  search_inv m start st ->
  g_score st !! current = Some gcur ->
  (forall n, In n neighbors -> step m current n) ->
  exists st',
    relax goal current neighbors st = Ret st' /\
    search_inv m start st' /\ grows m start st st' /\
    (forall n, In n neighbors -> is_Some (g_score st' !! n)) /\
    g_score st' !! current = Some gcur.
Proof.
  induction neighbors as [|n rest IH]; intros st gcur Hinv Hcur Hsteps.
  - exists st. split; [reflexivity|]. split; [exact Hinv|].
    split; [apply grows_refl|]. split; [intros n []|exact Hcur].
  - rewrite (relax_cons goal current n rest st gcur Hcur).
    assert (Hstep : step m current n) by (apply Hsteps; left; reflexivity).
    assert (Hne : n <> current) by (eapply step_not_self; exact Hstep).
    assert (HinU : In n (universe m start)).
    { right. apply in_all_cells. apply Hstep. }
    assert (Hfree : free_at m n = true).
    { destruct Hstep as (_ & Hi & Hc). unfold free_at. rewrite Hi, Hc. reflexivity. }
    assert (Hcost : gcur + 10 <= gcur + move_cost current n <= gcur + 14).
    { destruct (step_move_cost m current n Hstep) as [-> | ->]; lia. }
    assert (Hrest : forall n', In n' rest -> step m current n')
      by (intros n' Hn'; apply Hsteps; right; exact Hn').
    destruct (g_score st !! n) as [gn|] eqn:En.
    + destruct (gcur + move_cost current n <? gn) eqn:Elt.
      * assert (Hb : g_score st !! n = None \/
                     exists gn', g_score st !! n = Some gn' /\ gcur + move_cost current n < gn')
          by (right; exists gn; split; [exact En|lia]).
        assert (Hinv' : search_inv m start (improved goal current n (gcur + move_cost current n) st))
          by (eapply improved_inv; eassumption).
        assert (Hg : grows m start st (improved goal current n (gcur + move_cost current n) st))
          by (eapply improved_grows; eassumption).
        destruct (improved_known goal current n st gcur (gcur + move_cost current n) Hcur Hne) as [Hkn Hkc].
        destruct (IH _ gcur Hinv' Hkc Hrest) as (st' & Hrun & Hinv'' & Hg' & Hall & Hc').
        exists st'. split; [exact Hrun|]. split; [exact Hinv''|].
        split; [eapply grows_trans; eassumption|]. split; [|exact Hc'].
        intros n' [<-|Hn']; [|apply Hall, Hn'].
        apply (grows_known _ _ _ _ Hg'). eauto.
      * destruct (IH st gcur Hinv Hcur Hrest) as (st' & Hrun & Hinv'' & Hg' & Hall & Hc').
        exists st'. split; [exact Hrun|]. split; [exact Hinv''|].
        split; [exact Hg'|]. split; [|exact Hc'].
        intros n' [<-|Hn']; [|apply Hall, Hn'].
        apply (grows_known _ _ _ _ Hg'). eauto.
    + assert (Hb : g_score st !! n = None \/
                   exists gn', g_score st !! n = Some gn' /\ gcur + move_cost current n < gn')
        by (left; exact En).
      assert (Hinv' : search_inv m start (improved goal current n (gcur + move_cost current n) st))
          by (eapply improved_inv; eassumption).
      assert (Hg : grows m start st (improved goal current n (gcur + move_cost current n) st))
          by (eapply improved_grows; eassumption).
      destruct (improved_known goal current n st gcur (gcur + move_cost current n) Hcur Hne) as [Hkn Hkc].
      destruct (IH _ gcur Hinv' Hkc Hrest) as (st' & Hrun & Hinv'' & Hg' & Hall & Hc').
      exists st'. split; [exact Hrun|]. split; [exact Hinv''|].
      split; [eapply grows_trans; eassumption|]. split; [|exact Hc'].
      intros n' [<-|Hn']; [|apply Hall, Hn'].
      apply (grows_known _ _ _ _ Hg'). eauto.
Qed.

(* ------------------------------------------------------------------ *)
(** *** The loop of [a_star] *)

Lemma search_inv_score_range (m : ndarray) (start : point) (st : search) :
  search_inv m start st ->
  forall c gc, g_score st !! c = Some gc -> 0 <= gc <= cap m start.
Proof.
  intros Hinv c gc Hc. destruct (inv_bound _ _ _ Hinv c gc Hc) as (H0 & Hb & _).
  pose proof (unseen_nonneg (g_score st) (universe m start)). unfold cap. lia.
Qed.

Lemma potential_nonneg (m : ndarray) (start : point) (st : search) :
  search_inv m start st -> 0 <= potential m start st.
Proof.
  intros Hinv. unfold potential.
  assert (0 <= cap m start) by (unfold cap, len; lia).
  pose proof (total_bounds (cap m start) (g_score st) (universe m start) H
                (search_inv_score_range m start st Hinv)).
  unfold len in *. lia.
Qed.

(** Walking back along [came_from] ends: the score goes down by a whole
    step at every link. *)
Lemma reconstruct_spec (m : ndarray) (start : point) (st : search) :
  search_inv m start st ->
  forall fuel cur gc path,
    g_score st !! cur = Some gc -> gc < 10 * Z.of_nat fuel ->
    exists chain,
      reconstruct fuel (came_from st) cur path = Ret (path ++ chain) /\
      match came_from st !! cur with
      | None => chain = []
      | Some _ => exists rest, chain = cur :: rest
      end.
Proof.
  intros Hinv. induction fuel as [|fuel IH]; intros cur gc path Hgc Hfuel.
  - destruct (inv_bound _ _ _ Hinv cur gc Hgc) as (H0 & _). lia.
  - cbn [reconstruct]. destruct (came_from st !! cur) as [p|] eqn:Ep.
    + unfold dict_get. rewrite Ep. cbn [bind].
      destruct (inv_parent _ _ _ Hinv cur p Ep) as (gc' & gp & Hgc' & Hgp & Hlt).
      assert (gc' = gc) by congruence. subst gc'.
      destruct (IH p gp (path ++ [cur]) Hgp ltac:(lia)) as (chain & Hrun & _).
      exists (cur :: chain). split; [|eauto].
      rewrite Hrun. rewrite <- app_assoc. reflexivity.
    + exists []. rewrite app_nil_r. auto.
Qed.

Lemma closed_reachable (m : ndarray) (start goal : point) (st : search) :
  search_inv m start st -> closed_inv m goal st -> open_set st = [] ->
  forall c, reachable m start c -> is_Some (g_score st !! c) /\ c <> goal.
Proof.
  intros Hinv Hclosed Hopen c Hreach.
  assert (Hall : forall x, is_Some (g_score st !! x) ->
            x <> goal /\ forall n, step m x n -> is_Some (g_score st !! n)).
  { intros x Hx. destruct (Hclosed x Hx) as [[f Hf]|H]; [|exact H].
    rewrite Hopen in Hf. destruct Hf. }
  induction Hreach as [|c n _ IH Hstep].
  - pose proof (inv_start _ _ _ Hinv) as Hs. split; [exact Hs|apply (Hall start Hs)].
  - destruct IH as [Hc _]. destruct (Hall c Hc) as [_ Hnext].
    pose proof (Hnext n Hstep) as Hn. split; [exact Hn|apply (Hall n Hn)].
Qed.

Lemma search_fuel_init (m : ndarray) (start : point) :
  Z.of_nat (search_fuel (PathFinder_init m))
  = 2 + 2 * len (universe m start) * cap m start.
Proof.
  unfold search_fuel, cap, universe, len. cbn [PathFinder_init width height length].
  rewrite length_all_cells. lia.
Qed.

Lemma search_loop_spec (m : ndarray) (start goal : point) (fuel : nat) :
  forall st,
    search_inv m start st -> closed_inv m goal st ->
    potential m start st < Z.of_nat fuel ->
    exists p,
      search_loop (PathFinder_init m) start goal fuel st = Ret p /\
      ((p = [] /\ ~ reachable m start goal) \/
       (hd_error p = Some start /\ forall d, List.last p d = goal)).
Proof.
  induction fuel as [|fuel IH]; intros st Hinv Hclosed Hpot.
  - pose proof (potential_nonneg m start st Hinv). lia.
  - cbn [search_loop]. destruct (open_set st) as [|e0 h0] eqn:Eopen.
    + exists []. split; [reflexivity|]. left. split; [reflexivity|].
      intros Hreach.
      destruct (closed_reachable m start goal st Hinv Hclosed Eopen goal Hreach) as [_ Hne].
      congruence.
    + destruct (heappop_spec (e0 :: h0) ltac:(discriminate)) as (e & rest & Hpop & Hperm).
      rewrite Hpop. cbn [bind fst snd]. rewrite <- Eopen in Hperm.
      set (st0 := {| open_set := rest; came_from := came_from st;
                     g_score := g_score st; f_score := f_score st |}).
      assert (Hsub : forall x, In x rest -> In x (open_set st)).
      { intros x Hx. eapply Permutation_in; [symmetry; exact Hperm|right; exact Hx]. }
      assert (He : In e (open_set st)).
      { eapply Permutation_in; [symmetry; exact Hperm|left; reflexivity]. }
      assert (Hinv0 : search_inv m start st0).
      { constructor; cbn [st0 open_set came_from g_score f_score].
        - intros x Hx. apply (inv_open_known _ _ _ Hinv), Hsub, Hx.
        - intros x Hx. apply (inv_open_linked _ _ _ Hinv), Hsub, Hx.
        - apply (inv_start _ _ _ Hinv).
        - apply (inv_bound _ _ _ Hinv).
        - apply (inv_parent _ _ _ Hinv).
        - apply (inv_linked_free _ _ _ Hinv). }
      assert (Hpot0 : potential m start st0 = potential m start st - 1).
      { unfold potential. cbn [st0 open_set g_score].
        pose proof (Permutation_length Hperm) as Hl. unfold len. cbn [length] in *. lia. }
      destruct (inv_open_known _ _ _ Hinv e He) as [gcur Hgcur].
      destruct (point_eqb (snd e) goal) eqn:Egoal.
      * apply point_eqb_eq in Egoal.
        assert (Hfuel : gcur < 10 * Z.of_nat (search_fuel (PathFinder_init m))).
        { rewrite (search_fuel_init m start).
          destruct (search_inv_score_range m start st Hinv _ _ Hgcur) as [_ Hle].
          assert (1 <= len (universe m start)) by (unfold universe, len; cbn [length]; lia).
          assert (0 <= cap m start) by (unfold cap; lia).
          nia. }
        destruct (reconstruct_spec m start st Hinv _ (snd e) gcur [] Hgcur Hfuel)
          as (chain & Hrun & Hchain).
        cbn [st0 came_from]. rewrite Hrun. cbn [bind app].
        eexists. split; [reflexivity|]. right.
        rewrite rev_app_distr. cbn [rev app]. split; [reflexivity|]. intros d.
        destruct (came_from st !! snd e) as [p|] eqn:Ep.
        -- destruct Hchain as [rest' ->]. cbn [rev].
           change (start :: rev rest' ++ [snd e]) with ((start :: rev rest') ++ [snd e]).
           rewrite last_snoc. exact Egoal.
        -- subst chain. cbn [rev List.last].
           destruct (inv_open_linked _ _ _ Hinv e He) as [Hs|[x Hx]]; congruence.
      * assert (Hnotgoal : snd e <> goal).
        { intros Heq. apply point_eqb_eq in Heq. congruence. }
        destruct (get_neighbors_spec m (snd e)) as (l & Hl & Hsteps).
        rewrite Hl. cbn [bind].
        destruct (relax_spec m start goal (snd e) l st0 gcur Hinv0 Hgcur
                    (fun n Hn => proj1 (Hsteps n) Hn))
          as (st' & Hrun & Hinv' & Hg & Hall & _).
        fold st0. rewrite Hrun. cbn [bind].
        apply IH; [exact Hinv'| |pose proof (grows_potential _ _ _ _ Hg); lia].
        intros c Hc.
        destruct (g_score st !! c) as [gc|] eqn:Ec.
        -- assert (Hk : is_Some (g_score st !! c)) by (exists gc; exact Ec).
           destruct (Hclosed c Hk) as [[f Hf]|[Hne Hnext]].
           ++ assert (Hcase : (f, c) = e \/ In (f, c) rest).
              { apply (Permutation_in _ Hperm) in Hf. destruct Hf; auto. }
              destruct Hcase as [<-|Hrest].
              ** right. split; [exact Hnotgoal|].
                 intros n Hn. apply Hall, Hsteps, Hn.
              ** left. exists f. apply (grows_open _ _ _ _ Hg). exact Hrest.
           ++ right. split; [exact Hne|]. intros n Hn.
              apply (grows_known _ _ _ _ Hg). cbn [st0 g_score]. apply Hnext, Hn.
        -- left. apply (grows_new _ _ _ _ Hg c); [exact Ec|exact Hc].
Qed.

Lemma a_star_initial (m : ndarray) (start goal : point) :
  let st := initial_state start goal in
  search_inv m start st /\ closed_inv m goal st /\
  potential m start st < Z.of_nat (search_fuel (PathFinder_init m)).
Proof.
  cbv zeta. unfold initial_state, heappush.
  assert (Hlook : forall c gc, ({[ start := 0 ]} : gmap point Z) !! c = Some gc ->
                               c = start /\ gc = 0).
  { intros c gc H. apply lookup_singleton_Some in H. destruct H; auto. }
  assert (Hinv : search_inv m start
            {| open_set := [(0, start)]; came_from := ∅; g_score := {[ start := 0 ]};
               f_score := {[ start := of_int (heuristic start goal) ]} |}).
  { constructor; cbn [open_set came_from g_score f_score].
    - intros e [<-|[]]. cbn [snd]. rewrite lookup_singleton_eq. eauto.
    - intros e [<-|[]]. left. reflexivity.
    - rewrite lookup_singleton_eq. eauto.
    - intros c gc H. destruct (Hlook c gc H) as [-> ->].
      pose proof (unseen_le_len {[ start := 0 ]} (universe m start)).
      split; [lia|]. split; [lia|left; reflexivity].
    - intros c p H. rewrite lookup_empty in H. discriminate.
    - intros c p H. rewrite lookup_empty in H. discriminate. }
  split; [exact Hinv|]. split.
  - intros c [gc Hc]. cbn [g_score] in Hc. destruct (Hlook c gc Hc) as [-> ->].
    left. exists 0. left. reflexivity.
  - rewrite (search_fuel_init m start). unfold potential. cbn [open_set g_score].
    assert (0 <= cap m start) by (unfold cap, len; lia).
    pose proof (total_bounds (cap m start) {[ start := 0 ]} (universe m start) H
                  (search_inv_score_range m start _ Hinv)) as Hb.
    cbn [g_score] in Hb. change (len [(0, start)]) with 1.
    eapply Z.le_lt_trans;
      [apply Z.add_le_mono_l, Z.mul_le_mono_nonneg_l; [lia|exact (proj2 Hb)]|].
    lia.
Qed.

(** [a_star] returns: the empty list when the goal cannot be reached, and
    otherwise a path from [start] to [goal]. *)
Lemma a_star_spec (m : ndarray) (start goal : point) :
  exists p,
    a_star (PathFinder_init m) start goal = Ret p /\
    ((p = [] /\ ~ reachable m start goal) \/
     (hd_error p = Some start /\ forall d, List.last p d = goal)).
Proof.
  destruct (a_star_initial m start goal) as (Hinv & Hclosed & Hpot).
  apply (search_loop_spec m start goal _ _ Hinv Hclosed Hpot).
Qed.

Lemma search_inv_popped (m : ndarray) (start : point) (st : search)
    (rest : list entry) :
  search_inv m start st ->
  (forall x, In x rest -> In x (open_set st)) ->
  search_inv m start
    {| open_set := rest; came_from := came_from st;
       g_score := g_score st; f_score := f_score st |}.
Proof.
  intros Hinv Hsub. constructor; cbn [open_set came_from g_score f_score].
  - intros x Hx. apply (inv_open_known _ _ _ Hinv), Hsub, Hx.
  - intros x Hx. apply (inv_open_linked _ _ _ Hinv), Hsub, Hx.
  - apply (inv_start _ _ _ Hinv).
  - apply (inv_bound _ _ _ Hinv).
  - apply (inv_parent _ _ _ Hinv).
  - apply (inv_linked_free _ _ _ Hinv).
Qed.

(** The walk back goes through keys of [came_from] only. *)
Lemma reconstruct_keys (cf : gmap point point) (fuel : nat) :
  forall cur path out,
    reconstruct fuel cf cur path = Ret out ->
    exists chain, out = path ++ chain /\ forall x, In x chain -> is_Some (cf !! x).
Proof.
  induction fuel as [|fuel IH]; intros cur path out Hrun; [discriminate|].
  cbn [reconstruct] in Hrun. destruct (cf !! cur) as [p|] eqn:Ep.
  - unfold dict_get in Hrun. rewrite Ep in Hrun. cbn [bind] in Hrun.
    destruct (IH p (path ++ [cur]) out Hrun) as (chain & -> & Hkeys).
    exists (cur :: chain). split; [rewrite <- app_assoc; reflexivity|].
    intros x [<-|Hx]; [exists p; exact Ep|apply Hkeys, Hx].
  - injection Hrun as <-. exists []. split; [rewrite app_nil_r; reflexivity|].
    intros x [].
Qed.

(** Every point of the path of [a_star] after the first is a FREE cell of
    the grid. *)
Lemma search_loop_free (m : ndarray) (start goal : point) (fuel : nat) :
  forall st p,
    search_inv m start st ->
    search_loop (PathFinder_init m) start goal fuel st = Ret p ->
    forall c, In c (tl p) -> free_at m c = true.
Proof.
  induction fuel as [|fuel IH]; intros st p Hinv Hrun c Hc; [discriminate|].
  cbn [search_loop] in Hrun. destruct (open_set st) as [|e0 h0] eqn:Eopen.
  - injection Hrun as <-. destruct Hc.
  - destruct (heappop_spec (e0 :: h0) ltac:(discriminate)) as (e & rest & Hpop & Hperm).
    rewrite Hpop in Hrun. cbn [bind fst snd] in Hrun. rewrite <- Eopen in Hperm.
    assert (Hsub : forall x, In x rest -> In x (open_set st)).
    { intros x Hx. eapply Permutation_in; [symmetry; exact Hperm|right; exact Hx]. }
    assert (He : In e (open_set st)).
    { eapply Permutation_in; [symmetry; exact Hperm|left; reflexivity]. }
    pose proof (search_inv_popped m start st rest Hinv Hsub) as Hinv0.
    destruct (point_eqb (snd e) goal).
    + cbn [came_from] in Hrun.
      destruct (reconstruct _ (came_from st) (snd e) []) as [path| |] eqn:Erec;
        cbn [bind] in Hrun; try discriminate.
      injection Hrun as <-.
      destruct (reconstruct_keys _ _ _ _ _ Erec) as (chain & -> & Hkeys).
      cbn [app] in Hc. rewrite rev_app_distr in Hc. cbn [rev app tl] in Hc.
      apply in_rev in Hc. destruct (Hkeys c Hc) as [q Hq].
      apply (inv_linked_free _ _ _ Hinv c q Hq).
    + destruct (get_neighbors_spec m (snd e)) as (l & Hl & Hsteps).
      rewrite Hl in Hrun. cbn [bind] in Hrun.
      destruct (inv_open_known _ _ _ Hinv e He) as [gcur Hgcur].
      destruct (relax_spec m start goal (snd e) l _ gcur Hinv0 Hgcur
                  (fun n Hn => proj1 (Hsteps n) Hn))
        as (st' & Hrelax & Hinv' & _).
      rewrite Hrelax in Hrun. cbn [bind] in Hrun.
      apply (IH st' p Hinv' Hrun c Hc).
Qed.

Lemma a_star_free (m : ndarray) (start goal : point) (p : list point) :
  a_star (PathFinder_init m) start goal = Ret p ->
  forall c, In c (tl p) -> free_at m c = true.
Proof.
  intros Hrun. destruct (a_star_initial m start goal) as (Hinv & _).
  apply (search_loop_free m start goal _ _ p Hinv Hrun).
Qed.

(* ------------------------------------------------------------------ *)
(** *** The elbow routes *)

Lemma leg_spec (m : ndarray) (cells : list point) : forall path,
  leg (PathFinder_init m) cells path
  = Ret (if forallb (passable m) cells then Some (path ++ cells) else None).
Proof.
  induction cells as [|[x y] cells IH]; intros path.
  - cbn. rewrite app_nil_r. reflexivity.
  - cbn [leg forallb]. rewrite blocked_init. cbn [bind].
    destruct (passable m (x, y)); cbn [negb andb]; [|reflexivity].
    rewrite IH. rewrite <- app_assoc. reflexivity.
Qed.

Lemma py_range_unit (a n d : Z) :
  (d = 1 \/ d = -1) -> 0 <= n ->
  py_range a (a + d * n) d = map (fun k => a + d * Z.of_nat k) (seq 0 (Z.to_nat n)).
Proof.
  intros [-> | ->] Hn; unfold py_range; cbn [Z.ltb Z.compare Z.opp].
  - replace ((a + 1 * n - a + 1 - 1) / 1) with n by (rewrite Z.div_1_r; lia).
    reflexivity.
  - change (- (-1)) with 1.
    replace ((a - (a + -1 * n) - -1 - 1) / 1) with n by (rewrite Z.div_1_r; lia).
    reflexivity.
Qed.

Lemma toward_unit (a b : Z) : toward a b = 1 \/ toward a b = -1.
Proof. unfold toward. destruct (b >? a); auto. Qed.

Lemma toward_reach (a b : Z) : a + toward a b * Z.abs (b - a) = b.
Proof. unfold toward. destruct (b >? a) eqn:E; lia. Qed.

(** The first leg of a route walks the whole span. *)
Lemma py_range_span (a b : Z) :
  a <> b -> py_range a (b + toward a b) (toward a b) = span a b.
Proof.
  intros Hne. unfold span.
  replace (S (Z.to_nat (Z.abs (b - a)))) with (Z.to_nat (Z.abs (b - a) + 1)) by lia.
  rewrite <- (py_range_unit a (Z.abs (b - a) + 1) (toward a b) (toward_unit a b)) by lia.
  f_equal. pose proof (toward_reach a b). lia.
Qed.

(** The second leg walks the span but for its first cell. *)
Lemma py_range_span_tl (a b : Z) :
  py_range (a + toward a b) (b + toward a b) (toward a b) = tl (span a b).
Proof.
  unfold span. cbn [seq map tl]. rewrite <- seq_shift, map_map.
  replace (b + toward a b) with (a + toward a b + toward a b * Z.abs (b - a))
    by (pose proof (toward_reach a b); lia).
  rewrite (py_range_unit (a + toward a b) (Z.abs (b - a)) (toward a b) (toward_unit a b))
    by lia.
  apply map_ext. intros k. lia.
Qed.

Lemma span_same (a : Z) : span a a = [a].
Proof. unfold span. rewrite Z.sub_diag. cbn. f_equal. lia. Qed.

Lemma span_hd (a b : Z) : exists l, span a b = a :: l.
Proof. unfold span. cbn [seq map]. eexists. f_equal. lia. Qed.

Lemma length_span (a b : Z) : len (span a b) = Z.abs (b - a) + 1.
Proof. unfold span, len. rewrite length_map, length_seq. lia. Qed.

Lemma span_last (a b d : Z) : List.last (span a b) d = b.
Proof.
  unfold span. rewrite seq_S, map_app. cbn [map]. rewrite last_snoc.
  cbn [Nat.add]. rewrite Z2Nat.id by lia. apply toward_reach.
Qed.

Lemma route_horizontal_first_spec (m : ndarray) (s g : point) :
  route_horizontal_first (PathFinder_init m) s g
  = Ret (if forallb (passable m) (probed_h s g) then Some (elbow_h s g) else None).
Proof.
  destruct s as [x1 y1], g as [x2 y2].
  unfold route_horizontal_first, probed_h, elbow_h. cbn [fst snd].
  fold (toward x1 x2). fold (toward y1 y2). rewrite py_range_span_tl.
  destruct (x1 =? x2) eqn:Ex; cbn [negb].
  - assert (x1 = x2) by lia. subst x2. rewrite span_same. cbn [bind map app tl].
    destruct (y1 =? y2) eqn:Ey; cbn [negb].
    + assert (y1 = y2) by lia. subst y2. rewrite span_same. reflexivity.
    + rewrite leg_spec. reflexivity.
  - rewrite py_range_span by lia. rewrite leg_spec. cbn [app].
    rewrite forallb_app.
    destruct (forallb (passable m) (map (fun x => (x, y1)) (span x1 x2))); cbn [bind andb].
    + destruct (y1 =? y2) eqn:Ey; cbn [negb].
      * assert (y1 = y2) by lia. subst y2. rewrite span_same. cbn [tl map forallb].
        rewrite app_nil_r. reflexivity.
      * rewrite leg_spec. reflexivity.
    + reflexivity.
Qed.

Lemma route_vertical_first_spec (m : ndarray) (s g : point) :
  route_vertical_first (PathFinder_init m) s g
  = Ret (if forallb (passable m) (probed_v s g) then Some (elbow_v s g) else None).
Proof.
  destruct s as [x1 y1], g as [x2 y2].
  unfold route_vertical_first, probed_v, elbow_v. cbn [fst snd].
  fold (toward x1 x2). fold (toward y1 y2). rewrite py_range_span_tl.
  destruct (y1 =? y2) eqn:Ey; cbn [negb].
  - assert (y1 = y2) by lia. subst y2. rewrite span_same. cbn [bind map app tl].
    destruct (x1 =? x2) eqn:Ex; cbn [negb].
    + assert (x1 = x2) by lia. subst x2. rewrite span_same. reflexivity.
    + rewrite leg_spec. reflexivity.
  - rewrite py_range_span by lia. rewrite leg_spec. cbn [app].
    rewrite forallb_app.
    destruct (forallb (passable m) (map (fun y => (x1, y)) (span y1 y2))); cbn [bind andb].
    + destruct (x1 =? x2) eqn:Ex; cbn [negb].
      * assert (x1 = x2) by lia. subst x2. rewrite span_same. cbn [tl map forallb].
        rewrite app_nil_r. reflexivity.
      * rewrite leg_spec. reflexivity.
    + reflexivity.
Qed.

Lemma length_tl {A : Type} (l : list A) : len (tl l) = Z.max 0 (len l - 1).
Proof. destruct l; unfold len; cbn [tl length]; lia. Qed.

Lemma length_elbow_h (s g : point) :
  len (elbow_h s g) = Z.abs (fst g - fst s) + Z.abs (snd g - snd s) + 1.
Proof.
  unfold elbow_h. pose proof (length_span (fst s) (fst g)).
  pose proof (length_span (snd s) (snd g)). pose proof (length_tl (span (snd s) (snd g))).
  unfold len in *. rewrite length_app, !length_map. lia.
Qed.

Lemma length_elbow_v (s g : point) :
  len (elbow_v s g) = Z.abs (fst g - fst s) + Z.abs (snd g - snd s) + 1.
Proof.
  unfold elbow_v. pose proof (length_span (fst s) (fst g)).
  pose proof (length_span (snd s) (snd g)). pose proof (length_tl (span (fst s) (fst g))).
  unfold len in *. rewrite length_app, !length_map. lia.
Qed.

Lemma last_tl_span (a b d : Z) : a <> b -> List.last (tl (span a b)) d = b.
Proof.
  intros Hne. pose proof (span_last a b d) as Hl.
  destruct (span_hd a b) as [l Hs]. pose proof (length_span a b) as Hn.
  rewrite Hs in *. cbn [tl]. destruct l as [|c l]; [unfold len in Hn; cbn in Hn; lia|].
  exact Hl.
Qed.

Lemma last_app_nonempty {A : Type} (l1 l2 : list A) (d : A) :
  l2 <> [] -> List.last (l1 ++ l2) d = List.last l2 d.
Proof.
  intros Hne. destruct (exists_last Hne) as (l & x & ->).
  rewrite app_assoc, !last_snoc. reflexivity.
Qed.

Lemma last_map_nonempty {A B : Type} (f : A -> B) (l : list A) (d : A) (d' : B) :
  l <> [] -> List.last (map f l) d' = f (List.last l d).
Proof.
  intros Hne. destruct (exists_last Hne) as (l' & x & ->).
  rewrite map_app. cbn [map]. rewrite !last_snoc. reflexivity.
Qed.

Lemma span_nonempty (a b : Z) : span a b <> [].
Proof. destruct (span_hd a b) as [l ->]. discriminate. Qed.

Lemma tl_span_nonempty (a b : Z) : a <> b -> tl (span a b) <> [].
Proof.
  intros Hne E. pose proof (length_tl (span a b)). pose proof (length_span a b).
  rewrite E in *. unfold len in *. cbn [length] in *. lia.
Qed.

Lemma elbow_h_ends (s g : point) :
  hd_error (elbow_h s g) = Some s /\ forall d, List.last (elbow_h s g) d = g.
Proof.
  destruct s as [x1 y1], g as [x2 y2]. unfold elbow_h. cbn [fst snd]. split.
  - destruct (span_hd x1 x2) as [l ->]. reflexivity.
  - intros d. destruct (Z.eq_dec y1 y2) as [->|Hy].
    + rewrite span_same. cbn [tl map]. rewrite app_nil_r.
      rewrite (last_map_nonempty _ _ x1) by apply span_nonempty.
      rewrite span_last. reflexivity.
    + pose proof (tl_span_nonempty y1 y2 Hy) as Hne.
      rewrite last_app_nonempty by (destruct (tl (span y1 y2)); [congruence|discriminate]).
      rewrite (last_map_nonempty _ _ y1) by exact Hne.
      rewrite last_tl_span by exact Hy. reflexivity.
Qed.

Lemma elbow_v_ends (s g : point) :
  hd_error (elbow_v s g) = Some s /\ forall d, List.last (elbow_v s g) d = g.
Proof.
  destruct s as [x1 y1], g as [x2 y2]. unfold elbow_v. cbn [fst snd]. split.
  - destruct (span_hd y1 y2) as [l ->]. reflexivity.
  - intros d. destruct (Z.eq_dec x1 x2) as [->|Hx].
    + rewrite span_same. cbn [tl map]. rewrite app_nil_r.
      rewrite (last_map_nonempty _ _ y1) by apply span_nonempty.
      rewrite span_last. reflexivity.
    + pose proof (tl_span_nonempty x1 x2 Hx) as Hne.
      rewrite last_app_nonempty by (destruct (tl (span x1 x2)); [congruence|discriminate]).
      rewrite (last_map_nonempty _ _ x1) by exact Hne.
      rewrite last_tl_span by exact Hx. reflexivity.
Qed.

Lemma elbow_h_truthy (s g : point) : truthy (Some (elbow_h s g)) = true.
Proof.
  destruct (elbow_h s g) eqn:E; [|reflexivity].
  pose proof (proj1 (elbow_h_ends s g)) as H. rewrite E in H. discriminate.
Qed.

Lemma elbow_v_truthy (s g : point) : truthy (Some (elbow_v s g)) = true.
Proof.
  destruct (elbow_v s g) eqn:E; [|reflexivity].
  pose proof (proj1 (elbow_v_ends s g)) as H. rewrite E in H. discriminate.
Qed.

(** [manhattan_routing], case by case. *)
Lemma manhattan_routing_cases (m : ndarray) (s g : point) :
  manhattan_routing (PathFinder_init m) s g
  = if forallb (passable m) (probed_h s g) then Ret (elbow_h s g)
    else if forallb (passable m) (probed_v s g) then Ret (elbow_v s g)
    else a_star (PathFinder_init m) s g.
Proof.
  unfold manhattan_routing.
  rewrite route_horizontal_first_spec, route_vertical_first_spec. cbn [bind].
  destruct (forallb (passable m) (probed_h s g));
    destruct (forallb (passable m) (probed_v s g));
    rewrite ?elbow_h_truthy, ?elbow_v_truthy; cbn [truthy andb route_list];
    try reflexivity.
  rewrite length_elbow_h, length_elbow_v.
  replace (_ <=? _) with true by lia. reflexivity.
Qed.

(** Every cell of a validated elbow but its first one has been probed. *)
Lemma elbow_routes_validated (m : ndarray) (s g : point) (p : list point) :
  route_horizontal_first (PathFinder_init m) s g = Ret (Some p) \/
  route_vertical_first (PathFinder_init m) s g = Ret (Some p) ->
  forall c, In c (tl p) -> passable m c = true.
Proof.
  rewrite route_horizontal_first_spec, route_vertical_first_spec.
  intros [H|H] c Hc.
  - destruct (forallb (passable m) (probed_h s g)) eqn:E; [|discriminate].
    injection H as <-. rewrite forallb_forall in E. apply E.
    unfold probed_h. destruct (fst s =? fst g); [exact Hc|].
    destruct (elbow_h s g); [destruct Hc|right; exact Hc].
  - destruct (forallb (passable m) (probed_v s g)) eqn:E; [|discriminate].
    injection H as <-. rewrite forallb_forall in E. apply E.
    unfold probed_v. destruct (snd s =? snd g); [exact Hc|].
    destruct (elbow_v s g); [destruct Hc|right; exact Hc].
Qed.

(** [optimize_path] keeps the two ends of a path. *)
Lemma optimize_path_ends (m : ndarray) (P : list point) :
  exists Q,
    optimize_path (PathFinder_init m) P = Ret Q /\
    hd_error Q = hd_error P /\ forall d, List.last Q d = List.last P d.
Proof.
  destruct (Z_lt_le_dec (len P) 3) as [Hshort|Hlong].
  - exists P. unfold optimize_path. replace (len P <? 3) with true by lia. auto.
  - destruct (optimize_path_long m P Hlong) as (Q & HQ & _ & Hinv).
    exists Q. split; [exact HQ|].
    assert (Hne : P <> []) by (intros ->; unfold len in Hlong; cbn in Hlong; lia).
    split.
    + destruct Hinv as (o & q & _ & _ & _ & Hhd & _). exact Hhd.
    + intros d. apply (opt_inv_last m P Q d Hinv Hne).
Qed.

(** The first half of [find_best_path]: the raw path. *)
Lemma raw_path_spec (m : ndarray) (start goal : point) (prefer_manhattan : bool) :
  exists raw,
    (if prefer_manhattan then
       do path <- manhattan_routing (PathFinder_init m) start goal;
       if negb (nonempty path) then a_star (PathFinder_init m) start goal
       else Ret path
     else a_star (PathFinder_init m) start goal) = Ret raw /\
    ((raw = [] /\ ~ reachable m start goal /\
      a_star (PathFinder_init m) start goal = Ret [] /\
      (prefer_manhattan = true ->
       route_horizontal_first (PathFinder_init m) start goal = Ret None /\
       route_vertical_first (PathFinder_init m) start goal = Ret None)) \/
     (hd_error raw = Some start /\ forall d, List.last raw d = goal)).
Proof.
  destruct (a_star_spec m start goal) as (p & Hp & Hcase).
  assert (Hastar : exists raw,
            a_star (PathFinder_init m) start goal = Ret raw /\
            ((raw = [] /\ ~ reachable m start goal /\
              a_star (PathFinder_init m) start goal = Ret []) \/
             (hd_error raw = Some start /\ forall d, List.last raw d = goal))).
  { exists p. split; [exact Hp|]. destruct Hcase as [[-> Hn]|H]; [left|right]; auto. }
  destruct prefer_manhattan.
  - rewrite manhattan_routing_cases.
    rewrite route_horizontal_first_spec, route_vertical_first_spec.
    destruct (forallb (passable m) (probed_h start goal)).
    { exists (elbow_h start goal). cbn [bind].
      pose proof (elbow_h_ends start goal) as [Hhd Hlast].
      destruct (elbow_h start goal); [discriminate|]. cbn [nonempty negb].
      split; [reflexivity|right; auto]. }
    destruct (forallb (passable m) (probed_v start goal)).
    { exists (elbow_v start goal). cbn [bind].
      pose proof (elbow_v_ends start goal) as [Hhd Hlast].
      destruct (elbow_v start goal); [discriminate|]. cbn [nonempty negb].
      split; [reflexivity|right; auto]. }
    destruct Hastar as (raw & Hraw & [(-> & Hn & Ha)|[Hhd Hlast]]).
    + exists []. rewrite Hraw. cbn [bind nonempty negb]. split; [reflexivity|].
      left. auto.
    + exists raw. rewrite Hraw. cbn [bind].
      destruct raw; [discriminate|]. cbn [nonempty negb].
      split; [reflexivity|right; auto].
  - destruct Hastar as (raw & Hraw & [(-> & Hn & Ha)|H]).
    + exists []. split; [exact Hraw|]. left.
      split; [reflexivity|]. split; [exact Hn|]. split; [exact Ha|].
      intros Hf. discriminate.
    + exists raw. split; [exact Hraw|right; exact H].
Qed.

(* ------------------------------------------------------------------ *)
(** *** The order of the frontier and the runs over any heap *)

Lemma entry_ltb_alt (a b : entry) :
  entry_ltb a b
  = (fst a <? fst b) ||
    ((fst a =? fst b) &&
     ((fst (snd a) <? fst (snd b)) ||
      ((fst (snd a) =? fst (snd b)) && (snd (snd a) <? snd (snd b))))).
Proof.
  unfold entry_ltb, point_ltb.
  destruct (fst a =? fst b) eqn:E1; destruct (fst a <? fst b) eqn:E2;
    destruct (fst (snd a) =? fst (snd b)) eqn:E3;
    destruct (fst (snd a) <? fst (snd b)) eqn:E4;
    destruct (snd (snd a) <? snd (snd b)) eqn:E5; cbn; try reflexivity; lia.
Qed.

Lemma entry_ltb_antisym (a b : entry) :
  entry_ltb a b = false -> entry_ltb b a = false -> a = b.
Proof.
  rewrite !entry_ltb_alt. destruct a as [fa [xa ya]], b as [fb [xb yb]].
  cbn [fst snd]. intros H1 H2.
  assert (fa = fb) by lia. assert (xa = xb) by lia. assert (ya = yb) by lia.
  congruence.
Qed.

Lemma entry_le_trans (a b c : entry) :
  entry_ltb b a = false -> entry_ltb c b = false -> entry_ltb c a = false.
Proof.
  rewrite !entry_ltb_alt. destruct a as [fa [xa ya]], b as [fb [xb yb]], c as [fc [xc yc]].
  cbn [fst snd]. intros H1 H2. lia.
Qed.

Lemma entry_ltb_irrefl (a : entry) : entry_ltb a a = false.
Proof. rewrite entry_ltb_alt. lia. Qed.

Lemma heap_min_least (h : list entry) : forall e,
  entry_ltb e (heap_min e h) = false /\
  forall e', In e' h -> entry_ltb e' (heap_min e h) = false.
Proof.
  induction h as [|x h IH]; intros e.
  - cbn [heap_min]. split; [apply entry_ltb_irrefl|intros e' []].
  - cbn [heap_min].
    destruct (IH (if entry_ltb x e then x else e)) as [Hacc Hrest].
    set (mn := heap_min (if entry_ltb x e then x else e) h) in *.
    destruct (entry_ltb x e) eqn:Exe.
    + assert (Hx : entry_ltb x mn = false) by exact Hacc.
      split.
      * apply (entry_le_trans mn x e); [exact Hx|].
        rewrite entry_ltb_alt in *. destruct x as [fx [xx yx]], e as [fe [xe ye]].
        cbn [fst snd] in *. lia.
      * intros e' [<-|He']; [exact Hx|apply Hrest, He'].
    + split; [exact Hacc|].
      intros e' [<-|He']; [|apply Hrest, He'].
      apply (entry_le_trans mn e x); [exact Hacc|exact Exe].
Qed.

(** The model of [heappop] keeps the promise of [heapq]. *)
Lemma heappop_pops (h : list entry) (e : entry) (rest : list entry) :
  heappop h = Ret (e, rest) -> pops h e rest.
Proof.
  destruct h as [|e0 h]; [discriminate|]. unfold heappop. intros [= <- <-].
  split.
  - apply remove_one_spec.
    destruct (heap_min_in h e0) as [->|H]; [left; reflexivity|right; exact H].
  - destruct (heap_min_least h e0) as [H0 Hrest].
    intros e' [<-|He']; [exact H0|apply Hrest, He'].
Qed.

(** The tuple popped does not depend on the arrangement of the heap. *)
Lemma pops_unique (h1 h2 : list entry) (e1 e2 : entry) (r1 r2 : list entry) :
  Permutation h1 h2 -> pops h1 e1 r1 -> pops h2 e2 r2 ->
  e1 = e2 /\ Permutation r1 r2.
Proof.
  intros Hperm [Hp1 Hmin1] [Hp2 Hmin2].
  assert (He : e1 = e2).
  { apply entry_ltb_antisym.
    - apply Hmin2. apply (Permutation_in _ Hperm).
      apply (Permutation_in _ (Permutation_sym Hp1)). left. reflexivity.
    - apply Hmin1. apply (Permutation_in _ (Permutation_sym Hperm)).
      apply (Permutation_in _ (Permutation_sym Hp2)). left. reflexivity. }
  split; [exact He|]. subst e2.
  apply (Permutation_cons_inv (a := e1)).
  rewrite <- Hp1, <- Hp2. exact Hperm.
Qed.

Lemma same_state_refl (a : search) : same_state a a.
Proof. unfold same_state. auto. Qed.

Lemma same_state_trans (a b c : search) :
  same_state a b -> same_state b c -> same_state a c.
Proof.
  intros (H1 & H2 & H3 & H4) (K1 & K2 & K3 & K4). unfold same_state.
  split; [etransitivity; eassumption|]. repeat split; congruence.
Qed.

Lemma same_state_sym (a b : search) : same_state a b -> same_state b a.
Proof.
  intros (H1 & H2 & H3 & H4). unfold same_state.
  split; [symmetry; exact H1|]. auto.
Qed.

(** The relaxation of the neighbours does not look at the frontier. *)
Lemma relax_same_state (goal current : point) (neighbors : list point) :
  forall a b a',
    same_state a b ->
    relax goal current neighbors a = Ret a' ->
    exists b', relax goal current neighbors b = Ret b' /\ same_state a' b'.
Proof.
  induction neighbors as [|n rest IH]; intros a b a' Hsame Hrun.
  - cbn [relax] in *. injection Hrun as <-. exists b. auto.
  - destruct Hsame as (Hopen & Hcf & Hg & Hf).
    cbn [relax] in *. rewrite <- Hg, <- Hf, <- Hcf.
    destruct (dict_get (g_score a) current) as [gcur| |]; cbn [bind] in *; try discriminate.
    destruct (g_score a !! n) as [gn|] eqn:En.
    + unfold dict_get in *. rewrite En in *. cbn [bind] in *.
      destruct (gcur + move_cost current n <? gn).
      * rewrite lookup_insert_eq in *. cbn [bind] in *.
        rewrite lookup_insert_eq in *. cbn [bind] in *.
        eapply (IH _ _ a'); [|exact Hrun].
        unfold same_state, heappush. cbn [open_set came_from g_score f_score].
        split; [apply perm_skip, Hopen|]. auto.
      * apply (IH a b a'); [|exact Hrun]. unfold same_state. auto.
    + cbn [bind] in *. unfold dict_get in *.
      rewrite lookup_insert_eq in *. cbn [bind] in *.
      rewrite lookup_insert_eq in *. cbn [bind] in *.
      eapply (IH _ _ a'); [|exact Hrun].
      unfold same_state, heappush. cbn [open_set came_from g_score f_score].
      split; [apply perm_skip, Hopen|]. auto.
Qed.

Lemma pops_nil (e : entry) (rest : list entry) : ~ pops [] e rest.
Proof. intros [H _]. apply Permutation_nil in H. discriminate. Qed.

(** Two runs from states that differ at most in the arrangement of the
    frontier return the same path. *)
Lemma run_deterministic (self : PathFinder) (start goal : point)
    (st1 : search) (r1 : list point) :
  run self start goal st1 r1 ->
  forall st2 r2, same_state st1 st2 -> run self start goal st2 r2 -> r1 = r2.
Proof.
  induction 1 as [st1 Hopen1
                 |st1 e1 rest1 path1 Hpop1 Hgoal1 Hrec1
                 |st1 e1 rest1 nb1 st1' next1 res1 Hpop1 Hgoal1 Hnb1 Hrelax1 Hsame1 Hrun1 IH];
    intros st2 r2 Hsame Hrun2.
  - destruct Hsame as (Hperm & _). rewrite Hopen1 in Hperm.
    apply Permutation_nil in Hperm.
    inversion Hrun2 as [st Hopen2|st e2 rest2 path2 Hpop2 _ _|st e2 rest2 nb2 st2' next2 res2 Hpop2 _ _ _ _ _];
      subst; [reflexivity| |]; rewrite Hperm in Hpop2; destruct (pops_nil _ _ Hpop2).
  - pose proof Hsame as (Hperm & Hcf & _).
    inversion Hrun2 as [st Hopen2|st e2 rest2 path2 Hpop2 Hgoal2 Hrec2|st e2 rest2 nb2 st2' next2 res2 Hpop2 Hgoal2 _ _ _ _];
      subst.
    + rewrite Hopen2 in Hperm. apply Permutation_sym, Permutation_nil in Hperm.
      rewrite Hperm in Hpop1. destruct (pops_nil _ _ Hpop1).
    + destruct (pops_unique _ _ _ _ _ _ Hperm Hpop1 Hpop2) as [<- _].
      rewrite <- Hcf in Hrec2. congruence.
    + destruct (pops_unique _ _ _ _ _ _ Hperm Hpop1 Hpop2) as [<- _]. congruence.
  - pose proof Hsame as (Hperm & Hcf & Hg & Hf).
    inversion Hrun2 as [st Hopen2|st e2 rest2 path2 Hpop2 Hgoal2 Hrec2|st e2 rest2 nb2 st2' next2 res2 Hpop2 Hgoal2 Hnb2 Hrelax2 Hsame2 Hrun2'];
      subst.
    + rewrite Hopen2 in Hperm. apply Permutation_sym, Permutation_nil in Hperm.
      rewrite Hperm in Hpop1. destruct (pops_nil _ _ Hpop1).
    + destruct (pops_unique _ _ _ _ _ _ Hperm Hpop1 Hpop2) as [<- _]. congruence.
    + destruct (pops_unique _ _ _ _ _ _ Hperm Hpop1 Hpop2) as [<- Hrest].
      assert (nb2 = nb1) by congruence. subst nb2.
      assert (Hpopped : same_state
                {| open_set := rest1; came_from := came_from st1;
                   g_score := g_score st1; f_score := f_score st1 |}
                {| open_set := rest2; came_from := came_from st2;
                   g_score := g_score st2; f_score := f_score st2 |}).
      { unfold same_state. cbn [open_set came_from g_score f_score]. auto. }
      destruct (relax_same_state goal (snd e1) nb1 _ _ st1' Hpopped Hrelax1)
        as (b' & Hb' & Hsame').
      assert (b' = st2') by congruence. subst b'.
      apply (IH next2 r2); [|exact Hrun2'].
      apply (same_state_trans _ st1'); [apply same_state_sym, Hsame1|].
      apply (same_state_trans _ st2'); [exact Hsame'|exact Hsame2].
Qed.

(** What the model of [a_star] computes is one of these runs. *)
Lemma search_loop_run (self : PathFinder) (start goal : point) (fuel : nat) :
  forall st r, search_loop self start goal fuel st = Ret r -> run self start goal st r.
Proof.
  induction fuel as [|fuel IH]; intros st r Hrun; [discriminate|].
  cbn [search_loop] in Hrun.
  destruct (open_set st) as [|e0 h0] eqn:Eopen.
  - injection Hrun as <-. apply run_empty. exact Eopen.
  - destruct (heappop (e0 :: h0)) as [[e rest]| |] eqn:Epop; cbn [bind fst snd] in Hrun;
      try discriminate.
    apply heappop_pops in Epop. rewrite <- Eopen in Epop.
    destruct (point_eqb (snd e) goal) eqn:Egoal.
    + cbn [came_from] in Hrun.
      destruct (reconstruct (search_fuel self) (came_from st) (snd e) []) as [path| |] eqn:Erec;
        cbn [bind] in Hrun; try discriminate.
      injection Hrun as <-. eapply run_goal; eassumption.
    + destruct (get_neighbors self (snd e)) as [nb| |] eqn:Enb; cbn [bind] in Hrun;
        try discriminate.
      destruct (relax goal (snd e) nb _) as [st'| |] eqn:Erelax; cbn [bind] in Hrun;
        try discriminate.
      eapply run_expand; try eassumption; [apply same_state_refl|].
      apply IH. exact Hrun.
Qed.

(* ------------------------------------------------------------------ *)
(** *** Counting the pixels *)

Lemma filter_split_length {A : Type} (f g : A -> bool) (l : list A) :
  (forall x, g x = negb (f x)) ->
  len (List.filter f l) + len (List.filter g l) = len l.
Proof.
  intros Hfg. induction l as [|x l IH]; [reflexivity|].
  cbn [List.filter]. rewrite (Hfg x). unfold len in *.
  destruct (f x); cbn [negb length]; lia.
Qed.

(** Every pixel is counted once: as not zero or as zero. *)
Lemma count_partition (a : ndarray) :
  count_nonzero a + count_nonzero (equals_zero a)
  = Z.of_nat (shape0 a) * Z.of_nat (shape1 a).
Proof.
  unfold count_nonzero.
  change (all_cells (equals_zero a)) with (all_cells a).
  rewrite (filter_split_length (fun p => negb (cell a p =? 0))
             (fun p => negb (cell (equals_zero a) p =? 0)) (all_cells a)).
  - unfold len. rewrite length_all_cells. lia.
  - intros p. unfold cell at 1. cbn [equals_zero item]. fold (cell a p).
    destruct (cell a p =? 0); reflexivity.
Qed.

(* ================================================================== *)
(** ** The claims *)

(** C1 (as the code has it). [optimize_path] returns for every path.  A path
    of fewer than three points comes back unchanged.  For a longer path [P]
    the result starts at [P[0]], ends at [P[-1]], has at most [len(P)]
    waypoints, and each of its consecutive pairs either has clear line of
    sight or is a consecutive pair of [P] itself; so when every consecutive
    pair of [P] has clear line of sight, every consecutive pair of the
    result has it too. *)
Theorem optimize_path_guarantees (m : ndarray) (P : list point) :
  exists Q,
    optimize_path (PathFinder_init m) P = Ret Q /\
    (len P < 3 -> Q = P) /\
    (3 <= len P ->
       hd_error Q = hd_error P /\
       (forall d, List.last Q d = List.last P d) /\
       len Q <= len P /\
       (forall a b, adjacent Q a b ->
          _can_connect_directly (PathFinder_init m) a b = Ret true \/
          adjacent P a b) /\
       ((forall a b, adjacent P a b ->
           _can_connect_directly (PathFinder_init m) a b = Ret true) ->
        forall a b, adjacent Q a b ->
           _can_connect_directly (PathFinder_init m) a b = Ret true)).
Proof.
  destruct (Z_lt_le_dec (len P) 3) as [Hshort|Hlong].
  - exists P. unfold optimize_path. replace (len P <? 3) with true by lia.
    split; [reflexivity|]. split; [reflexivity|lia].
  - destruct (optimize_path_long m P Hlong) as (Q & HQ & _ & Hinv).
    exists Q. split; [exact HQ|]. split; [lia|]. intros _.
    assert (Hne : P <> []) by (intros ->; unfold len in Hlong; cbn in Hlong; lia).
    assert (Hpairs : forall a b, adjacent Q a b ->
              _can_connect_directly (PathFinder_init m) a b = Ret true \/ adjacent P a b).
    { destruct Hinv as (o & q & Ho & _ & _ & _ & _ & Hp).
      intros a b Hab. destruct (Hp a b Hab) as [Hlos|Hadj]; [left|right; exact Hadj].
      rewrite can_connect_spec. fold (los m a b). rewrite Hlos. reflexivity. }
    split; [|split; [|split; [|split]]].
    + destruct Hinv as (o & q & _ & _ & _ & Hhd & _). exact Hhd.
    + intros d. apply (opt_inv_last m P Q d Hinv Hne).
    + destruct Hinv as (o & q & _ & _ & _ & _ & Hlen & _). lia.
    + exact Hpairs.
    + intros HP a b Hab. destruct (Hpairs a b Hab) as [H|H]; [exact H|apply HP, H].
Qed.

Lemma optimize_path_guarantees_witness :
  3 <= len [(0, 0); (1, 0); (2, 0)] /\
  exists Q,
    optimize_path (PathFinder_init (array [[0; 0; 0]])) [(0, 0); (1, 0); (2, 0)] = Ret Q /\
    hd_error Q = Some (0, 0) /\ List.last Q (0, 0) = (2, 0) /\ len Q <= 3.
Proof.
  assert (H3 : 3 <= len [(0, 0); (1, 0); (2, 0)]) by (vm_compute; discriminate).
  split; [exact H3|].
  destruct (optimize_path_guarantees (array [[0; 0; 0]]) [(0, 0); (1, 0); (2, 0)])
    as (Q & HQ & _ & Hlong).
  destruct (Hlong H3) as (Hhd & Hlast & Hlen & _).
  exists Q. split; [exact HQ|]. split; [exact Hhd|]. split; [apply Hlast|exact Hlen].
Defined.

(** C1 as stated fails: on the one-row grid [255 0 0] the path
    [(0,0) (1,0) (2,0)] (what [a_star] builds from a start placed on an
    obstacle) is returned with its first pair, which has no line of sight. *)
Lemma optimize_path_keeps_blocked_pair :
  let self := PathFinder_init (array [[255; 0; 0]]) in
  let P := [(0, 0); (1, 0); (2, 0)] in
  3 <= len P /\
  optimize_path self P = Ret [(0, 0); (1, 0); (2, 0)] /\
  adjacent [(0, 0); (1, 0); (2, 0)] (0, 0) (1, 0) /\
  _can_connect_directly self (0, 0) (1, 0) = Ret false.
Proof.
  cbv zeta. split; [vm_compute; discriminate|].
  split; [vm_compute; reflexivity|].
  split; [exists 0%nat; split; reflexivity|].
  vm_compute; reflexivity.
Qed.

(** C2. [find_best_path] returns for every grid, start and goal.  When the
    goal can be reached from the start by moves to one of the eight cells
    around, each onto a FREE cell of the grid, the path returned is not
    empty, begins with the start and ends with the goal.  The empty path is
    returned only when the goal cannot be reached by such moves: [a_star]
    then finds no path and, if the elbows were tried, neither validated. *)
Theorem find_best_path_complete (m : ndarray) (start goal : point)
    (prefer_manhattan : bool) :
  exists p,
    find_best_path (PathFinder_init m) start goal prefer_manhattan = Ret p /\
    (reachable m start goal ->
       p <> [] /\ hd_error p = Some start /\ forall d, List.last p d = goal) /\
    (p = [] ->
       ~ reachable m start goal /\
       a_star (PathFinder_init m) start goal = Ret [] /\
       (prefer_manhattan = true ->
        route_horizontal_first (PathFinder_init m) start goal = Ret None /\
        route_vertical_first (PathFinder_init m) start goal = Ret None)).
Proof.
  unfold find_best_path.
  destruct (raw_path_spec m start goal prefer_manhattan) as (raw & Hraw & Hcase).
  rewrite Hraw. cbn [bind].
  destruct Hcase as [(-> & Hn & Ha & Hr)|[Hhd Hlast]].
  - exists []. cbn [nonempty]. split; [reflexivity|]. split; [tauto|auto].
  - destruct raw as [|r0 raw']; [discriminate|]. cbn [nonempty].
    destruct (optimize_path_ends m (r0 :: raw')) as (Q & HQ & Hh & Hl).
    exists Q. split; [exact HQ|].
    assert (HQends : hd_error Q = Some start /\ forall d, List.last Q d = goal).
    { rewrite Hh. split; [exact Hhd|]. intros d. rewrite Hl. apply Hlast. }
    destruct HQends as [HQhd HQlast]. split.
    + intros _. split; [intros ->; discriminate|auto].
    + intros ->. discriminate.
Qed.

Lemma find_best_path_complete_witness :
  let m := array [[0; 0; 255]; [0; 0; 0]; [255; 0; 0]] in
  reachable m (0, 0) (2, 2) /\
  exists p, find_best_path (PathFinder_init m) (0, 0) (2, 2) true = Ret p /\
            p <> [] /\ hd_error p = Some (0, 0) /\ List.last p (0, 0) = (2, 2).
Proof.
  cbv zeta.
  assert (Hreach : reachable (array [[0; 0; 255]; [0; 0; 0]; [255; 0; 0]]) (0, 0) (2, 2)).
  { apply (reach_step _ _ (1, 1)); [apply (reach_step _ _ (0, 0)); [apply reach_start|]|].
    - split; [exists (1, 1); split; [vm_compute; tauto|reflexivity]|].
      split; reflexivity.
    - split; [exists (1, 1); split; [vm_compute; tauto|reflexivity]|].
      split; reflexivity. }
  split; [exact Hreach|].
  destruct (find_best_path_complete (array [[0; 0; 255]; [0; 0; 0]; [255; 0; 0]])
              (0, 0) (2, 2) true) as (p & Hp & Hyes & _).
  destruct (Hyes Hreach) as (Hne & Hhd & Hlast).
  exists p. split; [exact Hp|]. split; [exact Hne|]. split; [exact Hhd|apply Hlast].
Defined.

Lemma passable_not_obstacle (m : ndarray) (c : point) :
  passable m c = true ->
  inside m c = true /\ cell m c <> OBSTACLE /\ (binary m -> cell m c = FREE).
Proof.
  unfold passable, OBSTACLE. intros H.
  assert (Hin : inside m c = true) by lia.
  assert (Hc : cell m c <> 255) by lia.
  split; [exact Hin|]. split; [exact Hc|].
  intros Hbin. destruct (Hbin c Hin) as [H0|H0]; [exact H0|].
  unfold OBSTACLE in H0. congruence.
Qed.

(** What the validation of a candidate ensures, its first cell left aside:
    an accepted candidate is the whole elbow and all its cells after the
    first pass; a cell after the first that does not pass rejects it; and
    it is accepted when all the cells of the elbow pass. *)
Lemma candidate_validated (m : ndarray) (elbow probed : list point)
    (route : option (list point)) :
  route = (if forallb (passable m) probed then Some elbow else None) ->
  probed = elbow \/ probed = tl elbow ->
  (forall p, route = Some p ->
     p = elbow /\ forall c, In c (tl p) -> passable m c = true) /\
  ((exists c, In c (tl elbow) /\ passable m c = false) -> route = None) /\
  ((forall c, In c elbow -> passable m c = true) -> route = Some elbow).
Proof.
  intros -> Hprobed.
  assert (Htl : forall c, In c (tl elbow) -> In c probed).
  { intros c Hc. destruct Hprobed as [-> | ->]; [|exact Hc].
    destruct elbow; [destruct Hc|right; exact Hc]. }
  assert (Hsub : forall c, In c probed -> In c elbow).
  { intros c Hc. destruct Hprobed as [-> | ->]; [exact Hc|].
    destruct elbow; [destruct Hc|right; exact Hc]. }
  destruct (forallb (passable m) probed) eqn:E.
  - rewrite forallb_forall in E. split; [|split].
    + intros p [= <-]. split; [reflexivity|]. intros c Hc. apply E, Htl, Hc.
    + intros (c & Hc & Hno). rewrite (E c (Htl c Hc)) in Hno. discriminate.
    + reflexivity.
  - split; [|split].
    + intros p Hp. discriminate.
    + reflexivity.
    + intros Hall. assert (forallb (passable m) probed = true); [|congruence].
      apply forallb_forall. intros c Hc. apply Hall, Hsub, Hc.
Qed.

(** When the first leg of a candidate has length, its first cell is
    probed like the others: an accepted candidate has all its cells
    passing, and a start that does not pass rejects it. *)
Lemma candidate_start_validated (m : ndarray) (elbow : list point)
    (route : option (list point)) (start : point) :
  route = (if forallb (passable m) elbow then Some elbow else None) ->
  hd_error elbow = Some start ->
  (forall r, route = Some r -> forall c, In c r -> passable m c = true) /\
  (passable m start = false -> route = None).
Proof.
  intros -> Hhd. destruct (forallb (passable m) elbow) eqn:E.
  - rewrite forallb_forall in E. split.
    + intros r [= <-]. exact E.
    + intros Hno. rewrite E in Hno; [discriminate|].
      destruct elbow; [discriminate|]. injection Hhd as ->. left. reflexivity.
  - split; [intros r Hr; discriminate|reflexivity].
Qed.

(** C3 (as the code has it). Both candidates are computed without raising.
    An accepted candidate is the whole elbow, from the start to the goal,
    and every cell of it after the first has been probed and passes; one
    such cell that is OBSTACLE or out of bounds rejects the candidate as a
    whole; a candidate all of whose cells pass is accepted.  The first
    cell, the start, is probed with the others when the first leg of the
    candidate has length ([x1 != x2] for the horizontal-first one,
    [y1 != y2] for the vertical-first one): a start that does not pass
    then rejects the candidate.
    [manhattan_routing] always returns: one of the accepted candidates,
    or, both being rejected, what [a_star] returns.  Every point of its
    path after the first lies inside the grid on a cell that is not
    OBSTACLE (FREE, on a grid that holds only FREE and OBSTACLE), and so
    does the first point when the path is a candidate whose first leg has
    length. *)
Theorem manhattan_routing_avoids_obstacles (m : ndarray) (start goal : point) :
  exists route1 route2 p,
    route_horizontal_first (PathFinder_init m) start goal = Ret route1 /\
    route_vertical_first (PathFinder_init m) start goal = Ret route2 /\
    manhattan_routing (PathFinder_init m) start goal = Ret p /\
    ((forall r, route1 = Some r ->
        r = elbow_h start goal /\
        (forall c, In c (tl r) -> passable m c = true) /\
        (fst start <> fst goal -> forall c, In c r -> passable m c = true)) /\
     ((exists c, In c (tl (elbow_h start goal)) /\ passable m c = false) ->
      route1 = None) /\
     (fst start <> fst goal -> passable m start = false -> route1 = None) /\
     ((forall c, In c (elbow_h start goal) -> passable m c = true) ->
      route1 = Some (elbow_h start goal))) /\
    ((forall r, route2 = Some r ->
        r = elbow_v start goal /\
        (forall c, In c (tl r) -> passable m c = true) /\
        (snd start <> snd goal -> forall c, In c r -> passable m c = true)) /\
     ((exists c, In c (tl (elbow_v start goal)) /\ passable m c = false) ->
      route2 = None) /\
     (snd start <> snd goal -> passable m start = false -> route2 = None) /\
     ((forall c, In c (elbow_v start goal) -> passable m c = true) ->
      route2 = Some (elbow_v start goal))) /\
    (route1 = Some p \/ (route1 = None /\ route2 = Some p) \/
     (route1 = None /\ route2 = None /\
      a_star (PathFinder_init m) start goal = Ret p)) /\
    (forall c, In c (tl p) ->
       inside m c = true /\ cell m c <> OBSTACLE /\ (binary m -> cell m c = FREE)) /\
    ((route1 = Some p /\ fst start <> fst goal) \/
     (route2 = Some p /\ snd start <> snd goal) ->
     forall c, In c p ->
       inside m c = true /\ cell m c <> OBSTACLE /\ (binary m -> cell m c = FREE)).
Proof.
  pose proof (route_horizontal_first_spec m start goal) as R1.
  pose proof (route_vertical_first_spec m start goal) as R2.
  set (route1 := if forallb (passable m) (probed_h start goal)
                 then Some (elbow_h start goal) else None) in *.
  set (route2 := if forallb (passable m) (probed_v start goal)
                 then Some (elbow_v start goal) else None) in *.
  destruct (candidate_validated m (elbow_h start goal) (probed_h start goal)
              route1 eq_refl) as (H1 & H2 & H3).
  { unfold probed_h. destruct (fst start =? fst goal); auto. }
  destruct (candidate_validated m (elbow_v start goal) (probed_v start goal)
              route2 eq_refl) as (K1 & K2 & K3).
  { unfold probed_v. destruct (snd start =? snd goal); auto. }
  assert (S1 : fst start <> fst goal ->
               (forall r, route1 = Some r -> forall c, In c r -> passable m c = true) /\
               (passable m start = false -> route1 = None)).
  { intros Hne. apply (candidate_start_validated m (elbow_h start goal));
      [|apply elbow_h_ends].
    unfold route1, probed_h. replace (fst start =? fst goal) with false by lia.
    reflexivity. }
  assert (S2 : snd start <> snd goal ->
               (forall r, route2 = Some r -> forall c, In c r -> passable m c = true) /\
               (passable m start = false -> route2 = None)).
  { intros Hne. apply (candidate_start_validated m (elbow_v start goal));
      [|apply elbow_v_ends].
    unfold route2, probed_v. replace (snd start =? snd goal) with false by lia.
    reflexivity. }
  assert (Hpath : exists p,
            manhattan_routing (PathFinder_init m) start goal = Ret p /\
            (route1 = Some p \/ (route1 = None /\ route2 = Some p) \/
             (route1 = None /\ route2 = None /\
              a_star (PathFinder_init m) start goal = Ret p))).
  { rewrite manhattan_routing_cases. unfold route1, route2.
    destruct (forallb (passable m) (probed_h start goal)).
    { exists (elbow_h start goal). split; [reflexivity|]. left. reflexivity. }
    destruct (forallb (passable m) (probed_v start goal)).
    { exists (elbow_v start goal). split; [reflexivity|]. right. left. auto. }
    destruct (a_star_spec m start goal) as (p & Hp & _).
    exists p. split; [exact Hp|]. right. right. auto. }
  destruct Hpath as (p & Hp & Hfrom).
  exists route1, route2, p.
  split; [exact R1|]. split; [exact R2|]. split; [exact Hp|].
  split; [|split; [|split; [exact Hfrom|split]]].
  - split; [|split; [exact H2|split; [|exact H3]]].
    + intros r Hr. destruct (H1 r Hr) as [E Htl].
      split; [exact E|]. split; [exact Htl|].
      intros Hne. apply (proj1 (S1 Hne) r Hr).
    + intros Hne. apply (proj2 (S1 Hne)).
  - split; [|split; [exact K2|split; [|exact K3]]].
    + intros r Hr. destruct (K1 r Hr) as [E Htl].
      split; [exact E|]. split; [exact Htl|].
      intros Hne. apply (proj1 (S2 Hne) r Hr).
    + intros Hne. apply (proj2 (S2 Hne)).
  - intros c Hc. apply passable_not_obstacle.
    destruct Hfrom as [Hr|[[_ Hr]|(_ & _ & Hr)]].
    + apply (proj2 (H1 p Hr) c Hc).
    + apply (proj2 (K1 p Hr) c Hc).
    + pose proof (a_star_free m start goal p Hr c Hc) as Hf.
      unfold passable, free_at, FREE, OBSTACLE in *. lia.
  - intros [[Hr Hne]|[Hr Hne]] c Hc; apply passable_not_obstacle.
    + apply (proj1 (S1 Hne) p Hr c Hc).
    + apply (proj1 (S2 Hne) p Hr c Hc).
Qed.

Lemma manhattan_routing_avoids_obstacles_witness :
  let m := array [[0; 0; 255]; [0; 0; 0]; [255; 0; 0]] in
  binary m /\
  exists p, manhattan_routing (PathFinder_init m) (0, 0) (2, 2) = Ret p /\
            forall c, In c (tl p) -> cell m c = FREE.
Proof.
  cbv zeta.
  assert (Hbin : binary (array [[0; 0; 255]; [0; 0; 0]; [255; 0; 0]])).
  { intros [x y] Hin. unfold inside in Hin. cbn [fst snd array shape0 shape1 length hd] in Hin.
    assert (Hx : x = 0 \/ x = 1 \/ x = 2) by lia.
    assert (Hy : y = 0 \/ y = 1 \/ y = 2) by lia.
    destruct Hx as [-> | [-> | ->]]; destruct Hy as [-> | [-> | ->]];
      vm_compute; auto. }
  split; [exact Hbin|].
  destruct (manhattan_routing_avoids_obstacles
              (array [[0; 0; 255]; [0; 0; 0]; [255; 0; 0]]) (0, 0) (2, 2))
    as (route1 & route2 & p & _ & _ & Hp & _ & _ & _ & Hfree & _).
  exists p. split; [exact Hp|]. intros c Hc.
  destruct (Hfree c Hc) as (_ & _ & Hb). apply Hb, Hbin.
Defined.

(** C3 as stated fails: from a start placed on an obstacle both elbows are
    rejected at their first cell, [manhattan_routing] falls back on
    [a_star], which never probes the start, and the path returned begins
    on the obstacle. *)
Lemma manhattan_routing_keeps_obstacle_start :
  let self := PathFinder_init (array [[255; 0; 0]; [0; 0; 0]; [0; 0; 0]]) in
  route_horizontal_first self (0, 0) (2, 2) = Ret None /\
  route_vertical_first self (0, 0) (2, 2) = Ret None /\
  manhattan_routing self (0, 0) (2, 2) = Ret [(0, 0); (1, 1); (2, 2)] /\
  getitem (obstacle_map self) 0 0 = Ret OBSTACLE.
Proof.
  cbv zeta. split; [vm_compute; reflexivity|]. split; [vm_compute; reflexivity|].
  split; vm_compute; reflexivity.
Qed.

(** The defect beside it: the branch taken when the first leg has no
    length ([else: path.append((x1, y1))]) puts the start out without the
    probe that the loop of the other branch applies to it.  In a
    one-column grid whose top cell is an obstacle, the horizontal-first
    route from that cell straight down is accepted, start included, while
    the vertical-first route, whose first leg has length, is rejected at
    that same cell; [manhattan_routing] returns the path through the
    obstacle. *)
Lemma route_first_leg_without_length :
  let self := PathFinder_init (array [[255]; [0]; [0]]) in
  route_horizontal_first self (0, 0) (0, 2) = Ret (Some [(0, 0); (0, 1); (0, 2)]) /\
  route_vertical_first self (0, 0) (0, 2) = Ret None /\
  manhattan_routing self (0, 0) (0, 2) = Ret [(0, 0); (0, 1); (0, 2)] /\
  getitem (obstacle_map self) 0 0 = Ret OBSTACLE.
Proof.
  cbv zeta. split; [vm_compute; reflexivity|]. split; [vm_compute; reflexivity|].
  split; vm_compute; reflexivity.
Qed.

(** C4 (as the code has it). Both candidates are always computed without
    raising.  If both validate, the horizontal-first one is returned, and
    it has no more waypoints than the other; if exactly one validates, that
    one is returned; if neither validates, [manhattan_routing] itself
    returns what [a_star] returns for the same points.  The fallback of the
    callers, [find_best_path] and [route_wire], which run the same steps,
    then changes nothing. *)
Theorem manhattan_routing_choice (m : ndarray) (start goal : point) :
  (exists route1 route2,
     route_horizontal_first (PathFinder_init m) start goal = Ret route1 /\
     route_vertical_first (PathFinder_init m) start goal = Ret route2 /\
     match route1, route2 with
     | Some r1, Some r2 =>
         manhattan_routing (PathFinder_init m) start goal = Ret r1 /\
         len r1 <= len r2
     | Some r1, None =>
         manhattan_routing (PathFinder_init m) start goal = Ret r1
     | None, Some r2 =>
         manhattan_routing (PathFinder_init m) start goal = Ret r2
     | None, None =>
         manhattan_routing (PathFinder_init m) start goal
         = a_star (PathFinder_init m) start goal
     end) /\
  (do path <- manhattan_routing (PathFinder_init m) start goal;
   if negb (nonempty path) then a_star (PathFinder_init m) start goal
   else Ret path)
  = manhattan_routing (PathFinder_init m) start goal /\
  (forall (self : Router.SmartWireRouter) (routing_style : String.string),
     Router.current_obstacle_map self = Some m ->
     Router.route_wire self start goal routing_style
     = find_best_path (PathFinder_init m) start goal
         (String.eqb routing_style Router.MANHATTAN)).
Proof.
  split; [|split].
  - rewrite manhattan_routing_cases.
    rewrite route_horizontal_first_spec, route_vertical_first_spec.
    eexists _, _. split; [reflexivity|]. split; [reflexivity|].
    destruct (forallb (passable m) (probed_h start goal));
      destruct (forallb (passable m) (probed_v start goal)); try reflexivity.
    split; [reflexivity|]. rewrite length_elbow_h, length_elbow_v. lia.
  - rewrite manhattan_routing_cases.
    destruct (forallb (passable m) (probed_h start goal)).
    { cbn [bind]. pose proof (elbow_h_ends start goal) as [Hhd _].
      destruct (elbow_h start goal); [discriminate|reflexivity]. }
    destruct (forallb (passable m) (probed_v start goal)).
    { cbn [bind]. pose proof (elbow_v_ends start goal) as [Hhd _].
      destruct (elbow_v start goal); [discriminate|reflexivity]. }
    destruct (a_star_spec m start goal) as (p & Hp & _). rewrite Hp. cbn [bind].
    destruct p; cbn [nonempty negb]; [rewrite ?Hp|]; reflexivity.
  - intros self routing_style Hmap. unfold Router.route_wire, find_best_path.
    rewrite Hmap. reflexivity.
Qed.

Lemma manhattan_routing_choice_witness :
  let m := array [[0; 0; 255]; [0; 0; 0]; [255; 0; 0]] in
  Router.route_wire
    {| Router.use_generic_detection := true;
       Router.obstacle_detector :=
         {| Router.detector_obstacle_map := Some m;
            Router.original_binary := Some m |};
       Router.current_obstacle_map := Some m |}
    (0, 0) (2, 2) Router.MANHATTAN
  = find_best_path (PathFinder_init m) (0, 0) (2, 2) true.
Proof.
  cbv zeta.
  apply (proj2 (proj2 (manhattan_routing_choice
                         (array [[0; 0; 255]; [0; 0; 0]; [255; 0; 0]]) (0, 0) (2, 2)))).
  reflexivity.
Defined.

(** C4 as stated fails: with both corners of the 3x3 grid blocked neither
    elbow from (0,0) to (2,2) validates, and [manhattan_routing] returns the
    diagonal found by its own call of [a_star], not the empty path. *)
Lemma manhattan_routing_falls_back_itself :
  let self := PathFinder_init (array [[0; 0; 255]; [0; 0; 0]; [255; 0; 0]]) in
  route_horizontal_first self (0, 0) (2, 2) = Ret None /\
  route_vertical_first self (0, 0) (2, 2) = Ret None /\
  manhattan_routing self (0, 0) (2, 2) = Ret [(0, 0); (1, 1); (2, 2)] /\
  manhattan_routing self (0, 0) (2, 2) <> Ret [].
Proof.
  cbv zeta. split; [vm_compute; reflexivity|]. split; [vm_compute; reflexivity|].
  split; [vm_compute; reflexivity|]. vm_compute. discriminate.
Qed.

Module MoveCost.
Import Stdlib.Reals.Rdefinitions Stdlib.Reals.RIneq Stdlib.Reals.R_sqrt.
Import Stdlib.micromega.Lra.

Lemma to_real_10 : to_real 10 = 1%R.
Proof. unfold to_real. lra. Qed.

Lemma to_real_14 : to_real 14 = (14 / 10)%R.
Proof. unfold to_real. lra. Qed.

(** C5 (as the code has it). Every neighbour that [get_neighbors] returns
    is one of the eight cells around the current one.  The cost of the
    move is exactly 1.0 when it is along an axis and exactly 1.4 when it
    is diagonal; the heuristic is the Manhattan distance; and for a
    neighbour that has no score yet the expansion records the score of
    the current cell plus that cost, and pushes it with the heuristic
    added. *)
Theorem a_star_move_cost (m : ndarray) (current neighbor goal : point)
    (neighbors : list point) :
  get_neighbors (PathFinder_init m) current = Ret neighbors ->
  In neighbor neighbors ->
  let dx := Z.abs (fst neighbor - fst current) in
  let dy := Z.abs (snd neighbor - snd current) in
  dx <= 1 /\ dy <= 1 /\ 0 < dx + dy /\
  (dx = 0 \/ dy = 0 -> to_real (move_cost current neighbor) = 1%R) /\
  (dx <> 0 /\ dy <> 0 -> to_real (move_cost current neighbor) = (14 / 10)%R) /\
  heuristic neighbor goal
    = Z.abs (fst neighbor - fst goal) + Z.abs (snd neighbor - snd goal) /\
  (forall st gcur,
     g_score st !! current = Some gcur -> g_score st !! neighbor = None ->
     exists st',
       relax goal current [neighbor] st = Ret st' /\
       g_score st' !! neighbor = Some (gcur + move_cost current neighbor) /\
       open_set st'
       = (gcur + move_cost current neighbor + of_int (heuristic neighbor goal),
          neighbor) :: open_set st).
Proof.
  intros Hl Hin. cbv zeta.
  destruct (get_neighbors_spec m current) as (l & Hl' & Hsteps).
  assert (l = neighbors) by congruence. subst l.
  apply Hsteps in Hin. destruct Hin as ((d & Hd & ->) & _).
  cbn [fst snd].
  assert (Hcases : (Z.abs (fst d) = 0 \/ Z.abs (fst d) = 1) /\
                   (Z.abs (snd d) = 0 \/ Z.abs (snd d) = 1) /\
                   0 < Z.abs (fst d) + Z.abs (snd d)).
  { unfold directions in Hd. cbn [In] in Hd.
    repeat (destruct Hd as [<-|Hd]; [cbn [fst snd]; lia|]). destruct Hd. }
  destruct Hcases as (Hx & Hy & Hpos).
  replace (fst current + fst d - fst current) with (fst d) by lia.
  replace (snd current + snd d - snd current) with (snd d) by lia.
  assert (Hcost : move_cost current (fst current + fst d, snd current + snd d)
                  = if Z.abs (fst d) + Z.abs (snd d) =? 2 then 14 else 10).
  { unfold move_cost. cbn [fst snd].
    replace (fst current + fst d - fst current) with (fst d) by lia.
    replace (snd current + snd d - snd current) with (snd d) by lia.
    reflexivity. }
  split; [lia|]. split; [lia|]. split; [lia|]. split; [|split; [|split]].
  - intros H0. rewrite Hcost.
    replace (Z.abs (fst d) + Z.abs (snd d) =? 2) with false by lia.
    apply to_real_10.
  - intros [H1 H2]. rewrite Hcost.
    replace (Z.abs (fst d) + Z.abs (snd d) =? 2) with true by lia.
    apply to_real_14.
  - reflexivity.
  - intros st gcur Hcur Hnone.
    rewrite (relax_cons goal current _ [] st gcur Hcur). rewrite Hnone.
    eexists. split; [reflexivity|]. split; [|reflexivity].
    cbn [improved g_score]. apply lookup_insert_eq.
Qed.

Lemma a_star_move_cost_witness :
  to_real (move_cost (1, 1) (2, 2)) = (14 / 10)%R /\
  to_real (move_cost (1, 1) (2, 1)) = 1%R.
Proof.
  pose (m := array [[0; 0; 0]; [0; 0; 0]; [0; 0; 0]]).
  assert (Hn : get_neighbors (PathFinder_init m) (1, 1)
               = Ret [(0, 0); (0, 1); (0, 2); (1, 0); (1, 2); (2, 0); (2, 1); (2, 2)])
    by (vm_compute; reflexivity).
  split.
  - refine (proj1 (proj2 (proj2 (proj2 (proj2
              (a_star_move_cost m (1, 1) (2, 2) (0, 0) _ Hn _))))) _).
    + cbn [In]. tauto.
    + cbn [fst snd]. split; lia.
  - refine (proj1 (proj2 (proj2 (proj2
              (a_star_move_cost m (1, 1) (2, 1) (0, 0) _ Hn _)))) _).
    + cbn [In]. tauto.
    + cbn [fst snd]. right. lia.
Defined.

(** C5 as stated fails: the cost of a diagonal move is 1.4, whose square
    is 1.96; it is not the square root of 2. *)
Lemma diagonal_cost_is_not_sqrt2 :
  move_cost (0, 0) (1, 1) = 14 /\
  to_real (move_cost (0, 0) (1, 1)) <> sqrt 2.
Proof.
  split; [reflexivity|].
  change (move_cost (0, 0) (1, 1)) with 14. rewrite to_real_14. intros H.
  assert (Hsq : (14 / 10 * (14 / 10) = 2)%R).
  { rewrite H. apply sqrt_sqrt. lra. }
  lra.
Qed.
End MoveCost.

(** C6. [_can_connect_directly] returns for every pair of points, inside the
    grid or not, and never raises.  The sampled line holds both endpoints,
    starts at [a] and ends at [b].  The answer is [false] exactly when some
    sampled cell lies outside the grid or holds OBSTACLE, and [true] exactly
    when every sampled cell is inside and not OBSTACLE; on a grid that holds
    only FREE and OBSTACLE all of them are then FREE. *)
Theorem can_connect_directly_sound (m : ndarray) (a b : point) :
  exists r : bool,
    _can_connect_directly (PathFinder_init m) a b = Ret r /\
    In a (line_cells a b) /\ In b (line_cells a b) /\
    hd_error (line_cells a b) = Some a /\ List.last (line_cells a b) a = b /\
    (r = false <->
       exists c, In c (line_cells a b) /\ (inside m c = false \/ cell m c = OBSTACLE)) /\
    (r = true <->
       forall c, In c (line_cells a b) -> inside m c = true /\ cell m c <> OBSTACLE) /\
    (binary m -> r = true -> forall c, In c (line_cells a b) -> cell m c = FREE).
Proof.
  exists (los m a b). split; [apply can_connect_spec|]. unfold OBSTACLE, FREE.
  destruct (line_cells_ends a b) as [Ha Hb].
  assert (Htrue : los m a b = true <->
            forall c, In c (line_cells a b) -> inside m c = true /\ cell m c <> OBSTACLE).
  { unfold los. rewrite forallb_forall. unfold passable, OBSTACLE. split.
    - intros H c Hc. specialize (H c Hc). split; [|intros Heq; rewrite Heq in H]; lia.
    - intros H c Hc. destruct (H c Hc) as [H1 H2]. rewrite H1. cbn [andb]. lia. }
  split; [exact Ha|]. split; [exact Hb|].
  split; [destruct (line_cells_hd a b) as [l ->]; reflexivity|].
  split; [apply line_cells_last|].
  split; [split|split; [exact Htrue|]].
  - intros Hf. destruct (forallb_false_In _ _ Hf) as (c & Hc & Ec).
    exists c. split; [exact Hc|]. unfold passable, OBSTACLE in Ec.
    destruct (inside m c); [right; lia|left; reflexivity].
  - intros (c & Hc & Hbad). destruct (los m a b) eqn:E; [|reflexivity].
    apply Htrue in Hc; [|reflexivity]. destruct Hc as [H1 H2].
    unfold OBSTACLE in H2. destruct Hbad; congruence.
  - intros Hbin Hr c Hc. apply Htrue in Hc; [|exact Hr].
    destruct Hc as [H1 H2]. destruct (Hbin c H1) as [H0|H0]; [exact H0|].
    unfold OBSTACLE in H0, H2. congruence.
Qed.

Lemma can_connect_directly_sound_witness :
  let m := array [[0; 255; 0]; [0; 0; 0]] in
  binary m /\
  _can_connect_directly (PathFinder_init m) (0, 1) (2, 0) = Ret true /\
  forall c, In c (line_cells (0, 1) (2, 0)) -> cell m c = FREE.
Proof.
  cbv zeta.
  assert (Hbin : binary (array [[0; 255; 0]; [0; 0; 0]])).
  { intros [x y] Hin. unfold inside in Hin.
    cbn [fst snd array shape0 shape1 length hd] in Hin.
    assert (Hx : x = 0 \/ x = 1 \/ x = 2) by lia.
    assert (Hy : y = 0 \/ y = 1) by lia.
    destruct Hx as [-> | [-> | ->]]; destruct Hy as [-> | ->]; vm_compute; auto. }
  destruct (can_connect_directly_sound (array [[0; 255; 0]; [0; 0; 0]]) (0, 1) (2, 0))
    as (r & Hr & _ & _ & _ & _ & _ & _ & Hfree).
  assert (Htrue : _can_connect_directly (PathFinder_init (array [[0; 255; 0]; [0; 0; 0]]))
                    (0, 1) (2, 0) = Ret true) by (vm_compute; reflexivity).
  split; [exact Hbin|]. split; [exact Htrue|].
  apply (Hfree Hbin). congruence.
Defined.

Module RouterFacts.
Import Stdlib.QArith.QArith Stdlib.QArith.Qround.
Import Router.

Lemma round_half_even_comp (p q : Q) :
  p == q -> round_half_even p = round_half_even q.
Proof.
  intros H. unfold round_half_even. rewrite (Qfloor_comp p q H).
  assert (Hc : (p - inject_Z (Qfloor q) ?= 1 # 2) = (q - inject_Z (Qfloor q) ?= 1 # 2)).
  { apply Qcompare_comp; [|reflexivity]. rewrite H. reflexivity. }
  rewrite Hc. reflexivity.
Qed.

Lemma py_round_comp (p q : Q) (ndigits : nat) :
  p == q -> py_round p ndigits = py_round q ndigits.
Proof.
  intros H. unfold py_round. f_equal. apply round_half_even_comp.
  rewrite H. reflexivity.
Qed.

End RouterFacts.

Module Router64Facts.
Import Stdlib.Floats.PrimFloat.
Import Router Router64 Router64Sample.

Section CreatedMap.
Variable color_image : Type.
Variable structuring_element : Type.
Variable cvtColor : color_image -> res ndarray.
Variable adaptiveThreshold : ndarray -> Z -> Z -> Z -> res ndarray.
Variable getStructuringElement : Z -> Z -> res structuring_element.
Variable dilate : ndarray -> structuring_element -> res ndarray.
Variable color_shape : color_image -> nat * nat.
Hypothesis Hkeeps :
  keeps_size color_image structuring_element cvtColor adaptiveThreshold dilate
    color_shape.

(** The map that [create_obstacle_map] returns has the size of the
    image, OpenCV keeping the size at every step. *)
Lemma create_obstacle_map_shape (self self' : GenericObstacleDetector)
    (img : image color_image) (dilation_size safety_padding : Z) (map : ndarray) :
  create_obstacle_map color_image structuring_element cvtColor adaptiveThreshold
    getStructuringElement dilate self img dilation_size safety_padding
  = Ret (self', map) ->
  (shape0 map, shape1 map) = image_shape color_image color_shape img.
Proof.
  destruct Hkeeps as (Hcvt & Hthr & Hdil).
  unfold create_obstacle_map. intros Hrun.
  destruct (match img with Color _ c => cvtColor c | Gray _ a => Ret a end)
    as [gray| |] eqn:Egray; cbn [bind] in Hrun; try discriminate.
  assert (Hgray : (shape0 gray, shape1 gray) = image_shape color_image color_shape img).
  { destruct img as [a|c]; cbn [image_shape].
    - injection Egray as ->. reflexivity.
    - apply (Hcvt c gray Egray). }
  destruct (adaptiveThreshold gray 255 11 2) as [binary| |] eqn:Ebin;
    cbn [bind] in Hrun; try discriminate.
  destruct (Hthr _ _ _ _ _ Ebin) as [Hb0 Hb1].
  destruct (getStructuringElement dilation_size dilation_size) as [kernel| |];
    cbn [bind] in Hrun; try discriminate.
  destruct (dilate binary kernel) as [dilated| |] eqn:Edil;
    cbn [bind] in Hrun; try discriminate.
  destruct (Hdil _ _ _ Edil) as [Hd0 Hd1].
  destruct (safety_padding >? 0).
  - destruct (getStructuringElement (safety_padding * 2 + 1) (safety_padding * 2 + 1))
      as [padding_kernel| |]; cbn [bind] in Hrun; try discriminate.
    destruct (dilate dilated padding_kernel) as [padded| |] eqn:Epad;
      cbn [bind] in Hrun; try discriminate.
    destruct (Hdil _ _ _ Epad) as [Hp0 Hp1].
    injection Hrun as _ <-. rewrite <- Hgray. congruence.
  - cbn [bind] in Hrun. injection Hrun as _ <-. rewrite <- Hgray. congruence.
Qed.
End CreatedMap.

(** [round] on floats, on values whose rounding Python documents or that
    are exact ties: [round(2.675, 2)] is 2.67, the float 2.675 being below
    the decimal; [round(0.125, 2)] is 0.12 and [round(0.375, 2)] is 0.38,
    the ties going to the even digit; [round(14.374999999999998, 2)] is
    14.37. *)
Lemma py_round_examples :
  py_round (decimal 2675 3) 2 = decimal 267 2 /\
  py_round (decimal 125 3) 2 = decimal 12 2 /\
  py_round (decimal 375 3) 2 = decimal 38 2 /\
  py_round (PrimFloat.mul (PrimFloat.div (of_int 23) (of_int 160)) (of_int 100)) 2
  = decimal 1437 2 /\
  py_round (PrimFloat.div (of_int 2300) (of_int 160)) 2 = decimal 1438 2.
Proof. repeat split; vm_compute; reflexivity. Qed.

(** C8 (as the code has it). OpenCV keeping the size of the images it is
    given: whenever [analyze_circuit] (generic detection) returns for an
    image of width W and height H, the map it returns and keeps has that
    width and height, the two counts add up to W x H, there is at least
    one pixel, and the coverage is
    [round(obstacle_pixels / (obstacle_pixels + free_pixels) * 100, 2)],
    the division, the product and the rounding being done one after the
    other in binary64.  And it does return whenever the detector returns
    for an image of at least one pixel. *)
Theorem analyze_circuit_counts
    (color_image structuring_element : Type)
    (cvtColor : color_image -> res ndarray)
    (adaptiveThreshold : ndarray -> Z -> Z -> Z -> res ndarray)
    (getStructuringElement : Z -> Z -> res structuring_element)
    (dilate : ndarray -> structuring_element -> res ndarray)
    (color_shape : color_image -> nat * nat)
    (self : SmartWireRouter)
    (img : image color_image) (dilation_size safety_padding : Z)
    (H W : nat) :
  keeps_size color_image structuring_element cvtColor adaptiveThreshold dilate
    color_shape ->
  image_shape color_image color_shape img = (H, W) ->
  Z.of_nat W * Z.of_nat H < 2 ^ 53 ->
  (forall self' r,
     analyze_circuit color_image structuring_element cvtColor adaptiveThreshold
       getStructuringElement dilate self img dilation_size safety_padding
     = Ret (self', r) ->
     current_obstacle_map self' = Some (analysis_obstacle_map r) /\
     shape0 (analysis_obstacle_map r) = H /\
     shape1 (analysis_obstacle_map r) = W /\
     obstacle_pixels r = count_nonzero (analysis_obstacle_map r) /\
     free_pixels r = count_nonzero (equals_zero (analysis_obstacle_map r)) /\
     obstacle_pixels r + free_pixels r = Z.of_nat W * Z.of_nat H /\
     0 <= obstacle_pixels r /\ 0 <= free_pixels r /\
     0 < Z.of_nat W * Z.of_nat H /\
     coverage r
     = py_round
         (PrimFloat.mul
            (PrimFloat.div (of_int (obstacle_pixels r))
                           (of_int (obstacle_pixels r + free_pixels r)))
            (of_int 100)) 2) /\
  (forall detector current,
     use_generic_detection self = true ->
     create_obstacle_map color_image structuring_element cvtColor
       adaptiveThreshold getStructuringElement dilate
       (obstacle_detector self) img dilation_size safety_padding
     = Ret (detector, current) ->
     (0 < H * W)%nat ->
     exists self' r,
       analyze_circuit color_image structuring_element cvtColor adaptiveThreshold
         getStructuringElement dilate self img dilation_size safety_padding
       = Ret (self', r) /\
       analysis_obstacle_map r = current).
Proof.
  intros Hkeeps Hshape Hsmall. split.
  - intros self' r. unfold analyze_circuit.
    destruct (use_generic_detection self); [|discriminate].
    destruct (create_obstacle_map _ _ _ _ _ _ _ _ _ _) as [[det current]| |] eqn:Emade;
      cbn [bind fst snd]; try discriminate.
    pose proof (create_obstacle_map_shape _ _ _ _ _ _ _ Hkeeps _ _ _ _ _ _ Emade)
      as Hmap.
    rewrite Hshape in Hmap. injection Hmap as Hm0 Hm1.
    unfold true_div.
    destruct (count_nonzero current + count_nonzero (equals_zero current) =? 0) eqn:Ez;
      cbn [bind]; [discriminate|].
    intros [= <- <-].
    cbn [current_obstacle_map analysis_obstacle_map obstacle_pixels free_pixels coverage].
    pose proof (count_partition current) as Hsum. rewrite Hm0, Hm1 in Hsum.
    assert (Hnn : 0 <= count_nonzero current /\ 0 <= count_nonzero (equals_zero current))
      by (unfold count_nonzero, len; lia).
    repeat (split; [first [reflexivity|assumption|lia]|]).
    reflexivity.
  - intros detector current Hgen Hmade Hsize. unfold analyze_circuit.
    rewrite Hgen, Hmade. cbn [bind fst snd]. unfold true_div.
    pose proof (create_obstacle_map_shape _ _ _ _ _ _ _ Hkeeps _ _ _ _ _ _ Hmade)
      as Hmap.
    rewrite Hshape in Hmap. injection Hmap as Hm0 Hm1.
    pose proof (count_partition current) as Hsum. rewrite Hm0, Hm1 in Hsum.
    replace (count_nonzero current + count_nonzero (equals_zero current) =? 0)
      with false by nia.
    cbn [bind]. eexists _, _. split; reflexivity.
Qed.

Lemma analyze_circuit_counts_witness :
  exists self' r,
    analyze_sample = Ret (self', r) /\
    obstacle_pixels r = 23 /\ free_pixels r = 137 /\
    obstacle_pixels r + free_pixels r = 16 * 10 /\
    coverage r = decimal 1437 2.
Proof.
  destruct (analyze_circuit_counts ndarray unit (fun c => Ret c)
              (fun a _ _ _ => Ret a) (fun _ _ => Ret tt) (fun a _ => Ret a)
              (fun a => (shape0 a, shape1 a))
              {| use_generic_detection := true;
                 obstacle_detector := {| detector_obstacle_map := None;
                                         original_binary := None |};
                 current_obstacle_map := None |}
              (Gray ndarray sample_image) 7 5 10%nat 16%nat)
    as [Hcounts Hreturns].
  - split; [|split].
    + intros c g [= ->]. reflexivity.
    + intros a mx bs C r [= ->]. split; reflexivity.
    + intros a k r [= ->]. split; reflexivity.
  - reflexivity.
  - reflexivity.
  - destruct (Hreturns _ sample_image eq_refl eq_refl) as (self' & r & Hrun & Hmap);
      [cbn; lia|].
    exists self', r. split; [exact Hrun|].
    destruct (Hcounts self' r Hrun)
      as (_ & _ & _ & Ho & Hf & Hsum & _ & _ & _ & Hcov).
    rewrite Hmap in Ho, Hf.
    assert (Ho' : obstacle_pixels r = 23) by (rewrite Ho; vm_compute; reflexivity).
    assert (Hf' : free_pixels r = 137) by (rewrite Hf; vm_compute; reflexivity).
    split; [exact Ho'|]. split; [exact Hf'|]. split; [exact Hsum|].
    rewrite Hcov, Ho', Hf'. vm_compute. reflexivity.
Defined.

(** C8 as stated fails: on this image 23 pixels of 160 are obstacles.  The
    claim's [100 * 23 / 160] is 14.375, a tie that rounds to 14.38, in
    binary64 as in exact arithmetic.  The code divides first:
    [23 / 160] is rounded to a float just below 0.14375, its product by
    100 is 14.374999999999998, and the coverage returned is 14.37. *)
Lemma analyze_circuit_coverage_is_not_the_claimed :
  exists self' r,
    analyze_sample = Ret (self', r) /\
    obstacle_pixels r = 23 /\ free_pixels r = 137 /\
    coverage r = decimal 1437 2 /\
    py_round (PrimFloat.div (of_int (100 * obstacle_pixels r))
                            (of_int (obstacle_pixels r + free_pixels r))) 2
    = decimal 1438 2 /\
    Router.py_round
      (QArith_base.Qdiv (QArith_base.inject_Z (100 * obstacle_pixels r))
                        (QArith_base.inject_Z (obstacle_pixels r + free_pixels r))) 2
    = QArith_base.Qmake 1438 100 /\
    coverage r
    <> py_round (PrimFloat.div (of_int (100 * obstacle_pixels r))
                               (of_int (obstacle_pixels r + free_pixels r))) 2.
Proof.
  eexists _, _. split; [vm_compute; reflexivity|].
  cbn [obstacle_pixels free_pixels coverage].
  split; [reflexivity|]. split; [reflexivity|].
  split; [vm_compute; reflexivity|]. split; [vm_compute; reflexivity|].
  split; [vm_compute; reflexivity|].
  intros E.
  apply (f_equal (fun x => PrimFloat.eqb x (decimal 1438 2))) in E.
  vm_compute in E. discriminate.
Qed.
End Router64Facts.


(** C9 (as the code has it). A second pass of [optimize_path] over the
    result of a first one changes nothing exactly when that result has no
    shortcut: no waypoint of it sees both its successor and the waypoint
    after that.  (A result of fewer than three points has none.) *)
Theorem optimize_path_idempotent_without_shortcut
    (m : ndarray) (P Q : list point) :
  optimize_path (PathFinder_init m) P = Ret Q ->
  (optimize_path (PathFinder_init m) Q = Ret Q <->
   shortcut_free (PathFinder_init m) Q).
Proof.
  intros _. split.
  - intros Hfix k a b c Ha Hb Hc Hab.
    rewrite can_connect_spec in *. fold (los m a b) in Hab. fold (los m a c).
    injection Hab as Lab.
    destruct (los m a c) eqn:Lac; [exfalso|reflexivity].
    assert (Hlong : 3 <= len Q).
    { assert (S (S k) < length Q)%nat by (apply nth_error_Some; congruence).
      unfold len. lia. }
    destruct (optimize_path_long m Q Hlong) as (Q' & HQ' & Hloop & _).
    assert (Q' = Q) by congruence. subst Q'.
    assert (len Q < len Q); [|lia].
    apply (optimize_loop_shorter m Q (Z.of_nat k) a b c (S (length Q))
             ltac:(lia)
             ltac:(rewrite Nat2Z.id; exact Ha)
             ltac:(replace (Z.to_nat (Z.of_nat k + 1)) with (S k) by lia; exact Hb)
             ltac:(replace (Z.to_nat (Z.of_nat k + 2)) with (S (S k)) by lia; exact Hc)
             Lab Lac 0 (firstn 1 Q) Q Hloop); [lia|].
    right. split; [lia|]. unfold len. rewrite length_firstn. lia.
  - intros Hsf.
    destruct (Z_lt_le_dec (len Q) 3) as [Hshort|Hlong].
    + unfold optimize_path. replace (len Q <? 3) with true by lia. reflexivity.
    + destruct (optimize_path_long m Q Hlong) as (Q' & HQ' & Hloop & _).
      rewrite HQ'. rewrite <- Hloop.
      apply (optimize_loop_fixed m Q (S (length Q)) Hsf 0); unfold len in *; lia.
Qed.

Lemma optimize_path_idempotent_without_shortcut_witness :
  let self := PathFinder_init (array [[0; 0; 0]; [0; 255; 0]; [0; 0; 0]]) in
  optimize_path self [(0, 0); (2, 1); (2, 2)] = Ret [(0, 0); (2, 1); (2, 2)].
Proof.
  cbv zeta.
  apply (optimize_path_idempotent_without_shortcut
           (array [[0; 0; 0]; [0; 255; 0]; [0; 0; 0]])
           [(0, 0); (1, 0); (2, 0); (2, 1); (2, 2)]
           [(0, 0); (2, 1); (2, 2)]).
  - vm_compute. reflexivity.
  - intros k a b c Ha Hb Hc Hab.
    destruct k as [|[|k]]; cbn in Ha, Hb, Hc; try discriminate.
    injection Ha as <-. injection Hc as <-. vm_compute. reflexivity.
Defined.

(** C9 as stated fails: around a single obstacle in the middle of a 3x3
    grid, the first pass keeps four waypoints of a U-shaped path and the
    second pass reduces them to two. *)
Lemma optimize_path_not_idempotent :
  let self := PathFinder_init (array [[0; 0; 0]; [0; 255; 0]; [0; 0; 0]]) in
  let P := [(0, 0); (1, 0); (2, 0); (2, 1); (2, 2); (1, 2); (0, 2)] in
  optimize_path self P = Ret [(0, 0); (2, 1); (1, 2); (0, 2)] /\
  optimize_path self [(0, 0); (2, 1); (1, 2); (0, 2)] = Ret [(0, 0); (0, 2)] /\
  (do Q <- optimize_path self P; optimize_path self Q) <> optimize_path self P.
Proof.
  cbv zeta. split; [vm_compute; reflexivity|].
  split; [vm_compute; reflexivity|].
  vm_compute. discriminate.
Qed.

(** C10. Whatever arrangement the heap gives to the frontier, all the runs
    of [a_star] on a grid, a start and a goal return the same path, the one
    the model computes: the tuple popped is the least one, and two tuples of
    equal score are ordered by their coordinates, x first and y next. *)
Theorem a_star_deterministic (self : PathFinder) (start goal : point) :
  (forall r1 r2,
     run self start goal (initial_state start goal) r1 ->
     run self start goal (initial_state start goal) r2 -> r1 = r2) /\
  (forall r, a_star self start goal = Ret r ->
             run self start goal (initial_state start goal) r) /\
  (forall h h' e e' rest rest',
     Permutation h h' -> pops h e rest -> pops h' e' rest' -> e = e') /\
  (forall f p q, entry_ltb (f, p) (f, q) = point_ltb p q).
Proof.
  split; [|split; [|split]].
  - intros r1 r2 H1 H2.
    apply (run_deterministic self start goal _ r1 H1 _ r2 (same_state_refl _) H2).
  - intros r Hr. apply (search_loop_run self start goal _ _ r Hr).
  - intros h h' e e' rest rest' Hperm H1 H2.
    apply (pops_unique _ _ _ _ _ _ Hperm H1 H2).
  - intros f p q. unfold entry_ltb. cbn [fst snd]. rewrite Z.eqb_refl. reflexivity.
Qed.

Lemma a_star_deterministic_witness :
  let self := PathFinder_init (array [[0; 0; 255]; [0; 0; 0]; [255; 0; 0]]) in
  run self (0, 0) (2, 2) (initial_state (0, 0) (2, 2)) [(0, 0); (1, 1); (2, 2)] /\
  forall r, run self (0, 0) (2, 2) (initial_state (0, 0) (2, 2)) r ->
            r = [(0, 0); (1, 1); (2, 2)].
Proof.
  cbv zeta.
  pose proof (a_star_deterministic
                (PathFinder_init (array [[0; 0; 255]; [0; 0; 0]; [255; 0; 0]]))
                (0, 0) (2, 2)) as (Hdet & Hrun & _).
  assert (H : run (PathFinder_init (array [[0; 0; 255]; [0; 0; 0]; [255; 0; 0]]))
                (0, 0) (2, 2) (initial_state (0, 0) (2, 2)) [(0, 0); (1, 1); (2, 2)]).
  { apply Hrun. vm_compute. reflexivity. }
  split; [exact H|]. intros r Hr. apply (Hdet r _ Hr H).
Defined.

(* ================================================================== *)
(** ** Further properties *)

(* ------------------------------------------------------------------ *)
(** *** The sampled line *)

Lemma adjacent_cons {A : Type} (x : A) (l : list A) (a b : A) :
  adjacent (x :: l) a b <-> (a = x /\ hd_error l = Some b) \/ adjacent l a b.
Proof.
  split.
  - intros (k & Ha & Hb). destruct k as [|k].
    + left. cbn in Ha, Hb. injection Ha as <-. split; [reflexivity|].
      destruct l; [discriminate|]. cbn in Hb. cbn. exact Hb.
    + right. exists k. split; [exact Ha|exact Hb].
  - intros [[-> Hb]|(k & Ha & Hb)].
    + exists 0%nat. split; [reflexivity|]. destruct l; [discriminate|]. exact Hb.
    + exists (S k). split; [exact Ha|exact Hb].
Qed.

Section WalkGeometry.
Variables x1 y1 dx dy x_step y_step : Z.

Lemma advance_king (a b x y err : Z) :
  walk_inv x1 y1 dx dy x_step y_step a b x y err ->
  (x =? x1) && (y =? y1) = false ->
  king_move (x, y)
    ((advance dx dy x_step y_step x y err).1.1,
     (advance dx dy x_step y_step x y err).1.2).
Proof.
  intros Hinv Hne. pose proof Hinv as (Ha & Hb & He & Hx & Hy & Hsx & Hsy).
  assert (Hdx : 0 <= dx) by lia. assert (Hdy : 0 <= dy) by lia.
  destruct (walk_inv_advance x1 y1 dx dy x_step y_step Hdx Hdy a b x y err Hinv Hne)
    as (a' & b' & Hinv' & Hm).
  destruct Hinv' as (Ha' & Hb' & _ & Hx' & Hy' & _).
  revert Hx' Hy'. unfold advance, king_move.
  destruct (2 * err >? - dy); destruct (2 * err <? dx); cbn [fst snd];
    intros Hx' Hy'; (split; [lia|split; [lia|]]); intros E; inversion E; nia.
Qed.

Lemma line_loop_box (fuel : nat) : forall a b x y err c,
  walk_inv x1 y1 dx dy x_step y_step a b x y err ->
  In c (line_loop x1 y1 dx dy x_step y_step fuel x y err) ->
  in_box (x, y) (x1, y1) c.
Proof.
  induction fuel as [|fuel IH]; intros a b x y err c Hinv Hc; [destruct Hc|].
  cbn [line_loop] in Hc. destruct Hc as [<-|Hc].
  - unfold in_box. cbn [fst snd]. lia.
  - destruct ((x =? x1) && (y =? y1)) eqn:E; [destruct Hc|].
    pose proof Hinv as (Ha & Hb & _ & Hx & Hy & Hsx & Hsy).
    destruct (walk_inv_advance x1 y1 dx dy x_step y_step ltac:(lia) ltac:(lia)
                a b x y err Hinv E) as (a' & b' & Hinv' & Hm).
    pose proof (advance_king a b x y err Hinv E) as Hk.
    destruct (advance dx dy x_step y_step x y err) as [[x' y'] err'].
    cbn [fst snd] in *.
    specialize (IH a' b' x' y' err' c Hinv' Hc).
    destruct Hinv' as (Ha' & Hb' & _ & Hx' & Hy' & _).
    unfold in_box, king_move in *. cbn [fst snd] in *. nia.
Qed.

Lemma line_loop_king (fuel : nat) : forall a b x y err p q,
  walk_inv x1 y1 dx dy x_step y_step a b x y err ->
  adjacent (line_loop x1 y1 dx dy x_step y_step fuel x y err) p q ->
  king_move p q.
Proof.
  induction fuel as [|fuel IH]; intros a b x y err p q Hinv Hadj.
  - destruct Hadj as (k & Hk & _). destruct k; discriminate.
  - cbn [line_loop] in Hadj. apply adjacent_cons in Hadj.
    destruct ((x =? x1) && (y =? y1)) eqn:E.
    + destruct Hadj as [[_ Hq]|(k & Hk & _)]; [discriminate|destruct k; discriminate].
    + pose proof Hinv as (Ha & Hb & _).
      destruct (walk_inv_advance x1 y1 dx dy x_step y_step ltac:(lia) ltac:(lia)
                  a b x y err Hinv E) as (a' & b' & Hinv' & Hm).
      pose proof (advance_king a b x y err Hinv E) as Hk.
      destruct (advance dx dy x_step y_step x y err) as [[x' y'] err'].
      cbn [fst snd] in *.
      destruct Hadj as [[-> Hq]|Hadj].
      * destruct fuel as [|fuel]; [discriminate|].
        cbn [line_loop hd_error] in Hq. injection Hq as <-. exact Hk.
      * apply (IH a' b' x' y' err' p q Hinv' Hadj).
Qed.
End WalkGeometry.

Lemma line_cells_in_box (a b c : point) :
  In c (line_cells a b) -> in_box a b c.
Proof.
  destruct a as [x0 y0], b as [x1 y1]. unfold line_cells.
  apply line_loop_box with (a := 0) (b := 0).
  apply (walk_inv_start (x0, y0) (x1, y1)).
Qed.

Lemma line_cells_king (a b p q : point) :
  adjacent (line_cells a b) p q -> king_move p q.
Proof.
  destruct a as [x0 y0], b as [x1 y1]. unfold line_cells.
  apply line_loop_king with (a := 0) (b := 0).
  apply (walk_inv_start (x0, y0) (x1, y1)).
Qed.

Lemma in_box_inside (m : ndarray) (a b c : point) :
  inside m a = true -> inside m b = true -> in_box a b c -> inside m c = true.
Proof. unfold inside, in_box. intros Ha Hb Hc. lia. Qed.

(** X1. The line that [_can_connect_directly] samples moves by one cell at
    a time, to one of the eight cells around, and stays in the rectangle
    spanned by its two ends; so between two points inside the grid no
    sampled cell is outside of it. *)
Theorem line_cells_geometry (m : ndarray) (a b : point) :
  (forall p q, adjacent (line_cells a b) p q -> king_move p q) /\
  (forall c, In c (line_cells a b) -> in_box a b c) /\
  (inside m a = true -> inside m b = true ->
   forall c, In c (line_cells a b) -> inside m c = true).
Proof.
  split; [apply line_cells_king|]. split; [apply line_cells_in_box|].
  intros Ha Hb c Hc. apply (in_box_inside m a b c Ha Hb), line_cells_in_box, Hc.
Qed.

Lemma line_cells_geometry_witness :
  line_cells (0, 1) (2, 0) = [(0, 1); (1, 1); (2, 0)] /\
  inside (array [[0; 255; 0]; [0; 0; 0]]) (1, 1) = true.
Proof.
  split; [reflexivity|].
  apply (proj2 (proj2 (line_cells_geometry (array [[0; 255; 0]; [0; 0; 0]])
                         (0, 1) (2, 0))));
    [reflexivity|reflexivity|right; left; reflexivity].
Defined.


(* ------------------------------------------------------------------ *)
(** *** The path of [a_star], move by move *)



Lemma reconstruct_chain (cf : gmap point point) (fuel : nat) :
  forall cur path out,
    reconstruct fuel cf cur path = Ret out ->
    exists chain final,
      out = path ++ chain /\ is_chain cf cur chain final /\ cf !! final = None.
Proof.
  induction fuel as [|fuel IH]; intros cur path out Hrun; [discriminate|].
  cbn [reconstruct] in Hrun. destruct (cf !! cur) as [p|] eqn:Ep.
  - unfold dict_get in Hrun. rewrite Ep in Hrun. cbn [bind] in Hrun.
    destruct (IH p (path ++ [cur]) out Hrun) as (chain & final & -> & Hch & Hf).
    exists (cur :: chain), final. split; [rewrite <- app_assoc; reflexivity|].
    split; [|exact Hf]. cbn [is_chain]. split; [reflexivity|].
    exists p. split; [exact Ep|exact Hch].
  - injection Hrun as <-. exists [], cur.
    split; [rewrite app_nil_r; reflexivity|]. split; [reflexivity|exact Ep].
Qed.


Lemma chain_final_known (m : ndarray) (start : point) (st : search) :
  search_inv m start st ->
  forall chain cur final,
    is_Some (g_score st !! cur) ->
    is_chain (came_from st) cur chain final ->
    is_Some (g_score st !! final).
Proof.
  intros Hinv. induction chain as [|c rest IH]; intros cur final Hcur Hch.
  - cbn in Hch. subst final. exact Hcur.
  - cbn [is_chain] in Hch. destruct Hch as (-> & p & Ep & Hrest).
    destruct (inv_parent _ _ _ Hinv _ _ Ep) as (gc & gp & _ & Hp & _).
    apply (IH p final); [exists gp; exact Hp|exact Hrest].
Qed.

Lemma improved_links (m : ndarray) (start goal current n : point) (t : Z)
    (st : search) :
  links_inv m start st -> step m current n ->
  links_inv m start (improved goal current n t st).
Proof.
  intros [Hs Hk] Hstep. split; cbn [improved came_from g_score].
  - intros c p Hc. destruct (decide (c = n)) as [->|Hne].
    + rewrite lookup_insert_eq in Hc. injection Hc as <-. exact Hstep.
    + rewrite lookup_insert_ne in Hc by congruence. apply (Hs c p Hc).
  - intros c Hc. destruct (decide (c = n)) as [->|Hne].
    + right. rewrite lookup_insert_eq. eexists; reflexivity.
    + rewrite lookup_insert_ne in Hc by congruence.
      rewrite lookup_insert_ne by congruence. apply (Hk c Hc).
Qed.

Lemma relax_links (m : ndarray) (start goal current : point)
    (neighbors : list point) : forall st st',
  (forall n, In n neighbors -> step m current n) ->
  links_inv m start st ->
  relax goal current neighbors st = Ret st' ->
  links_inv m start st'.
Proof.
  induction neighbors as [|n rest IH]; intros st st' Hsteps Hlinks Hrun.
  - injection Hrun as <-. exact Hlinks.
  - destruct (g_score st !! current) as [gcur|] eqn:Ecur.
    + rewrite (relax_cons goal current n rest st gcur Ecur) in Hrun.
      assert (Hrest : forall n', In n' rest -> step m current n')
        by (intros n' Hn'; apply Hsteps; right; exact Hn').
      destruct (match g_score st !! n with
                | Some gn => gcur + move_cost current n <? gn
                | None => true
                end).
      * eapply (IH _ st' Hrest); [|exact Hrun].
        apply improved_links; [exact Hlinks|apply Hsteps; left; reflexivity].
      * apply (IH st st' Hrest Hlinks Hrun).
    + cbn [relax] in Hrun. unfold dict_get in Hrun. rewrite Ecur in Hrun.
      discriminate.
Qed.


Lemma initial_links (m : ndarray) (start goal : point) :
  links_inv m start (initial_state start goal).
Proof.
  split; cbn [initial_state came_from g_score].
  - intros c p Hc. rewrite lookup_empty in Hc. discriminate.
  - intros c [g Hc]. apply lookup_singleton_Some in Hc. left. symmetry. apply Hc.
Qed.





(* ------------------------------------------------------------------ *)
(** *** Line of sight between cells next to each other *)







(* ------------------------------------------------------------------ *)
(** *** The shape of an elbow *)

Lemma adjacent_app {A : Type} (l1 l2 : list A) (a b : A) :
  adjacent (l1 ++ l2) a b ->
  adjacent l1 a b \/ adjacent l2 a b \/
  (l1 <> [] /\ (forall d, List.last l1 d = a) /\ hd_error l2 = Some b).
Proof.
  induction l1 as [|x l1 IH]; intros Hadj; [right; left; exact Hadj|].
  cbn [app] in Hadj. apply adjacent_cons in Hadj.
  destruct Hadj as [[-> Hb]|Hadj].
  - destruct l1 as [|y l1].
    + right. right. split; [discriminate|]. split; [reflexivity|exact Hb].
    + left. cbn in Hb. injection Hb as ->. exists 0%nat. split; reflexivity.
  - destruct (IH Hadj) as [H|[H|(Hne & Hl & Hh)]].
    + left. apply adjacent_cons. right. exact H.
    + right. left. exact H.
    + right. right. split; [discriminate|]. split; [|exact Hh].
      intros d. destruct l1 as [|y l1]; [congruence|]. apply (Hl d).
Qed.

Lemma adjacent_map {A B : Type} (f : A -> B) (l : list A) (a b : B) :
  adjacent (map f l) a b ->
  exists a' b', adjacent l a' b' /\ a = f a' /\ b = f b'.
Proof.
  intros (k & Ha & Hb). rewrite nth_error_map in Ha, Hb.
  destruct (nth_error l k) as [a'|] eqn:Ea; [|discriminate].
  destruct (nth_error l (S k)) as [b'|] eqn:Eb; [|discriminate].
  cbn in Ha, Hb. injection Ha as <-. injection Hb as <-.
  exists a', b'. split; [exists k; split; assumption|]. split; reflexivity.
Qed.

Lemma adjacent_tl {A : Type} (l : list A) (a b : A) :
  adjacent (tl l) a b -> adjacent l a b.
Proof.
  destruct l as [|x l]; [intros H; exact H|]. cbn [tl]. intros H.
  apply adjacent_cons. right. exact H.
Qed.


Lemma adjacent_span (a b u v : Z) :
  adjacent (span a b) u v -> v = u + toward a b.
Proof.
  unfold span. intros H. apply adjacent_map in H.
  destruct H as (k & k' & (i & Hk & Hk') & -> & ->).
  rewrite nth_error_seq in Hk, Hk'.
  destruct (i <? _)%nat; [|discriminate].
  destruct (S i <? _)%nat; [|discriminate].
  injection Hk as <-. injection Hk' as <-. lia.
Qed.

Lemma in_span (a b u : Z) :
  In u (span a b) -> Z.min a b <= u <= Z.max a b.
Proof.
  unfold span. intros H. apply in_map_iff in H. destruct H as (k & <- & Hk).
  apply in_seq in Hk. unfold toward. destruct (b >? a) eqn:E; lia.
Qed.

Lemma in_tl {A : Type} (l : list A) (x : A) : In x (tl l) -> In x l.
Proof. destruct l; [intros []|intros H; right; exact H]. Qed.

Lemma hd_tl_span (a b v : Z) :
  hd_error (tl (span a b)) = Some v -> v = a + toward a b.
Proof.
  intros H. apply (adjacent_span a b a v).
  destruct (span_hd a b) as [l E]. rewrite E in *. cbn [tl] in H.
  exists 0%nat. split; [reflexivity|]. destruct l; [discriminate|exact H].
Qed.

Lemma hd_error_map {A B : Type} (f : A -> B) (l : list A) (b : B) :
  hd_error (map f l) = Some b -> exists a, hd_error l = Some a /\ b = f a.
Proof.
  destruct l as [|a l]; [discriminate|]. cbn. intros [= <-]. exists a. auto.
Qed.

Lemma elbow_h_axis (s g a b : point) :
  adjacent (elbow_h s g) a b -> axis_move a b.
Proof.
  destruct s as [x1 y1], g as [x2 y2]. unfold elbow_h, axis_move. cbn [fst snd].
  intros H. apply adjacent_app in H. destruct H as [H|[H|(Hne & Hl & Hh)]].
  - apply adjacent_map in H. destruct H as (u & v & Huv & -> & ->).
    apply adjacent_span in Huv. cbn [fst snd].
    pose proof (toward_unit x1 x2). lia.
  - apply adjacent_map in H. destruct H as (u & v & Huv & -> & ->).
    apply adjacent_tl, adjacent_span in Huv. cbn [fst snd].
    pose proof (toward_unit y1 y2). lia.
  - specialize (Hl (x1, y1)).
    rewrite (last_map_nonempty _ _ x1) in Hl by apply span_nonempty.
    rewrite span_last in Hl. subst a.
    apply hd_error_map in Hh. destruct Hh as (v & Hv & ->).
    apply hd_tl_span in Hv. cbn [fst snd].
    pose proof (toward_unit y1 y2). lia.
Qed.

Lemma elbow_v_axis (s g a b : point) :
  adjacent (elbow_v s g) a b -> axis_move a b.
Proof.
  destruct s as [x1 y1], g as [x2 y2]. unfold elbow_v, axis_move. cbn [fst snd].
  intros H. apply adjacent_app in H. destruct H as [H|[H|(Hne & Hl & Hh)]].
  - apply adjacent_map in H. destruct H as (u & v & Huv & -> & ->).
    apply adjacent_span in Huv. cbn [fst snd].
    pose proof (toward_unit y1 y2). lia.
  - apply adjacent_map in H. destruct H as (u & v & Huv & -> & ->).
    apply adjacent_tl, adjacent_span in Huv. cbn [fst snd].
    pose proof (toward_unit x1 x2). lia.
  - specialize (Hl (x1, y1)).
    rewrite (last_map_nonempty _ _ y1) in Hl by apply span_nonempty.
    rewrite span_last in Hl. subst a.
    apply hd_error_map in Hh. destruct Hh as (v & Hv & ->).
    apply hd_tl_span in Hv. cbn [fst snd].
    pose proof (toward_unit x1 x2). lia.
Qed.

Lemma elbow_h_box (s g c : point) : In c (elbow_h s g) -> in_box s g c.
Proof.
  destruct s as [x1 y1], g as [x2 y2]. unfold elbow_h, in_box. cbn [fst snd].
  intros H. apply in_app_or in H. destruct H as [H|H];
    apply in_map_iff in H; destruct H as (u & <- & Hu); cbn [fst snd].
  - apply in_span in Hu. lia.
  - apply in_tl, in_span in Hu. lia.
Qed.

Lemma elbow_v_box (s g c : point) : In c (elbow_v s g) -> in_box s g c.
Proof.
  destruct s as [x1 y1], g as [x2 y2]. unfold elbow_v, in_box. cbn [fst snd].
  intros H. apply in_app_or in H. destruct H as [H|H];
    apply in_map_iff in H; destruct H as (u & <- & Hu); cbn [fst snd].
  - apply in_span in Hu. lia.
  - apply in_tl, in_span in Hu. lia.
Qed.


Lemma route_some_elbow (m : ndarray) (s g : point) (p : list point) :
  route_horizontal_first (PathFinder_init m) s g = Ret (Some p) \/
  route_vertical_first (PathFinder_init m) s g = Ret (Some p) ->
  p = elbow_h s g \/ p = elbow_v s g.
Proof.
  intros [H|H].
  - rewrite route_horizontal_first_spec in H.
    destruct (forallb _ _); [|discriminate]. left. congruence.
  - rewrite route_vertical_first_spec in H.
    destruct (forallb _ _); [|discriminate]. right. congruence.
Qed.

(** X3. A route that [route_horizontal_first] or [route_vertical_first]
    accepts runs cell by cell: it has [|dx| + |dy| + 1] points, the first
    is the start, the last is the goal, every point is one step along one
    axis from the one before, and none leaves the rectangle spanned by
    start and goal. *)
Theorem elbow_route_shape (m : ndarray) (s g : point) (p : list point) :
  route_horizontal_first (PathFinder_init m) s g = Ret (Some p) \/
  route_vertical_first (PathFinder_init m) s g = Ret (Some p) ->
  len p = Z.abs (fst g - fst s) + Z.abs (snd g - snd s) + 1 /\
  hd_error p = Some s /\ (forall d, List.last p d = g) /\
  (forall a b, adjacent p a b -> axis_move a b) /\
  (forall c, In c p -> in_box s g c).
Proof.
  intros H. destruct (route_some_elbow m s g p H) as [-> | ->].
  - split; [apply length_elbow_h|]. split; [apply elbow_h_ends|].
    split; [apply elbow_h_ends|]. split; [apply elbow_h_axis|apply elbow_h_box].
  - split; [apply length_elbow_v|]. split; [apply elbow_v_ends|].
    split; [apply elbow_v_ends|]. split; [apply elbow_v_axis|apply elbow_v_box].
Qed.

Lemma elbow_route_shape_witness :
  len [(0, 0); (1, 0); (2, 0); (2, 1)] = Z.abs (2 - 0) + Z.abs (1 - 0) + 1 /\
  hd_error [(0, 0); (1, 0); (2, 0); (2, 1)] = Some (0, 0) /\
  (forall d, List.last [(0, 0); (1, 0); (2, 0); (2, 1)] d = (2, 1)) /\
  (forall a b, adjacent [(0, 0); (1, 0); (2, 0); (2, 1)] a b -> axis_move a b) /\
  (forall c, In c [(0, 0); (1, 0); (2, 0); (2, 1)] -> in_box (0, 0) (2, 1) c).
Proof.
  apply (elbow_route_shape (array [[0; 0; 0]; [255; 0; 0]]) (0, 0) (2, 1)
           [(0, 0); (1, 0); (2, 0); (2, 1)]).
  left. reflexivity.
Defined.


(* ------------------------------------------------------------------ *)
(** *** What [optimize_path] keeps of its input *)

Lemma firstn_sublist_le {A : Type} (l : list A) (a b : nat) :
  (a <= b)%nat -> firstn a l `sublist_of` firstn b l.
Proof.
  intros Hab. replace a with (Nat.min a b) by lia.
  rewrite <- firstn_firstn. apply sublist_take.
Qed.

Lemma optimize_loop_sublist (m : ndarray) (path : list point) (fuel : nat) :
  forall i optimized out,
    0 <= i <= len path - 1 ->
    optimized `sublist_of` firstn (S (Z.to_nat i)) path ->
    optimize_loop (PathFinder_init m) path fuel i optimized = Ret out ->
    out `sublist_of` path.
Proof.
  induction fuel as [|fuel IH]; intros i optimized out Hi Hsub Hrun; [discriminate|].
  cbn [optimize_loop] in Hrun. destruct (i <? len path - 1) eqn:E.
  - destruct (py_index_inside path i ltac:(lia)) as (q & _ & Hq).
    destruct (look_ahead_spec m path i q (S (length path)) (i + 1) Hq ltac:(lia)
                ltac:(lia) ltac:(unfold len; lia))
      as (j & Hlook & Hj & _).
    rewrite Hlook in Hrun. cbn [bind] in Hrun.
    destruct (j - 1 >? i) eqn:Ej.
    + destruct (py_index_inside path (j - 1) ltac:(lia)) as (p & Hp & Hnp).
      rewrite Hp in Hrun. cbn [bind] in Hrun.
      apply (IH (j - 1) (optimized ++ [p]) out ltac:(lia)); [|exact Hrun].
      rewrite <- (firstn_snoc_nth path (Z.to_nat (j - 1)) p Hnp).
      apply sublist_app; [|reflexivity].
      transitivity (firstn (S (Z.to_nat i)) path); [exact Hsub|].
      apply firstn_sublist_le. lia.
    + destruct (py_index_inside path (i + 1) ltac:(lia)) as (p & Hp & Hnp).
      rewrite Hp in Hrun. cbn [bind] in Hrun.
      apply (IH (i + 1) (optimized ++ [p]) out ltac:(lia)); [|exact Hrun].
      rewrite <- (firstn_snoc_nth path (Z.to_nat (i + 1)) p Hnp).
      apply sublist_app; [|reflexivity].
      transitivity (firstn (S (Z.to_nat i)) path); [exact Hsub|].
      apply firstn_sublist_le. lia.
  - injection Hrun as <-.
    transitivity (firstn (S (Z.to_nat i)) path); [exact Hsub|apply sublist_take].
Qed.

Lemma optimize_path_sub (m : ndarray) (P Q : list point) :
  optimize_path (PathFinder_init m) P = Ret Q -> Q `sublist_of` P.
Proof.
  intros Hrun. destruct (Z.ltb_spec (len P) 3) as [Hlt|Hge].
  - unfold optimize_path in Hrun. replace (len P <? 3) with true in Hrun by lia.
    injection Hrun as <-. reflexivity.
  - destruct (optimize_path_long m P Hge) as (Q' & HQ & Hloop & _).
    rewrite HQ in Hrun. injection Hrun as <-.
    apply (optimize_loop_sublist m P (S (length P)) 0 (firstn 1 P) Q' ltac:(lia));
      [|exact Hloop].
    reflexivity.
Qed.

(** X4. [optimize_path] only takes waypoints out: what it returns is the
    input with some of its points removed, the others in the order they
    had; no point is added, moved or repeated. *)
Theorem optimize_path_sublist (m : ndarray) (P : list point) :
  exists Q,
    optimize_path (PathFinder_init m) P = Ret Q /\ Q `sublist_of` P.
Proof.
  destruct (optimize_path_ends m P) as (Q & HQ & _).
  exists Q. split; [exact HQ|apply (optimize_path_sub m P Q HQ)].
Qed.

(* ------------------------------------------------------------------ *)
(** *** The segments of the path of [find_best_path] *)














(* ------------------------------------------------------------------ *)
(** *** Edge cases of the search *)

Lemma search_fuel_succ (self : PathFinder) : exists n, search_fuel self = S n.
Proof.
  unfold search_fuel.
  set (n := Z.max 0 (width self) * Z.max 0 (height self) + 1).
  assert (1 <= n) by (unfold n; nia).
  exists (Nat.pred (Z.to_nat (2 + 2 * n * (14 * n + 15)))). nia.
Qed.

Lemma a_star_same (self : PathFinder) (s : point) : a_star self s s = Ret [s].
Proof.
  unfold a_star. destruct (search_fuel_succ self) as (n & En).
  rewrite En. cbn [search_loop initial_state open_set heappush came_from].
  unfold heappush, heappop. cbn [heap_min bind fst snd]. rewrite point_eqb_refl.
  rewrite En. cbn [reconstruct]. rewrite lookup_empty. reflexivity.
Qed.

Lemma elbow_h_same (s : point) : elbow_h s s = [s].
Proof. destruct s as [x y]. unfold elbow_h. cbn [fst snd]. rewrite !span_same. reflexivity. Qed.

Lemma manhattan_routing_same (m : ndarray) (s : point) :
  manhattan_routing (PathFinder_init m) s s = Ret [s].
Proof.
  rewrite manhattan_routing_cases. unfold probed_h.
  rewrite Z.eqb_refl, elbow_h_same. reflexivity.
Qed.

(** X6. Routing from a point to itself gives the path of that one point,
    by [a_star], by [manhattan_routing] and by [find_best_path] in both
    modes, on every grid and wherever the point is: no bound and no cell
    is looked at, so also for a point outside the grid or on an obstacle. *)
Theorem find_best_path_same_point (m : ndarray) (s : point) :
  a_star (PathFinder_init m) s s = Ret [s] /\
  manhattan_routing (PathFinder_init m) s s = Ret [s] /\
  forall prefer_manhattan,
    find_best_path (PathFinder_init m) s s prefer_manhattan = Ret [s].
Proof.
  split; [apply a_star_same|]. split; [apply manhattan_routing_same|].
  intros pm. unfold find_best_path.
  destruct pm; [rewrite manhattan_routing_same|rewrite a_star_same]; reflexivity.
Qed.








(* ------------------------------------------------------------------ *)
(** *** Paths that [optimize_path] reduces to one segment *)

Lemma optimize_loop_grows (m : ndarray) (path : list point) (fuel : nat) :
  forall i optimized out,
    optimize_loop (PathFinder_init m) path fuel i optimized = Ret out ->
    len optimized <= len out /\ (i < len path - 1 -> len optimized < len out).
Proof.
  induction fuel as [|fuel IH]; intros i optimized out Hrun; [discriminate|].
  cbn [optimize_loop] in Hrun. destruct (i <? len path - 1) eqn:E.
  - destruct (look_ahead _ path _ i (i + 1)) as [j| |]; cbn [bind] in Hrun;
      try discriminate.
    assert (Hlen : forall p, len (optimized ++ [p]) = len optimized + 1)
      by (intros p; unfold len; rewrite length_app; cbn [length]; lia).
    destruct (j - 1 >? i).
    + destruct (py_index path (j - 1)) as [p| |]; cbn [bind] in Hrun;
        try discriminate.
      destruct (IH _ _ _ Hrun) as [Hle _]. rewrite Hlen in Hle. lia.
    + destruct (py_index path (i + 1)) as [p| |]; cbn [bind] in Hrun;
        try discriminate.
      destruct (IH _ _ _ Hrun) as [Hle _]. rewrite Hlen in Hle. lia.
  - injection Hrun as <-. lia.
Qed.

Lemma in_tl_nth {A : Type} (l : list A) (k : Z) (x : A) :
  1 <= k -> nth_error l (Z.to_nat k) = Some x -> In x (tl l).
Proof.
  intros Hk Hx. destruct l as [|y l]; [destruct (Z.to_nat k); discriminate|].
  cbn [tl]. replace (Z.to_nat k) with (S (Z.to_nat (k - 1))) in Hx by lia.
  cbn [nth_error] in Hx. apply (nth_error_In _ _ Hx).
Qed.

Lemma optimize_path_collapse (m : ndarray) (P : list point) (p0 : point) :
  3 <= len P -> hd_error P = Some p0 ->
  (forall c, In c (tl P) -> los m p0 c = true) ->
  optimize_path (PathFinder_init m) P = Ret [p0; List.last P p0].
Proof.
  intros H3 Hhd Hsees.
  destruct (optimize_path_long m P H3) as (Q & HQ & Hloop & _).
  rewrite HQ. f_equal. destruct P as [|x P']; [discriminate|].
  injection Hhd as ->. set (P := p0 :: P') in *.
  change (firstn 1 P) with [p0] in Hloop.
  cbn [optimize_loop] in Hloop.
  replace (0 <? len P - 1) with true in Hloop by lia.
  destruct (look_ahead_spec m P 0 p0 (S (length P)) 1 eq_refl ltac:(lia)
              ltac:(lia) ltac:(unfold len; lia))
    as (j & Hlook & Hj & _ & Hstop).
  change (0 + 1) with 1 in Hloop. rewrite Hlook in Hloop. cbn [bind] in Hloop.
  assert (Ej : j = len P).
  { destruct (Z.eq_dec j (len P)) as [E|E]; [exact E|].
    destruct (Hstop ltac:(lia)) as (pk & Hpk & Hno).
    rewrite (Hsees pk (in_tl_nth P j pk ltac:(lia) Hpk)) in Hno. discriminate. }
  subst j. replace (len P - 1 >? 0) with true in Hloop by lia.
  rewrite (py_index_nth P (len P - 1) (List.last P p0)) in Hloop;
    [|lia|].
  - cbn [bind] in Hloop. destruct (length P) as [|n] eqn:En;
      [unfold len in H3; lia|].
    cbn [optimize_loop] in Hloop.
    replace (len P - 1 <? len P - 1) with false in Hloop by lia.
    injection Hloop as <-. reflexivity.
  - replace (Z.to_nat (len P - 1)) with (Nat.pred (length P)) by (unfold len; lia).
    apply nth_error_last. discriminate.
Qed.

Lemma optimize_path_keeps_more (m : ndarray) (P Q : list point) (p0 c : point) :
  3 <= len P -> hd_error P = Some p0 ->
  In c (tl P) -> los m p0 c = false ->
  optimize_path (PathFinder_init m) P = Ret Q -> 3 <= len Q.
Proof.
  intros H3 Hhd Hc Hno HQ.
  destruct (optimize_path_long m P H3) as (Q' & HQ' & Hloop & _).
  rewrite HQ' in HQ. injection HQ as <-.
  destruct P as [|x P']; [discriminate|].
  injection Hhd as ->. set (P := p0 :: P') in *.
  change (firstn 1 P) with [p0] in Hloop.
  cbn [optimize_loop] in Hloop.
  replace (0 <? len P - 1) with true in Hloop by lia.
  destruct (look_ahead_spec m P 0 p0 (S (length P)) 1 eq_refl ltac:(lia)
              ltac:(lia) ltac:(unfold len; lia))
    as (j & Hlook & Hj & Hall & _).
  change (0 + 1) with 1 in Hloop. rewrite Hlook in Hloop. cbn [bind] in Hloop.
  assert (Hlt : j < len P).
  { change (In c P') in Hc. apply In_nth_error in Hc. destruct Hc as (k & Hk).
    assert (Hkl : (k < length P')%nat) by (apply nth_error_Some; congruence).
    destruct (Z.lt_ge_cases (Z.of_nat (S k)) j) as [Hin|Hout].
    - rewrite (Hall (Z.of_nat (S k)) c ltac:(lia)) in Hno; [discriminate|].
      rewrite Nat2Z.id. exact Hk.
    - unfold len, P. cbn [length]. lia. }
  destruct (j - 1 >? 0) eqn:Ej.
  - destruct (py_index P (j - 1)) as [p| |]; cbn [bind] in Hloop; try discriminate.
    destruct (optimize_loop_grows m P _ _ _ _ Hloop) as [_ Hgrow].
    specialize (Hgrow ltac:(lia)). unfold len in Hgrow at 1. cbn in Hgrow. lia.
  - destruct (py_index P 1) as [p| |]; cbn [bind] in Hloop; try discriminate.
    destruct (optimize_loop_grows m P _ _ _ _ Hloop) as [_ Hgrow].
    specialize (Hgrow ltac:(lia)). unfold len in Hgrow at 1. cbn in Hgrow. lia.
Qed.

(** X8. On a path of three points or more, [optimize_path] returns the
    single segment from the first point to the last exactly when the
    first point has line of sight to every other point of the path; when
    it has not, at least three points are kept. *)
Theorem optimize_path_single_segment (m : ndarray) (P : list point) (p0 : point) :
  3 <= len P -> hd_error P = Some p0 ->
  (optimize_path (PathFinder_init m) P = Ret [p0; List.last P p0] <->
   forall c, In c (tl P) ->
     _can_connect_directly (PathFinder_init m) p0 c = Ret true).
Proof.
  intros H3 Hhd. split.
  - intros HQ c Hc. rewrite can_connect_spec. f_equal.
    destruct (forallb (passable m) (line_cells p0 c)) eqn:E; [reflexivity|].
    pose proof (optimize_path_keeps_more m P _ p0 c H3 Hhd Hc E HQ) as Hlen.
    unfold len in Hlen. cbn in Hlen. lia.
  - intros Hsees. apply optimize_path_collapse; [exact H3|exact Hhd|].
    intros c Hc. specialize (Hsees c Hc). rewrite can_connect_spec in Hsees.
    injection Hsees as Hsees. exact Hsees.
Qed.

Lemma optimize_path_single_segment_witness :
  optimize_path (PathFinder_init (array [[0; 0]; [0; 0]]))
    [(0, 0); (1, 0); (1, 1)] = Ret [(0, 0); (1, 1)].
Proof.
  apply (proj2 (optimize_path_single_segment (array [[0; 0]; [0; 0]])
                 [(0, 0); (1, 0); (1, 1)] (0, 0) ltac:(reflexivity) eq_refl)).
  intros c [<-|[<-|[]]]; reflexivity.
Defined.


(* ------------------------------------------------------------------ *)
(** *** Routing where nothing is in the way *)

Lemma in_box_trans (s g c x : point) :
  in_box s g c -> in_box s c x -> in_box s g x.
Proof. unfold in_box. lia. Qed.

Lemma two_points (l : list point) (s g : point) :
  len l = 2 -> hd_error l = Some s -> (forall d, List.last l d = g) -> l = [s; g].
Proof.
  intros Hlen Hhd Hlast. destruct l as [|a [|b [|c l]]];
    unfold len in Hlen; cbn [length] in Hlen; try lia.
  injection Hhd as ->. specialize (Hlast s). cbn in Hlast. subst b. reflexivity.
Qed.

Lemma optimize_elbow_free (m : ndarray) (s g : point) (elbow : list point) :
  (forall c, in_box s g c -> passable m c = true) ->
  s <> g ->
  hd_error elbow = Some s -> (forall d, List.last elbow d = g) ->
  len elbow = Z.abs (fst g - fst s) + Z.abs (snd g - snd s) + 1 ->
  (forall c, In c elbow -> in_box s g c) ->
  optimize_path (PathFinder_init m) elbow = Ret [s; g].
Proof.
  intros Hfree Hne Hhd Hlast Hlen Hbox.
  assert (H2 : 2 <= len elbow).
  { rewrite Hlen. destruct s as [x1 y1], g as [x2 y2]. cbn [fst snd].
    destruct (Z.eq_dec x1 x2) as [->|]; [|lia].
    destruct (Z.eq_dec y1 y2) as [->|]; [congruence|lia]. }
  destruct (Z.eq_dec (len elbow) 2) as [E2|E2].
  - unfold optimize_path. replace (len elbow <? 3) with true by lia.
    f_equal. apply two_points; assumption.
  - rewrite (optimize_path_collapse m elbow s ltac:(lia) Hhd).
    + rewrite Hlast. reflexivity.
    + intros c Hc. unfold los. apply forallb_forall. intros x Hx.
      apply Hfree, (in_box_trans s g c x).
      * apply Hbox, in_tl, Hc.
      * apply line_cells_in_box, Hx.
Qed.

(** X9. When no cell of the rectangle spanned by start and goal is outside
    the grid or OBSTACLE, [find_best_path] with the elbows preferred
    returns the straight segment [[start, goal]]: the elbow that
    [manhattan_routing] finds is reduced to its two ends by
    [optimize_path], so no corner is left in the wire. *)
Theorem find_best_path_free_rectangle (m : ndarray) (start goal : point) :
  (forall c, in_box start goal c -> passable m c = true) ->
  start <> goal ->
  manhattan_routing (PathFinder_init m) start goal = Ret (elbow_h start goal) /\
  find_best_path (PathFinder_init m) start goal true = Ret [start; goal].
Proof.
  intros Hfree Hne.
  assert (Hm : manhattan_routing (PathFinder_init m) start goal
               = Ret (elbow_h start goal)).
  { rewrite manhattan_routing_cases.
    replace (forallb (passable m) (probed_h start goal)) with true; [reflexivity|].
    symmetry. apply forallb_forall. intros c Hc. apply Hfree, elbow_h_box.
    unfold probed_h in Hc. destruct (fst start =? fst goal); [apply in_tl|]; exact Hc. }
  split; [exact Hm|].
  unfold find_best_path. rewrite Hm. cbn [bind].
  destruct (elbow_h start goal) as [|e l] eqn:E.
  - pose proof (proj1 (elbow_h_ends start goal)) as H. rewrite E in H. discriminate.
  - cbn [nonempty negb bind]. rewrite <- E.
    apply (optimize_elbow_free m start goal (elbow_h start goal) Hfree Hne).
    + apply elbow_h_ends.
    + apply elbow_h_ends.
    + apply length_elbow_h.
    + apply elbow_h_box.
Qed.

Lemma find_best_path_free_rectangle_witness :
  manhattan_routing (PathFinder_init (array [[0; 0; 0]; [0; 0; 0]; [255; 0; 0]]))
    (0, 0) (2, 1) = Ret (elbow_h (0, 0) (2, 1)) /\
  find_best_path (PathFinder_init (array [[0; 0; 0]; [0; 0; 0]; [255; 0; 0]]))
    (0, 0) (2, 1) true = Ret [(0, 0); (2, 1)].
Proof.
  apply (find_best_path_free_rectangle
           (array [[0; 0; 0]; [0; 0; 0]; [255; 0; 0]]) (0, 0) (2, 1)).
  - intros [x y] [Hx Hy]. cbn [fst snd] in Hx, Hy.
    assert (Hxs : x = 0 \/ x = 1 \/ x = 2) by lia.
    assert (Hys : y = 0 \/ y = 1) by lia.
    destruct Hxs as [->|[->| ->]]; destruct Hys as [->| ->]; reflexivity.
  - discriminate.
Defined.


(* ------------------------------------------------------------------ *)
(** *** [GenericObstacleDetector.check_path_clearance] *)

Lemma forallb_agree {A : Type} (f g : A -> bool) (l : list A) :
  (forall c, In c l -> f c = g c) -> forallb f l = forallb g l.
Proof.
  induction l as [|x l IH]; intros H; [reflexivity|]. cbn [forallb].
  rewrite (H x (or_introl eq_refl)), IH; [reflexivity|].
  intros c Hc. apply H. right. exact Hc.
Qed.

Module DetectorFacts.
Import Router Detector.

Section ClearanceWalk.
Variable m : ndarray.
Variables x2 y2 dx dy x_step y_step : Z.
Hypothesis Hdx : 0 <= dx.
Hypothesis Hdy : 0 <= dy.

Lemma clearance_loop_forallb (fuel : nat) : forall a b x y err,
  walk_inv x2 y2 dx dy x_step y_step a b x y err ->
  (dx - a) + (dy - b) < Z.of_nat fuel ->
  clearance_loop m x2 y2 dx dy x_step y_step fuel x y err
  = Ret (forallb (clear m) (line_loop x2 y2 dx dy x_step y_step fuel x y err)).
Proof.
  induction fuel as [|fuel IH]; intros a b x y err Hinv Hfuel.
  - unfold walk_inv in Hinv. lia.
  - cbn [clearance_loop line_loop forallb].
    assert (Hhit : (if (0 <=? y) && (y <? Z.of_nat (shape0 m)) &&
                       (0 <=? x) && (x <? Z.of_nat (shape1 m))
                    then do v <- getitem m y x; Ret (v =? 255)
                    else Ret false)
                   = Ret (negb (clear m (x, y)))).
    { unfold clear. rewrite negb_involutive.
      destruct (inside m (x, y)) eqn:Hin.
      - pose proof (getitem_inside m (x, y) Hin) as G. cbn [fst snd] in G.
        unfold inside in Hin. cbn [fst snd] in Hin.
        replace ((0 <=? y) && (y <? Z.of_nat (shape0 m)) &&
                 (0 <=? x) && (x <? Z.of_nat (shape1 m))) with true by lia.
        rewrite G. reflexivity.
      - unfold inside in Hin. cbn [fst snd] in Hin.
        replace ((0 <=? y) && (y <? Z.of_nat (shape0 m)) &&
                 (0 <=? x) && (x <? Z.of_nat (shape1 m))) with false by lia.
        reflexivity. }
    rewrite Hhit. cbn [bind].
    destruct (clear m (x, y)); cbn [negb andb]; [|reflexivity].
    destruct ((x =? x2) && (y =? y2)) eqn:E; [reflexivity|].
    destruct (walk_inv_advance x2 y2 dx dy x_step y_step Hdx Hdy a b x y err Hinv E)
      as (a' & b' & Hinv' & Hm).
    destruct (advance dx dy x_step y_step x y err) as [[x' y'] err'] eqn:Ea.
    cbn [fst snd] in Hinv'.
    apply (IH a' b' x' y' err' Hinv'). lia.
Qed.
End ClearanceWalk.

Lemma clearance_spec (m : ndarray) (original : option ndarray) (a b : point) :
  check_path_clearance
    {| detector_obstacle_map := Some m; original_binary := original |} a b
  = Ret (forallb (clear m) (line_cells a b)).
Proof.
  destruct a as [x0 y0], b as [x1 y1].
  unfold check_path_clearance, line_cells. cbn [detector_obstacle_map].
  eapply clearance_loop_forallb; [| | apply (walk_inv_start (x0, y0) (x1, y1)) |];
    unfold walk_fuel; cbn [fst snd]; lia.
Qed.

Lemma passable_clear (m : ndarray) (c : point) :
  passable m c = true -> clear m c = true.
Proof.
  unfold passable, clear, OBSTACLE. intros H.
  apply andb_true_iff in H. destruct H as [-> H]. cbn [andb]. exact H.
Qed.

Lemma inside_clear_passable (m : ndarray) (c : point) :
  inside m c = true -> clear m c = passable m c.
Proof. unfold passable, clear, OBSTACLE. intros ->. reflexivity. Qed.

(** X10. [check_path_clearance] returns a boolean for every detector and
    every two points.  Before any map is made it is [True]; on a map it is
    [True] exactly when no pixel of the sampled line that lies inside the
    map holds 255: a pixel outside the map never blocks. *)
Theorem check_path_clearance_spec (self : GenericObstacleDetector) (a b : point) :
  check_path_clearance self a b
  = Ret (match detector_obstacle_map self with
         | None => true
         | Some m =>
             forallb (fun c => negb (inside m c && (cell m c =? 255)))
                     (line_cells a b)
         end).
Proof.
  destruct self as [[m|] original].
  - apply clearance_spec.
  - reflexivity.
Qed.

(** X11. On the same map, a line that [PathFinder._can_connect_directly]
    accepts is clear for [check_path_clearance], and the two agree on
    every line between two points inside the map.  They part on a line
    that leaves the map: the path finder refuses any line from a point
    outside the map, the detector does not look at that point. *)
Theorem clearance_and_line_of_sight (self : GenericObstacleDetector)
    (m : ndarray) (a b : point) :
  detector_obstacle_map self = Some m ->
  (_can_connect_directly (PathFinder_init m) a b = Ret true ->
   check_path_clearance self a b = Ret true) /\
  (inside m a = true -> inside m b = true ->
   check_path_clearance self a b = _can_connect_directly (PathFinder_init m) a b) /\
  (inside m a = false ->
   _can_connect_directly (PathFinder_init m) a b = Ret false /\
   check_path_clearance self a b
   = Ret (forallb (clear m) (tl (line_cells a b)))).
Proof.
  intros Hmap. destruct self as [map original]. cbn in Hmap. subst map.
  rewrite clearance_spec, can_connect_spec. split; [|split].
  - intros [= H]. f_equal. rewrite forallb_forall in *.
    intros c Hc. apply passable_clear, H, Hc.
  - intros Ha Hb. f_equal. apply forallb_agree.
    intros c Hc. apply inside_clear_passable.
    apply (in_box_inside m a b c Ha Hb), line_cells_in_box, Hc.
  - intros Ha. destruct (line_cells_hd a b) as [l ->]. cbn [forallb tl].
    unfold passable, clear. rewrite Ha. split; reflexivity.
Qed.

Lemma clearance_and_line_of_sight_witness :
  check_path_clearance
    {| detector_obstacle_map := Some (array [[0; 0]; [255; 0]]);
       original_binary := None |} (0, 0) (1, 1)
  = _can_connect_directly (PathFinder_init (array [[0; 0]; [255; 0]])) (0, 0) (1, 1).
Proof.
  apply (proj1 (proj2 (clearance_and_line_of_sight
           {| detector_obstacle_map := Some (array [[0; 0]; [255; 0]]);
              original_binary := None |}
           (array [[0; 0]; [255; 0]]) (0, 0) (1, 1) eq_refl))); reflexivity.
Defined.
End DetectorFacts.


(* ------------------------------------------------------------------ *)
(** *** The router, from the analysis to the wire *)


Module RouterFurther.
Import Stdlib.QArith.QArith Stdlib.QArith.Qround.
Import Router Detector RouterInit.



Lemma compare_half_of_whole (z : Z) :
  (inject_Z z - inject_Z z ?= 1 # 2) = Lt.
Proof.
  apply Qlt_alt. assert (E : inject_Z z - inject_Z z == 0) by ring.
  rewrite E. reflexivity.
Qed.

Lemma round_half_even_bounds (q : Q) (lo hi : Z) :
  inject_Z lo <= q -> q <= inject_Z hi ->
  (lo <= round_half_even q <= hi)%Z.
Proof.
  intros Hlo Hhi.
  pose proof (Qfloor_resp_le _ _ Hlo) as Hf1. rewrite Qfloor_Z in Hf1.
  pose proof (Qfloor_resp_le _ _ Hhi) as Hf2. rewrite Qfloor_Z in Hf2.
  unfold round_half_even.
  destruct (Z.eq_dec (Qfloor q) hi) as [E|E].
  - assert (Hq : q == inject_Z hi).
    { apply Qle_antisym; [exact Hhi|]. rewrite <- E. apply Qfloor_le. }
    assert (Hc : (q - inject_Z (Qfloor q) ?= 1 # 2) = Lt).
    { rewrite E. rewrite <- (compare_half_of_whole hi).
      apply Qcompare_comp; [|reflexivity]. rewrite Hq. reflexivity. }
    rewrite Hc. lia.
  - destruct (q - inject_Z (Qfloor q) ?= 1 # 2); [destruct (Z.even _)| |]; lia.
Qed.

Lemma py_round_percent (q : Q) :
  0 <= q -> q <= 100 -> 0 <= py_round q 2 /\ py_round q 2 <= 100.
Proof.
  intros H0 H100. unfold py_round.
  change (Z.to_pos (10 ^ Z.of_nat 2)) with 100%positive.
  destruct (round_half_even_bounds (q * inject_Z 100) 0 10000) as [Hlo Hhi].
  - change (inject_Z 0) with (0 * inject_Z 100).
    apply Qmult_le_compat_r; [exact H0|discriminate].
  - change (inject_Z 10000) with (100 * inject_Z 100).
    apply Qmult_le_compat_r; [exact H100|discriminate].
  - unfold Qle. cbn. lia.
Qed.

(** X13. Whenever [analyze_circuit] returns, the two counts are not
    negative and the coverage lies between 0 and 100; it is 0 when no
    pixel is an obstacle and 100 when none is free.  (Floats are exact
    rationals in the model.) *)
Theorem analyze_circuit_coverage_range
    (color_image structuring_element : Type)
    (cvtColor : color_image -> res ndarray)
    (adaptiveThreshold : ndarray -> Z -> Z -> Z -> res ndarray)
    (getStructuringElement : Z -> Z -> res structuring_element)
    (dilate : ndarray -> structuring_element -> res ndarray)
    (self self' : SmartWireRouter) (r : analysis)
    (img : image color_image) (dilation_size safety_padding : Z) :
  analyze_circuit color_image structuring_element cvtColor adaptiveThreshold
    getStructuringElement dilate self img dilation_size safety_padding
  = Ret (self', r) ->
  (0 <= obstacle_pixels r)%Z /\ (0 <= free_pixels r)%Z /\
  0 <= coverage r /\ coverage r <= 100 /\
  (obstacle_pixels r = 0%Z -> coverage r == 0) /\
  (free_pixels r = 0%Z -> coverage r == 100).
Proof.
  unfold analyze_circuit.
  destruct (use_generic_detection self); [|discriminate].
  destruct (create_obstacle_map _ _ _ _ _ _ _ _ _ _) as [[det current]| |];
    cbn [bind fst snd]; try discriminate.
  unfold true_div.
  destruct (count_nonzero current + count_nonzero (equals_zero current) =? 0)%Z eqn:Ez;
    cbn [bind]; [discriminate|].
  intros [= <- <-]. cbn [obstacle_pixels free_pixels coverage].
  set (a := count_nonzero current) in *.
  set (f := count_nonzero (equals_zero current)) in *.
  assert (Ha : (0 <= a)%Z) by (unfold a, count_nonzero, len; lia).
  assert (Hf : (0 <= f)%Z) by (unfold f, count_nonzero, len; lia).
  assert (Hpos : 0 < inject_Z (a + f)).
  { unfold Qlt, inject_Z. cbn. lia. }
  assert (Hratio0 : 0 <= inject_Z a / inject_Z (a + f) * 100).
  { apply Qmult_le_0_compat; [|discriminate].
    apply Qle_shift_div_l; [exact Hpos|]. unfold Qle, inject_Z. cbn. lia. }
  assert (Hratio1 : inject_Z a / inject_Z (a + f) * 100 <= 100).
  { change (100 : Q) with (1 * 100) at 2.
    apply Qmult_le_compat_r; [|discriminate].
    apply Qle_shift_div_r; [exact Hpos|]. unfold Qle, inject_Z. cbn. lia. }
  destruct (py_round_percent _ Hratio0 Hratio1) as [Hlo Hhi].
  split; [exact Ha|]. split; [exact Hf|]. split; [exact Hlo|]. split; [exact Hhi|].
  split.
  - intros E. rewrite (RouterFacts.py_round_comp _ 0 2); [reflexivity|].
    rewrite E. unfold Qdiv. rewrite Qmult_0_l. apply Qmult_0_l.
  - intros E. rewrite (RouterFacts.py_round_comp _ 100 2); [reflexivity|].
    rewrite E, Z.add_0_r. field. intros H0. rewrite E, Z.add_0_r in Hpos.
    rewrite H0 in Hpos. discriminate.
Qed.

Lemma analyze_circuit_coverage_range_witness :
  0 <= 7500 # 100 /\ 7500 # 100 <= 100.
Proof.
  pose proof (analyze_circuit_coverage_range ndarray unit (fun c => Ret c)
                (fun a _ _ _ => Ret a) (fun _ _ => Ret tt) (fun a _ => Ret a)
                (SmartWireRouter_init true) _ _
                (Gray ndarray (array [[0; 255]; [255; 255]]%Z)) 7%Z 5%Z eq_refl)
    as (_ & _ & Hlo & Hhi & _).
  split; [exact Hlo|exact Hhi].
Defined.
End RouterFurther.


(* ------------------------------------------------------------------ *)
(** *** [SmartWireRouter.get_routing_statistics] *)

Module StatisticsFacts.
Import Statistics.

Lemma turns_of_cons3 (a b c : point) (l : list point) :
  turns_of (a :: b :: c :: l) = (if turn a b c then 1 else 0) + turns_of (b :: c :: l).
Proof. reflexivity. Qed.

Lemma turns_of_range (l : list point) : 0 <= turns_of l <= Z.max 0 (len l - 2).
Proof.
  induction l as [|a l IH]; [cbn; lia|].
  destruct l as [|b [|c l]]; [cbn; lia|cbn; lia|].
  rewrite turns_of_cons3. unfold len in *. cbn [length] in *.
  destruct (turn a b c); lia.
Qed.

(** The turns of a path cut at a segment [u, v] that both parts keep. *)
Lemma turns_of_split (l : list point) (u v w : point) (r : list point) :
  turns_of (l ++ u :: v :: w :: r)
  = turns_of (l ++ [u; v]) + (if turn u v w then 1 else 0) + turns_of (v :: w :: r).
Proof.
  induction l as [|x l IH].
  - cbn [app]. rewrite turns_of_cons3. cbn [turns_of]. lia.
  - destruct l as [|y l].
    + cbn [app] in *.
      rewrite (turns_of_cons3 x u v (w :: r)), (turns_of_cons3 x u v []).
      rewrite IH. lia.
    + destruct l as [|z l].
      * cbn [app] in *. rewrite (turns_of_cons3 x y u), (turns_of_cons3 x y u [v]).
        rewrite IH. lia.
      * cbn [app] in *. rewrite (turns_of_cons3 x y z), (turns_of_cons3 x y z (l ++ [u; v])).
        rewrite IH. lia.
Qed.

Lemma direction_changed_sym (a b c d : Z) :
  direction_changed a b c d = direction_changed (- c) (- d) (- a) (- b).
Proof.
  unfold direction_changed.
  destruct (Z.eqb_spec a 0), (Z.eqb_spec b 0), (Z.eqb_spec c 0), (Z.eqb_spec d 0),
    (Z.eqb_spec (- a) 0), (Z.eqb_spec (- b) 0), (Z.eqb_spec (- c) 0),
    (Z.eqb_spec (- d) 0); try lia; reflexivity.
Qed.

Lemma turn_rev (a b c : point) : turn c b a = turn a b c.
Proof.
  unfold turn. rewrite (direction_changed_sym (fst b - fst a)).
  f_equal; lia.
Qed.

Lemma turns_of_rev (l : list point) : turns_of (rev l) = turns_of l.
Proof.
  induction l as [|a l IH]; [reflexivity|].
  destruct l as [|b [|c l]]; [reflexivity|reflexivity|].
  rewrite turns_of_cons3, <- IH.
  change (rev (a :: b :: c :: l)) with (((rev l ++ [c]) ++ [b]) ++ [a]).
  change (rev (b :: c :: l)) with ((rev l ++ [c]) ++ [b]).
  rewrite <- !app_assoc. cbn [app].
  rewrite (turns_of_split (rev l) c b a []). rewrite turn_rev.
  cbn [turns_of]. lia.
Qed.

Section Loop.
Variable float : Type.
Variable np_sqrt : Z -> float.
Variable add : number float -> float -> float.
Variable round2 : number float -> number float.
Variable path : list point.

Lemma skipn_cons_nth {A : Type} (l : list A) (k : nat) (x : A) :
  nth_error l k = Some x -> skipn k l = x :: skipn (S k) l.
Proof.
  revert k. induction l as [|y l IH]; intros k H; [destruct k; discriminate|].
  destruct k as [|k]; [cbn in H; injection H as ->; reflexivity|].
  cbn [skipn nth_error] in *. apply IH, H.
Qed.

Lemma segments_fit_cons2 (a b : point) (l : list point) :
  segments_fit (a :: b :: l)
  = ((fst b - fst a) ^ 2 + (snd b - snd a) ^ 2 <? 2 ^ 64) && segments_fit (b :: l).
Proof. reflexivity. Qed.

Lemma skipn_nil_at {A : Type} (l : list A) (k : nat) :
  (length l <= k)%nat -> skipn k l = [].
Proof. apply skipn_all2. Qed.

(** From the index [i] on, the loop returns when [np.sqrt] accepts every
    segment left, and raises at the first one it does not accept. *)
Lemma statistics_loop_spec (n : nat) : forall i total t,
  1 <= i -> i + Z.of_nat n = len path - 1 ->
  if segments_fit (skipn (Z.to_nat i) path) then
    exists total',
      statistics_loop float np_sqrt add path
        (map (fun k => i + Z.of_nat k) (seq 0 n)) total t
      = Ret (total', t + turns_of (skipn (Z.to_nat (i - 1)) path))
  else
    statistics_loop float np_sqrt add path
      (map (fun k => i + Z.of_nat k) (seq 0 n)) total t
    = Raise TypeError.
Proof.
  induction n as [|n IH]; intros i total t Hi Hn.
  - destruct (py_index_inside path (i - 1) ltac:(lia)) as (a & _ & Ha).
    destruct (py_index_inside path i ltac:(lia)) as (b & _ & Hb).
    rewrite (skipn_cons_nth path _ b Hb).
    rewrite (skipn_nil_at path (S (Z.to_nat i))) by (unfold len in Hn; lia).
    cbn [segments_fit]. exists total. cbn [seq map statistics_loop]. do 2 f_equal.
    rewrite (skipn_cons_nth path _ a Ha).
    replace (S (Z.to_nat (i - 1))) with (Z.to_nat i) by lia.
    rewrite (skipn_cons_nth path _ b Hb).
    rewrite (skipn_nil_at path (S (Z.to_nat i))) by (unfold len in Hn; lia).
    cbn. lia.
  - destruct (py_index_inside path (i - 1) ltac:(lia)) as (a & Ea & Ha).
    destruct (py_index_inside path i ltac:(lia)) as (b & Eb & Hb).
    destruct (py_index_inside path (i + 1) ltac:(lia)) as (c & Ec & Hc).
    rewrite (skipn_cons_nth path _ b Hb).
    replace (S (Z.to_nat i)) with (Z.to_nat (i + 1)) by lia.
    specialize (IH (i + 1)
                  (Float float (add total
                     (np_sqrt ((fst c - fst b) ^ 2 + (snd c - snd b) ^ 2))))
                  (if direction_changed (fst b - fst a) (snd b - snd a)
                                        (fst c - fst b) (snd c - snd b)
                   then t + 1 else t) ltac:(lia) ltac:(lia)).
    rewrite (skipn_cons_nth path _ c Hc) in *.
    rewrite segments_fit_cons2. cbn [seq map statistics_loop]. rewrite Z.add_0_r.
    rewrite ?Ea, ?Eb, ?Ec. cbn [bind]. unfold np_sqrt_int.
    destruct ((fst c - fst b) ^ 2 + (snd c - snd b) ^ 2 <? 2 ^ 64) eqn:Efit;
      cbn [andb bind]; [|reflexivity].
    replace (i >? 0) with true by lia. cbn [bind].
    rewrite <- seq_shift, map_map.
    rewrite (map_ext (fun k => i + Z.of_nat (S k)) (fun k => i + 1 + Z.of_nat k))
      by (intros k; lia).
    destruct (segments_fit (c :: skipn (S (Z.to_nat (i + 1))) path));
      [|exact IH].
    destruct IH as (total' & Hrun). exists total'. rewrite Hrun. do 2 f_equal.
    rewrite (skipn_cons_nth path _ a Ha).
    replace (S (Z.to_nat (i - 1))) with (Z.to_nat i) by lia.
    rewrite (skipn_cons_nth path (Z.to_nat i) b Hb).
    replace (S (Z.to_nat i)) with (Z.to_nat (i + 1)) by lia.
    rewrite (skipn_cons_nth path (Z.to_nat (i + 1)) c Hc).
    rewrite turns_of_cons3.
    replace (i + 1 - 1) with i by lia.
    rewrite (skipn_cons_nth path (Z.to_nat i) b Hb).
    replace (S (Z.to_nat i)) with (Z.to_nat (i + 1)) by lia.
    rewrite (skipn_cons_nth path (Z.to_nat (i + 1)) c Hc).
    fold (turn a b c). destruct (turn a b c); lia.
Qed.

Lemma get_routing_statistics_long :
  2 <= len path ->
  if segments_fit path then
    exists total,
      get_routing_statistics float np_sqrt add round2 path
      = Ret {| stat_length := round2 total;
               stat_segments := len path - 1;
               stat_turns := turns_of path;
               stat_waypoints := Some (len path) |}
  else
    get_routing_statistics float np_sqrt add round2 path = Raise TypeError.
Proof.
  intros H2. unfold get_routing_statistics.
  replace (len path <? 2) with false by lia.
  assert (Er : py_range 0 (len path - 1) 1
               = map (fun k => 0 + 1 * Z.of_nat k) (seq 0 (Z.to_nat (len path - 1)))).
  { rewrite <- (py_range_unit 0 (len path - 1) 1 (or_introl eq_refl)) by lia.
    f_equal. lia. }
  rewrite Er. clear Er.
  destruct (Z.to_nat (len path - 1)) as [|n] eqn:En; [lia|].
  cbn [seq map statistics_loop].
  destruct (py_index_inside path 0 ltac:(lia)) as (a & Ea & Ha).
  destruct (py_index_inside path 1 ltac:(lia)) as (b & Eb & Hb).
  change (0 + 1 * Z.of_nat 0) with 0. change (0 + 1) with 1.
  rewrite Eb, Ea. cbn [bind].
  pose proof (statistics_loop_spec n 1
                (Float float (add (Int float 0)
                   (np_sqrt ((fst b - fst a) ^ 2 + (snd b - snd a) ^ 2))))
                0 ltac:(lia) ltac:(lia)) as Hloop.
  change (Z.to_nat 0) with 0%nat in Ha. change (Z.to_nat 1) with 1%nat in Hb, Hloop.
  change (Z.to_nat (1 - 1)) with 0%nat in Hloop. cbn [skipn] in Hloop.
  assert (Epath : path = a :: skipn 1 path).
  { rewrite <- (skipn_cons_nth path 0 a Ha). reflexivity. }
  rewrite (skipn_cons_nth path 1 b Hb) in Epath, Hloop.
  assert (Efits : segments_fit path
                  = ((fst b - fst a) ^ 2 + (snd b - snd a) ^ 2 <? 2 ^ 64) &&
                    segments_fit (b :: skipn 2 path)).
  { transitivity (segments_fit (a :: b :: skipn 2 path));
      [f_equal; exact Epath|apply segments_fit_cons2]. }
  rewrite Efits. unfold np_sqrt_int.
  destruct ((fst b - fst a) ^ 2 + (snd b - snd a) ^ 2 <? 2 ^ 64) eqn:Efit;
    cbn [andb bind]; [|reflexivity].
  change (0 >? 0) with false. cbn [bind].
  rewrite <- seq_shift, map_map.
  rewrite (map_ext (fun k => 0 + 1 * Z.of_nat (S k)) (fun k => 1 + Z.of_nat k))
    by (intros k; lia).
  destruct (segments_fit (b :: skipn 2 path)).
  - destruct Hloop as (total & Hrun). rewrite Hrun. cbn [bind fst snd].
    exists total. reflexivity.
  - rewrite Hloop. reflexivity.
Qed.
End Loop.

Lemma fit_sym (u v : point) :
  ((fst v - fst u) ^ 2 + (snd v - snd u) ^ 2 <? 2 ^ 64)
  = ((fst u - fst v) ^ 2 + (snd u - snd v) ^ 2 <? 2 ^ 64).
Proof. f_equal. nia. Qed.

Lemma segments_fit_snoc (l : list point) (u v : point) :
  segments_fit (l ++ [u; v])
  = segments_fit (l ++ [u]) && ((fst v - fst u) ^ 2 + (snd v - snd u) ^ 2 <? 2 ^ 64).
Proof.
  induction l as [|x l IH].
  - cbn. rewrite andb_true_r. reflexivity.
  - destruct l as [|y l].
    + cbn. rewrite !andb_true_r. reflexivity.
    + change (segments_fit ((x :: y :: l) ++ [u; v]))
        with (((fst y - fst x) ^ 2 + (snd y - snd x) ^ 2 <? 2 ^ 64) &&
              segments_fit ((y :: l) ++ [u; v])).
      change (segments_fit ((x :: y :: l) ++ [u]))
        with (((fst y - fst x) ^ 2 + (snd y - snd x) ^ 2 <? 2 ^ 64) &&
              segments_fit ((y :: l) ++ [u])).
      rewrite IH, andb_assoc. reflexivity.
Qed.

Lemma segments_fit_rev (l : list point) : segments_fit (rev l) = segments_fit l.
Proof.
  induction l as [|a l IH]; [reflexivity|].
  destruct l as [|b l]; [reflexivity|].
  change (rev (a :: b :: l)) with ((rev l ++ [b]) ++ [a]).
  rewrite <- app_assoc. cbn [app]. rewrite segments_fit_snoc.
  change (rev l ++ [b]) with (rev (b :: l)). rewrite IH.
  change (segments_fit (a :: b :: l))
    with (((fst b - fst a) ^ 2 + (snd b - snd a) ^ 2 <? 2 ^ 64) &&
          segments_fit (b :: l)).
  rewrite (fit_sym b a). apply andb_comm.
Qed.

Lemma segments_fit_axis (l : list point) :
  (forall a b, adjacent l a b -> axis_move a b) -> segments_fit l = true.
Proof.
  induction l as [|x l IH]; intros H; [reflexivity|].
  destruct l as [|y l]; [reflexivity|].
  change (segments_fit (x :: y :: l))
    with (((fst y - fst x) ^ 2 + (snd y - snd x) ^ 2 <? 2 ^ 64) &&
          segments_fit (y :: l)).
  rewrite IH.
  - assert (Hxy : axis_move x y).
    { apply H, adjacent_cons. left. split; reflexivity. }
    unfold axis_move in Hxy. rewrite andb_true_r.
    assert ((fst y - fst x) ^ 2 + (snd y - snd x) ^ 2 = 1) as -> by nia.
    reflexivity.
  - intros a b Hab. apply H, adjacent_cons. right. exact Hab.
Qed.
End StatisticsFacts.


Module StatisticsTheorems.
Import Statistics StatisticsFacts.

Section Results.
Variable float : Type.
Variable np_sqrt : Z -> float.
Variable add : number float -> float -> float.
Variable round2 : number float -> number float.

Local Abbreviation statistics_of := (get_routing_statistics float np_sqrt add round2).

Lemma segments_fit_short (path : list point) : len path < 2 -> segments_fit path = true.
Proof.
  destruct path as [|a [|b l]]; unfold len; cbn [length]; intros H;
    try reflexivity; lia.
Qed.

Lemma statistics_cases (path : list point) :
  if segments_fit path then
    exists length,
      statistics_of path
      = Ret {| stat_length := length;
               stat_segments := Z.max 0 (len path - 1);
               stat_turns := turns_of path;
               stat_waypoints := if len path <? 2 then None else Some (len path) |} /\
      (len path < 2 -> length = Int float 0)
  else statistics_of path = Raise TypeError.
Proof.
  destruct (Z.ltb_spec (len path) 2) as [Hlt|Hge].
  - rewrite (segments_fit_short path Hlt). exists (Int float 0). split; [|reflexivity].
    unfold get_routing_statistics. replace (len path <? 2) with true by lia.
    destruct path as [|a [|b l]]; unfold len in *; cbn [length] in *;
      try lia; reflexivity.
  - pose proof (get_routing_statistics_long float np_sqrt add round2 path Hge)
      as Hlong.
    destruct (segments_fit path); [|exact Hlong].
    destruct Hlong as (total & Hrun).
    exists (round2 total). split; [|lia]. rewrite Hrun.
    replace (Z.max 0 (len path - 1)) with (len path - 1) by lia. reflexivity.
Qed.

(** X14. [get_routing_statistics] returns exactly for the paths in which
    every segment has [dx**2 + dy**2] below [2**64], so that [np.sqrt]
    accepts it, and among them for every path of fewer than two points;
    for the others it raises [TypeError].  When it returns, the segments
    are one fewer than the waypoints (none for a path of fewer than two
    points, which gets the length 0 and no ['waypoints'] entry); the turns
    are the waypoints at which the wire starts or stops moving along an
    axis, so there are at most [len(path) - 2] of them. *)
Theorem get_routing_statistics_spec (path : list point) :
  (segments_fit path = true ->
   exists st,
     get_routing_statistics float np_sqrt add round2 path = Ret st /\
     stat_segments st = Z.max 0 (len path - 1) /\
     stat_turns st = turns_of path /\
     0 <= stat_turns st <= Z.max 0 (len path - 2) /\
     stat_waypoints st = (if len path <? 2 then None else Some (len path)) /\
     (len path < 2 -> stat_length st = Int float 0)) /\
  (segments_fit path = false ->
   get_routing_statistics float np_sqrt add round2 path = Raise TypeError) /\
  (len path < 2 -> segments_fit path = true).
Proof.
  pose proof (statistics_cases path) as Hcases.
  split; [|split].
  - intros Hfit. rewrite Hfit in Hcases. destruct Hcases as (length & Hrun & Hshort).
    eexists. split; [exact Hrun|].
    cbn [stat_segments stat_turns stat_waypoints stat_length].
    split; [reflexivity|]. split; [reflexivity|].
    split; [apply turns_of_range|]. split; [reflexivity|exact Hshort].
  - intros Hfit. rewrite Hfit in Hcases. exact Hcases.
  - apply segments_fit_short.
Qed.

(** X15. [get_routing_statistics] does not depend on the end the wire is
    read from: it returns for a path exactly when it returns for the path
    reversed, with the same segments, turns and waypoints, and otherwise
    raises [TypeError] for both. *)
Theorem get_routing_statistics_reversed (path : list point) :
  segments_fit (rev path) = segments_fit path /\
  (segments_fit path = true ->
   exists st st',
     get_routing_statistics float np_sqrt add round2 path = Ret st /\
     get_routing_statistics float np_sqrt add round2 (rev path) = Ret st' /\
     stat_segments st' = stat_segments st /\
     stat_turns st' = stat_turns st /\
     stat_waypoints st' = stat_waypoints st) /\
  (segments_fit path = false ->
   get_routing_statistics float np_sqrt add round2 path = Raise TypeError /\
   get_routing_statistics float np_sqrt add round2 (rev path) = Raise TypeError).
Proof.
  pose proof (statistics_cases path) as H1.
  pose proof (statistics_cases (rev path)) as H2.
  rewrite segments_fit_rev in H2.
  split; [apply segments_fit_rev|]. split.
  - intros Hfit. rewrite Hfit in H1, H2.
    destruct H1 as (l1 & H1 & _). destruct H2 as (l2 & H2 & _).
    eexists _, _. split; [exact H1|]. split; [exact H2|].
    cbn [stat_segments stat_turns stat_waypoints].
    unfold len. rewrite length_rev, turns_of_rev. auto.
  - intros Hfit. rewrite Hfit in H1, H2. split; assumption.
Qed.
End Results.

Lemma get_routing_statistics_spec_witness :
  exists st,
    get_routing_statistics unit (fun _ => tt) (fun _ _ => tt) (fun n => n)
      [(0, 0); (3, 0); (3, 4); (5, 6)] = Ret st /\
    stat_segments st = 3 /\ stat_turns st = 2.
Proof.
  destruct (proj1 (get_routing_statistics_spec unit (fun _ => tt) (fun _ _ => tt)
                     (fun n => n) [(0, 0); (3, 0); (3, 4); (5, 6)]) eq_refl)
    as (st & Hrun & Hseg & Hturns & _).
  exists st. split; [exact Hrun|]. split; [exact Hseg|exact Hturns].
Defined.

Lemma get_routing_statistics_reversed_witness :
  exists st st',
    get_routing_statistics unit (fun _ => tt) (fun _ _ => tt) (fun n => n)
      [(0, 0); (3, 0); (3, 4)] = Ret st /\
    get_routing_statistics unit (fun _ => tt) (fun _ _ => tt) (fun n => n)
      [(3, 4); (3, 0); (0, 0)] = Ret st' /\
    stat_turns st' = stat_turns st.
Proof.
  destruct (proj1 (proj2 (get_routing_statistics_reversed unit (fun _ => tt)
                            (fun _ _ => tt) (fun n => n) [(0, 0); (3, 0); (3, 4)]))
              eq_refl)
    as (st & st' & H1 & H2 & _ & Hturns & _).
  exists st, st'. split; [exact H1|]. split; [exact H2|exact Hturns].
Defined.

(** The path from [(0, 0)] to [(4294967296, 0)] has a segment whose
    squared length is [2**64]: [np.sqrt] refuses it. *)
Lemma get_routing_statistics_raises :
  get_routing_statistics unit (fun _ => tt) (fun _ _ => tt) (fun n => n)
    [(0, 0); (4294967296, 0)] = Raise TypeError.
Proof. reflexivity. Qed.
End StatisticsTheorems.


Module StatisticsElbow.
Import Statistics StatisticsFacts.

Lemma direction_kept (dx dy : Z) : direction_changed dx dy dx dy = false.
Proof.
  unfold direction_changed.
  destruct (dx =? 0), (dy =? 0); reflexivity.
Qed.

(** A path that goes on by the same step has no turn. *)
Lemma turns_of_straight (f : nat -> point) (dx dy : Z) :
  (forall k, fst (f (S k)) - fst (f k) = dx /\ snd (f (S k)) - snd (f k) = dy) ->
  forall n s, turns_of (map f (seq s n)) = 0.
Proof.
  intros Hstep. induction n as [|n IH]; intros s; [reflexivity|].
  destruct n as [|[|n]]; [reflexivity|reflexivity|].
  specialize (IH (S s)). cbn [seq map] in *. rewrite turns_of_cons3, IH.
  unfold turn. destruct (Hstep s) as [-> ->]. destruct (Hstep (S s)) as [-> ->].
  rewrite direction_kept. reflexivity.
Qed.

Lemma turns_of_row (a b y : Z) : turns_of (map (fun x => (x, y)) (span a b)) = 0.
Proof.
  unfold span. rewrite map_map.
  apply (turns_of_straight _ (toward a b) 0). intros k. cbn [fst snd]. lia.
Qed.

Lemma turns_of_column (a b x : Z) : turns_of (map (fun y => (x, y)) (span a b)) = 0.
Proof.
  unfold span. rewrite map_map.
  apply (turns_of_straight _ 0 (toward a b)). intros k. cbn [fst snd]. lia.
Qed.

Lemma span_cons_tl (a b : Z) : span a b = a :: tl (span a b).
Proof. destruct (span_hd a b) as [l ->]. reflexivity. Qed.

(** A span of two items or more, cut before its last two. *)
Lemma span_last_two (a b : Z) :
  a <> b ->
  exists l, span a b = l ++ [b - toward a b; b].
Proof.
  intros Hne. unfold span.
  destruct (Z.to_nat (Z.abs (b - a))) as [|n] eqn:En; [lia|].
  exists (map (fun k => a + toward a b * Z.of_nat k) (seq 0 n)).
  rewrite !seq_S, !map_app. cbn [map Nat.add]. rewrite <- app_assoc. cbn [app].
  pose proof (toward_reach a b) as Hr. pose proof (toward_unit a b) as Hu.
  repeat f_equal; nia.
Qed.

Lemma hd_tl_span_cons (a b : Z) :
  a <> b -> exists r, tl (span a b) = (a + toward a b) :: r.
Proof.
  intros Hne. pose proof (tl_span_nonempty a b Hne) as H.
  destruct (tl (span a b)) as [|w r] eqn:E; [congruence|].
  exists r. f_equal. apply (hd_tl_span a b w). rewrite E. reflexivity.
Qed.

Lemma turns_of_corner (l r : list point) (u v w : point) :
  turns_of (l ++ [u; v]) = 0 -> turns_of (v :: w :: r) = 0 -> turn u v w = true ->
  turns_of ((l ++ [u; v]) ++ w :: r) = 1.
Proof.
  intros H1 H2 Ht. rewrite <- app_assoc. cbn [app].
  rewrite turns_of_split, H1, H2, Ht. reflexivity.
Qed.

Lemma turns_of_elbow_h (s g : point) :
  turns_of (elbow_h s g)
  = if (fst s =? fst g) || (snd s =? snd g) then 0 else 1.
Proof.
  destruct s as [x1 y1], g as [x2 y2]. unfold elbow_h. cbn [fst snd].
  destruct (Z.eqb_spec y1 y2) as [->|Hy].
  - rewrite orb_true_r, span_same. cbn [tl map]. rewrite app_nil_r.
    apply turns_of_row.
  - destruct (Z.eqb_spec x1 x2) as [->|Hx]; cbn [orb].
    + rewrite span_same. cbn [map app].
      change ((x2, y1) :: map (fun y => (x2, y)) (tl (span y1 y2)))
        with (map (fun y => (x2, y)) (y1 :: tl (span y1 y2))).
      rewrite <- span_cons_tl. apply turns_of_column.
    + destruct (span_last_two x1 x2 Hx) as (l & El).
      destruct (hd_tl_span_cons y1 y2 Hy) as (r & Er).
      pose proof (turns_of_row x1 x2 y1) as Hrow.
      pose proof (turns_of_column y1 y2 x2) as Hcol.
      rewrite (span_cons_tl y1 y2) in Hcol.
      rewrite El in *. rewrite Er in *. rewrite map_app in *. cbn [map] in *.
      apply turns_of_corner; [exact Hrow|exact Hcol|].
      unfold turn, direction_changed. cbn [fst snd].
      pose proof (toward_unit x1 x2). pose proof (toward_unit y1 y2).
      destruct (Z.eqb_spec (x2 - (x2 - toward x1 x2)) 0); [lia|].
      destruct (Z.eqb_spec (y1 - y1) 0); [|lia].
      destruct (Z.eqb_spec (x2 - x2) 0); [|lia]. reflexivity.
Qed.

Lemma turns_of_elbow_v (s g : point) :
  turns_of (elbow_v s g)
  = if (fst s =? fst g) || (snd s =? snd g) then 0 else 1.
Proof.
  destruct s as [x1 y1], g as [x2 y2]. unfold elbow_v. cbn [fst snd].
  destruct (Z.eqb_spec x1 x2) as [->|Hx].
  - cbn [orb]. rewrite span_same. cbn [tl map]. rewrite app_nil_r.
    apply turns_of_column.
  - destruct (Z.eqb_spec y1 y2) as [->|Hy]; cbn [orb].
    + rewrite span_same. cbn [map app].
      change ((x1, y2) :: map (fun x => (x, y2)) (tl (span x1 x2)))
        with (map (fun x => (x, y2)) (x1 :: tl (span x1 x2))).
      rewrite <- span_cons_tl. apply turns_of_row.
    + destruct (span_last_two y1 y2 Hy) as (l & El).
      destruct (hd_tl_span_cons x1 x2 Hx) as (r & Er).
      pose proof (turns_of_column y1 y2 x1) as Hcol.
      pose proof (turns_of_row x1 x2 y2) as Hrow.
      rewrite (span_cons_tl x1 x2) in Hrow.
      rewrite El in *. rewrite Er in *. rewrite map_app in *. cbn [map] in *.
      apply turns_of_corner; [exact Hcol|exact Hrow|].
      unfold turn, direction_changed. cbn [fst snd].
      pose proof (toward_unit x1 x2). pose proof (toward_unit y1 y2).
      destruct (Z.eqb_spec (x1 - x1) 0); [|lia].
      destruct (Z.eqb_spec (y2 - (y2 - toward y1 y2)) 0); [lia|].
      destruct (Z.eqb_spec (y2 - y2) 0); [|lia].
      destruct (Z.eqb_spec (x1 + toward x1 x2 - x1) 0); [lia|].
      cbn. reflexivity.
Qed.

(** X16. The statistics of a route that [route_horizontal_first] or
    [route_vertical_first] accepts: [|dx| + |dy|] segments, and one turn,
    at the corner of the elbow, or none when start and goal share a row
    or a column. *)
Theorem elbow_route_statistics
    (float : Type) (np_sqrt : Z -> float)
    (add : number float -> float -> float)
    (round2 : number float -> number float)
    (m : ndarray) (s g : point) (p : list point) :
  route_horizontal_first (PathFinder_init m) s g = Ret (Some p) \/
  route_vertical_first (PathFinder_init m) s g = Ret (Some p) ->
  exists st,
    get_routing_statistics float np_sqrt add round2 p = Ret st /\
    stat_segments st = Z.abs (fst g - fst s) + Z.abs (snd g - snd s) /\
    stat_turns st = if (fst s =? fst g) || (snd s =? snd g) then 0 else 1.
Proof.
  intros H.
  pose proof (StatisticsTheorems.statistics_cases float np_sqrt add round2 p)
    as Hcases.
  assert (Hfit : segments_fit p = true).
  { apply segments_fit_axis.
    destruct (route_some_elbow m s g p H) as [-> | ->];
      [apply elbow_h_axis|apply elbow_v_axis]. }
  rewrite Hfit in Hcases. destruct Hcases as (length & Hrun & _).
  eexists. split; [exact Hrun|]. cbn [stat_segments stat_turns].
  destruct (route_some_elbow m s g p H) as [-> | ->].
  - rewrite length_elbow_h, turns_of_elbow_h. split; [lia|reflexivity].
  - rewrite length_elbow_v, turns_of_elbow_v. split; [lia|reflexivity].
Qed.

Lemma elbow_route_statistics_witness :
  exists st,
    get_routing_statistics unit (fun _ => tt) (fun _ _ => tt) (fun n => n)
      [(0, 0); (1, 0); (2, 0); (2, 1)] = Ret st /\
    stat_segments st = 3 /\ stat_turns st = 1.
Proof.
  apply (elbow_route_statistics unit (fun _ => tt) (fun _ _ => tt) (fun n => n)
           (array [[0; 0; 0]; [255; 0; 0]]) (0, 0) (2, 1)
           [(0, 0); (1, 0); (2, 0); (2, 1)]).
  left. reflexivity.
Defined.
End StatisticsElbow.


(* ------------------------------------------------------------------ *)
(** *** [SmartWireRouter.get_connection_suggestions] *)

Module SuggestionsFacts.
Import Suggestions.

Section Loops.
Variable float : Type.
Variable np_sqrt : Z -> float.
Variable le_int : float -> Z -> bool.
Variables x y radius : Z.

Local Abbreviation near_here := (near float np_sqrt le_int x y radius).

Lemma suggest_symbols_spec (symbols : list box) : forall suggestions,
  suggest_symbols float np_sqrt le_int x y radius symbols suggestions
  = suggestions ++ flat_map edge_points (List.filter near_here symbols).
Proof.
  induction symbols as [|[[[sx sy] sw] sh] rest IH]; intros suggestions.
  - cbn. rewrite app_nil_r. reflexivity.
  - cbn [suggest_symbols List.filter]. rewrite IH.
    change (near_here (sx, sy, sw, sh))
      with (le_int (np_sqrt ((sx + sw / 2 - x) ^ 2 + (sy + sh / 2 - y) ^ 2)) radius).
    destruct (le_int _ radius); [|reflexivity].
    cbn [flat_map edge_points]. rewrite <- app_assoc. reflexivity.
Qed.

Lemma suggest_types_spec (items : list (String.string * list box)) :
  forall suggestions,
    suggest_types float np_sqrt le_int x y radius items suggestions
    = suggestions ++
      flat_map (fun kv => flat_map edge_points (List.filter near_here (snd kv)))
               items.
Proof.
  induction items as [|[k symbols] rest IH]; intros suggestions.
  - cbn. rewrite app_nil_r. reflexivity.
  - cbn [suggest_types flat_map snd]. rewrite IH, suggest_symbols_spec.
    rewrite <- app_assoc. reflexivity.
Qed.
End Loops.

Lemma edge_points_on_border (b : box) (p : point) :
  0 <= snd (fst b) -> 0 <= snd b -> In p (edge_points b) -> on_border b p.
Proof.
  destruct b as [[[sx sy] sw] sh]. cbn [fst snd]. intros Hw Hh Hp.
  pose proof (Z.div_pos sw 2 Hw ltac:(lia)) as Hw2.
  pose proof (Z.div_pos sh 2 Hh ltac:(lia)) as Hh2.
  assert (sw / 2 <= sw) by (apply Z.div_le_upper_bound; lia).
  assert (sh / 2 <= sh) by (apply Z.div_le_upper_bound; lia).
  unfold edge_points in Hp. cbn [In] in Hp. unfold on_border.
  destruct Hp as [<-|[<-|[<-|[<-|[]]]]]; cbn [fst snd]; lia.
Qed.

Lemma length_flat_map_edges (l : list box) :
  len (flat_map edge_points l) = 4 * len l.
Proof.
  induction l as [|[[[sx sy] sw] sh] l IH]; [reflexivity|].
  cbn [flat_map edge_points]. unfold len in *. rewrite length_app. cbn [length]. lia.
Qed.

(** X17. [get_connection_suggestions] suggests nothing but points of the
    symbols of [current_symbols] whose centre passes the distance test:
    four for each of them, in the order of the dict, each on the border
    of the symbol's box when the box has no negative side; and nothing
    when there is no symbol. *)
Theorem get_connection_suggestions_spec
    (float : Type) (np_sqrt : Z -> float) (le_int : float -> Z -> bool)
    (current_symbols : list (String.string * list box))
    (point_ : point) (radius : Z) :
  let suggestions :=
    get_connection_suggestions float np_sqrt le_int current_symbols point_ radius in
  let near_point := near float np_sqrt le_int (fst point_) (snd point_) radius in
  (forall p, In p suggestions ->
     exists symbol_type symbols b,
       In (symbol_type, symbols) current_symbols /\ In b symbols /\
       near_point b = true /\ In p (edge_points b) /\
       (0 <= snd (fst b) -> 0 <= snd b -> on_border b p)) /\
  len suggestions
  = 4 * len (flat_map (fun kv => List.filter near_point (snd kv)) current_symbols) /\
  (current_symbols = [] -> suggestions = []).
Proof.
  destruct point_ as [x y]. cbn zeta. cbn [fst snd].
  unfold get_connection_suggestions. rewrite suggest_types_spec. cbn [app].
  split; [|split].
  - intros p Hp. apply in_flat_map in Hp. destruct Hp as ([k symbols] & Hkv & Hp).
    cbn [snd] in Hp. apply in_flat_map in Hp. destruct Hp as (b & Hb & Hp).
    apply filter_In in Hb. destruct Hb as [Hb Hnear].
    exists k, symbols, b. split; [exact Hkv|]. split; [exact Hb|].
    split; [exact Hnear|]. split; [exact Hp|].
    intros Hw Hh. apply edge_points_on_border; assumption.
  - induction current_symbols as [|[k symbols] rest IH]; [reflexivity|].
    cbn [flat_map snd]. unfold len in *. rewrite !length_app.
    pose proof (length_flat_map_edges
                  (List.filter (near float np_sqrt le_int x y radius) symbols)) as E.
    unfold len in E. lia.
  - intros ->. reflexivity.
Qed.
End SuggestionsFacts.

(* ------------------------------------------------------------------ *)
(** *** [CircuitSymbolDetector]: boxes that overlap *)

Module SymbolDetectorFacts.
Import Router Suggestions SymbolDetector.

Lemma boxes_overlap_sym (b1 b2 : box) :
  _boxes_overlap b1 b2 = _boxes_overlap b2 b1.
Proof.
  destruct b1 as [[[x1 y1] w1] h1], b2 as [[[x2 y2] w2] h2].
  unfold _boxes_overlap. lia.
Qed.

Lemma boxes_overlap_share (b1 b2 : box) :
  0 <= snd (fst b1) -> 0 <= snd b1 -> 0 <= snd (fst b2) -> 0 <= snd b2 ->
  (_boxes_overlap b1 b2 = true <-> share_point b1 b2).
Proof.
  destruct b1 as [[[x1 y1] w1] h1], b2 as [[[x2 y2] w2] h2]. cbn [fst snd].
  intros Hw1 Hh1 Hw2 Hh2. unfold _boxes_overlap, share_point. split.
  - intros H. exists (Z.max x1 x2), (Z.max y1 y2). lia.
  - intros (px & py & H). lia.
Qed.

(** X18. [_boxes_overlap] does not depend on the order of its two boxes,
    and for boxes with no negative side it holds exactly when the two
    rectangles, borders included, have a point in common: two boxes that
    only touch do overlap. *)
Theorem boxes_overlap_meaning (b1 b2 : box) :
  0 <= snd (fst b1) -> 0 <= snd b1 -> 0 <= snd (fst b2) -> 0 <= snd b2 ->
  _boxes_overlap b1 b2 = _boxes_overlap b2 b1 /\
  (_boxes_overlap b1 b2 = true <-> share_point b1 b2) /\
  _boxes_overlap b1 b1 = true.
Proof.
  intros Hw1 Hh1 Hw2 Hh2. split; [apply boxes_overlap_sym|].
  split; [apply boxes_overlap_share; assumption|].
  destruct b1 as [[[x1 y1] w1] h1]. cbn [fst snd] in *. unfold _boxes_overlap. lia.
Qed.

Lemma boxes_overlap_meaning_witness :
  _boxes_overlap (0, 0, 10, 10) (10, 10, 5, 5) = true /\
  share_point (0, 0, 10, 10) (10, 10, 5, 5).
Proof.
  pose proof (boxes_overlap_meaning (0, 0, 10, 10) (10, 10, 5, 5)
                ltac:(cbn; lia) ltac:(cbn; lia) ltac:(cbn; lia) ltac:(cbn; lia))
    as (_ & H & _).
  split; [reflexivity|]. apply H. reflexivity.
Defined.

Lemma overlaps_found_false (b : box) (found : list box) :
  overlaps_found b found = false ->
  forall a, In a found -> _boxes_overlap b a = false.
Proof.
  induction found as [|e rest IH]; intros H a Ha; [destruct Ha|].
  cbn [overlaps_found] in H. destruct (_boxes_overlap b e) eqn:E; [discriminate|].
  destruct Ha as [<-|Ha]; [exact E|apply (IH H a Ha)].
Qed.

Lemma apart_snoc (found : list box) (b : box) :
  apart found -> overlaps_found b found = false -> apart (found ++ [b]).
Proof.
  intros Hap Hno i j a c Hij Ha Hc.
  pose proof (overlaps_found_false b found Hno) as Hb.
  assert (Hi : (i < length (found ++ [b]))%nat) by (apply nth_error_Some; congruence).
  assert (Hj : (j < length (found ++ [b]))%nat) by (apply nth_error_Some; congruence).
  rewrite length_app in Hi, Hj. cbn [length] in Hi, Hj.
  destruct (Nat.eq_dec i (length found)) as [Ei|Ei];
    destruct (Nat.eq_dec j (length found)) as [Ej|Ej].
  - lia.
  - rewrite nth_error_app2 in Ha by lia. rewrite Ei, Nat.sub_diag in Ha.
    injection Ha as <-. rewrite nth_error_app1 in Hc by lia.
    apply Hb. apply (nth_error_In _ _ Hc).
  - rewrite nth_error_app2 in Hc by lia. rewrite Ej, Nat.sub_diag in Hc.
    injection Hc as <-. rewrite nth_error_app1 in Ha by lia.
    rewrite boxes_overlap_sym. apply Hb. apply (nth_error_In _ _ Ha).
  - rewrite nth_error_app1 in Ha by lia. rewrite nth_error_app1 in Hc by lia.
    apply (Hap i j a c Hij Ha Hc).
Qed.

Lemma add_matches_spec (P : box -> Prop) (width height : Z) (pts : list (Z * Z)) :
  (forall x y, P (x, y, width, height)) ->
  forall found,
    apart found -> Forall P found ->
    apart (add_matches width height pts found) /\
    Forall P (add_matches width height pts found).
Proof.
  intros HP. induction pts as [|[x y] rest IH]; intros found Hap Hall.
  - split; assumption.
  - cbn [add_matches].
    destruct (overlaps_found (x, y, width, height) found) eqn:E; cbn [negb].
    + apply IH; assumption.
    + apply IH.
      * apply apart_snoc; assumption.
      * apply Forall_app. split; [exact Hall|]. constructor; [apply HP|constructor].
Qed.

Section Matching.
Variable color_image : Type.
Variable threshold : Type.
Variable cvtColor_BGR2GRAY : color_image -> res ndarray.
Variable resize : ndarray -> Z -> Z -> res ndarray.
Variable match_locations : ndarray -> ndarray -> threshold -> res (list (Z * Z)).

Lemma scales_loop_spec (template gray : ndarray) (t : threshold)
    (todo : list QArith_base.Q) : forall found out,
  apart found -> Forall large found ->
  scales_loop threshold resize match_locations template gray t todo found = Ret out ->
  apart out /\ Forall large out.
Proof.
  induction todo as [|scale rest IH]; intros found out Hap Hall Hrun.
  - injection Hrun as <-. split; assumption.
  - cbn [scales_loop] in Hrun.
    set (width := int_of _) in Hrun. set (height := int_of _) in Hrun.
    destruct ((width <? 10) || (height <? 10) ||
              (width >? Z.of_nat (shape1 gray)) ||
              (height >? Z.of_nat (shape0 gray))) eqn:E.
    + apply (IH found out Hap Hall Hrun).
    + destruct (resize template width height) as [resized| |];
        cbn [bind] in Hrun; try discriminate.
      destruct (match_locations gray resized t) as [pts| |];
        cbn [bind] in Hrun; try discriminate.
      destruct (add_matches_spec large width height pts
                  ltac:(intros x y; unfold large; cbn [fst snd]; lia)
                  found Hap Hall) as [Hap' Hall'].
      apply (IH _ out Hap' Hall' Hrun).
Qed.

(** X19. Whatever OpenCV finds, the boxes that
    [detect_by_template_matching] returns for a symbol type are pairwise
    apart for [_boxes_overlap], taken in either order, and none has a
    side shorter than 10; for a type without template the list is empty. *)
Theorem detect_by_template_matching_apart
    (templates : list (String.string * ndarray)) (img : image color_image)
    (symbol_type : String.string) (t : threshold) (found : list box) :
  detect_by_template_matching color_image threshold cvtColor_BGR2GRAY resize
    match_locations templates img symbol_type t = Ret found ->
  apart found /\
  (forall b, In b found -> 10 <= snd (fst b) /\ 10 <= snd b) /\
  ((forall kv, In kv templates -> String.eqb (fst kv) symbol_type = false) ->
   found = []).
Proof.
  unfold detect_by_template_matching. intros Hrun.
  destruct (List.find _ templates) as [[k template]|] eqn:Efind.
  - destruct (match img with Color _ c => cvtColor_BGR2GRAY c | Gray _ a => Ret a end)
      as [gray| |]; cbn [bind] in Hrun; try discriminate.
    destruct (scales_loop_spec template gray t scales [] found) as [Hap Hall].
    + intros i j a b _ Ha. destruct i; discriminate.
    + constructor.
    + exact Hrun.
    + split; [exact Hap|]. split.
      * intros b Hb. rewrite Forall_forall in Hall. apply (Hall b Hb).
      * intros Hnone. apply find_some in Efind. destruct Efind as [Hin Heq].
        rewrite (Hnone _ Hin) in Heq. discriminate.
  - injection Hrun as <-. split; [|split].
    + intros i j a b _ Ha. destruct i; discriminate.
    + intros b [].
    + reflexivity.
Qed.
End Matching.
End SymbolDetectorFacts.


Module SymbolDetectorExample.
Import Stdlib.Strings.String.
Import Router Suggestions SymbolDetector.

Lemma detect_by_template_matching_apart_witness :
  apart [(0, 0, 30, 10); (100, 100, 30, 10)].
Proof.
  apply (SymbolDetectorFacts.detect_by_template_matching_apart
           unit unit (fun _ => Raise CvError) (fun template _ _ => Ret template)
           (fun _ _ _ => Ret [(0, 0); (5, 5); (100, 100)])
           [("resistor"%string,
             {| shape0 := 20; shape1 := 60; item := fun _ _ => 0 |})]
           (Gray unit {| shape0 := 200; shape1 := 200; item := fun _ _ => 0 |})
           "resistor"%string tt
           [(0, 0, 30, 10); (100, 100, 30, 10)]).
  reflexivity.
Defined.
End SymbolDetectorExample.


(* ------------------------------------------------------------------ *)
(** *** No waypoint twice *)

Lemma chain_scores (m : ndarray) (start : point) (st : search) :
  search_inv m start st ->
  forall chain cur final gcur,
    g_score st !! cur = Some gcur ->
    is_chain (came_from st) cur chain final ->
    (forall x, In x (chain ++ [final]) ->
       exists gx, g_score st !! x = Some gx /\ gx <= gcur) /\
    List.NoDup (chain ++ [final]).
Proof.
  intros Hinv. induction chain as [|c rest IH]; intros cur final gcur Hcur Hch.
  - cbn in Hch. subst final. cbn [app]. split.
    + intros x [<-|[]]. exists gcur. split; [exact Hcur|lia].
    + constructor; [intros []|constructor].
  - cbn [is_chain] in Hch. destruct Hch as (-> & p & Ep & Hrest).
    destruct (inv_parent _ _ _ Hinv _ _ Ep) as (gc & gp & Hgc & Hgp & Hlt).
    assert (gc = gcur) by congruence. subst gc.
    destruct (IH p final gp Hgp Hrest) as [Hbelow Hnodup].
    cbn [app]. split.
    + intros x [<-|Hx]; [exists gcur; split; [exact Hcur|lia]|].
      destruct (Hbelow x Hx) as (gx & Hgx & Hle). exists gx. split; [exact Hgx|lia].
    + constructor; [|exact Hnodup].
      intros Hin. destruct (Hbelow cur Hin) as (gx & Hgx & Hle).
      assert (gx = gcur) by congruence. lia.
Qed.

Lemma search_loop_nodup (m : ndarray) (start goal : point) (fuel : nat) :
  forall st p,
    search_inv m start st -> links_inv m start st ->
    search_loop (PathFinder_init m) start goal fuel st = Ret p ->
    List.NoDup p.
Proof.
  induction fuel as [|fuel IH]; intros st p Hinv Hlinks Hrun; [discriminate|].
  cbn [search_loop] in Hrun. destruct (open_set st) as [|e0 h0] eqn:Eopen.
  - injection Hrun as <-. constructor.
  - destruct (heappop_spec (e0 :: h0) ltac:(discriminate)) as (e & rest & Hpop & Hperm).
    rewrite Hpop in Hrun. cbn [bind fst snd] in Hrun. rewrite <- Eopen in Hperm.
    assert (Hsub : forall x, In x rest -> In x (open_set st)).
    { intros x Hx. eapply Permutation_in; [symmetry; exact Hperm|right; exact Hx]. }
    assert (He : In e (open_set st)).
    { eapply Permutation_in; [symmetry; exact Hperm|left; reflexivity]. }
    pose proof (search_inv_popped m start st rest Hinv Hsub) as Hinv0.
    assert (Hlinks0 : links_inv m start
              {| open_set := rest; came_from := came_from st;
                 g_score := g_score st; f_score := f_score st |}).
    { destruct Hlinks as [Hs Hk]. split; [exact Hs|exact Hk]. }
    destruct (inv_open_known _ _ _ Hinv e He) as [gcur Hgcur].
    destruct (point_eqb (snd e) goal).
    + cbn [came_from] in Hrun.
      destruct (reconstruct _ (came_from st) (snd e) []) as [path| |] eqn:Erec;
        cbn [bind] in Hrun; try discriminate.
      injection Hrun as <-.
      destruct (reconstruct_chain _ _ _ _ _ Erec) as (chain & final & -> & Hch & Hf).
      cbn [app].
      assert (Hfinal : final = start).
      { pose proof (chain_final_known m start st Hinv chain (snd e) final
                      (inv_open_known _ _ _ Hinv e He) Hch) as Hknown.
        destruct (link_known _ _ _ Hlinks final Hknown) as [->|[q Hq]];
          [reflexivity|congruence]. }
      subst final. apply NoDup_rev.
      apply (chain_scores m start st Hinv chain (snd e) start gcur Hgcur Hch).
    + destruct (get_neighbors_spec m (snd e)) as (l & Hl & Hsteps).
      rewrite Hl in Hrun. cbn [bind] in Hrun.
      destruct (relax_spec m start goal (snd e) l _ gcur Hinv0 Hgcur
                  (fun n Hn => proj1 (Hsteps n) Hn))
        as (st' & Hrelax & Hinv' & _).
      rewrite Hrelax in Hrun. cbn [bind] in Hrun.
      apply (IH st' p Hinv'); [|exact Hrun].
      apply (relax_links m start goal (snd e) l _ st'
               (fun n Hn => proj1 (Hsteps n) Hn) Hlinks0 Hrelax).
Qed.

Lemma a_star_nodup (m : ndarray) (start goal : point) (p : list point) :
  a_star (PathFinder_init m) start goal = Ret p -> List.NoDup p.
Proof.
  intros Hrun. destruct (a_star_initial m start goal) as (Hinv & _).
  apply (search_loop_nodup m start goal _ _ p Hinv (initial_links m start goal) Hrun).
Qed.

Lemma NoDup_span (a b : Z) : List.NoDup (span a b).
Proof.
  unfold span. apply Finite.Injective_map_NoDup_in; [|apply seq_NoDup].
  intros x y _ _ H. pose proof (toward_unit a b). nia.
Qed.

Lemma NoDup_pairs {A B : Type} (f : A -> B) (l : list A) :
  (forall x y, f x = f y -> x = y) -> List.NoDup l -> List.NoDup (map f l).
Proof.
  intros Hinj. apply Finite.Injective_map_NoDup_in. intros x y _ _. apply Hinj.
Qed.

Lemma NoDup_tl {A : Type} (l : list A) : List.NoDup l -> List.NoDup (tl l).
Proof. destruct l; [intros H; exact H|]. intros H. inversion H. assumption. Qed.

Lemma span_hd_not_in_tl (a b : Z) : ~ In a (tl (span a b)).
Proof.
  pose proof (NoDup_span a b) as H. rewrite (StatisticsElbow.span_cons_tl a b) in H.
  inversion H. assumption.
Qed.

Lemma NoDup_elbow_h (s g : point) : List.NoDup (elbow_h s g).
Proof.
  destruct s as [x1 y1], g as [x2 y2]. unfold elbow_h. cbn [fst snd].
  apply NoDup_app.
  - apply NoDup_pairs; [intros x y [= ->]; reflexivity|apply NoDup_span].
  - apply NoDup_pairs; [intros x y [= ->]; reflexivity|apply NoDup_tl, NoDup_span].
  - intros c H1 H2. apply in_map_iff in H1. destruct H1 as (x & <- & _).
    apply in_map_iff in H2. destruct H2 as (y & [= _ ->] & Hy).
    apply (span_hd_not_in_tl y1 y2 Hy).
Qed.

Lemma NoDup_elbow_v (s g : point) : List.NoDup (elbow_v s g).
Proof.
  destruct s as [x1 y1], g as [x2 y2]. unfold elbow_v. cbn [fst snd].
  apply NoDup_app.
  - apply NoDup_pairs; [intros x y [= ->]; reflexivity|apply NoDup_span].
  - apply NoDup_pairs; [intros x y [= ->]; reflexivity|apply NoDup_tl, NoDup_span].
  - intros c H1 H2. apply in_map_iff in H1. destruct H1 as (y & <- & _).
    apply in_map_iff in H2. destruct H2 as (x & [= -> _] & Hx).
    apply (span_hd_not_in_tl x1 x2 Hx).
Qed.

Lemma manhattan_routing_nodup (m : ndarray) (s g : point) (p : list point) :
  manhattan_routing (PathFinder_init m) s g = Ret p -> List.NoDup p.
Proof.
  rewrite manhattan_routing_cases.
  destruct (forallb (passable m) (probed_h s g)).
  - intros [= <-]. apply NoDup_elbow_h.
  - destruct (forallb (passable m) (probed_v s g)).
    + intros [= <-]. apply NoDup_elbow_v.
    + apply a_star_nodup.
Qed.

Lemma raw_path_nodup (m : ndarray) (start goal : point)
    (prefer_manhattan : bool) (raw : list point) :
  (if prefer_manhattan then
     do path <- manhattan_routing (PathFinder_init m) start goal;
     if negb (nonempty path) then a_star (PathFinder_init m) start goal
     else Ret path
   else a_star (PathFinder_init m) start goal) = Ret raw ->
  List.NoDup raw.
Proof.
  destruct prefer_manhattan; [|apply a_star_nodup].
  destruct (manhattan_routing (PathFinder_init m) start goal) as [p| |] eqn:Ep;
    cbn [bind]; try discriminate.
  destruct (negb (nonempty p)).
  - apply a_star_nodup.
  - intros [= <-]. apply (manhattan_routing_nodup m start goal p Ep).
Qed.

(** X20. No point comes twice in a path: not in the one [a_star] returns,
    not in the one [manhattan_routing] returns, and not in what
    [find_best_path] makes of them in either mode. *)
Theorem paths_without_repetition (m : ndarray) (start goal : point) :
  (exists p, a_star (PathFinder_init m) start goal = Ret p /\ List.NoDup p) /\
  (exists p, manhattan_routing (PathFinder_init m) start goal = Ret p /\
             List.NoDup p) /\
  forall prefer_manhattan,
    exists p,
      find_best_path (PathFinder_init m) start goal prefer_manhattan = Ret p /\
      List.NoDup p.
Proof.
  split; [|split].
  - destruct (a_star_spec m start goal) as (p & Hp & _).
    exists p. split; [exact Hp|apply (a_star_nodup m start goal p Hp)].
  - destruct (raw_path_spec m start goal true) as (raw & Hraw & _).
    destruct (manhattan_routing (PathFinder_init m) start goal) as [p| |] eqn:Ep;
      cbn [bind] in Hraw; try discriminate.
    exists p. split; [reflexivity|apply (manhattan_routing_nodup m start goal p Ep)].
  - intros pm. unfold find_best_path.
    destruct (raw_path_spec m start goal pm) as (raw & Hraw & _).
    pose proof (raw_path_nodup m start goal pm raw Hraw) as Hnd.
    rewrite Hraw. cbn [bind]. destruct (nonempty raw).
    + destruct (optimize_path_ends m raw) as (Q & HQ & _).
      exists Q. split; [exact HQ|].
      apply NoDup_ListNoDup. apply (sublist_NoDup Q raw).
      * apply NoDup_ListNoDup, Hnd.
      * apply (optimize_path_sub m raw Q HQ).
    + exists raw. split; [reflexivity|exact Hnd].
Qed.


(* ------------------------------------------------------------------ *)
(** *** The detector before and after [create_obstacle_map] *)

Module DetectorState.
Import Router Detector.

(** X21. A detector that has made no map answers [True] to every
    [check_path_clearance] and raises [ValueError] on
    [get_free_space_map].  Once [create_obstacle_map] has returned, the
    map it returned is the one the detector keeps: [get_free_space_map]
    inverts that map and [check_path_clearance] samples it, whatever map
    the detector held before. *)
Theorem detector_queries_follow_map
    (color_image structuring_element : Type)
    (cvtColor : color_image -> res ndarray)
    (adaptiveThreshold : ndarray -> Z -> Z -> Z -> res ndarray)
    (getStructuringElement : Z -> Z -> res structuring_element)
    (dilate : ndarray -> structuring_element -> res ndarray)
    (bitwise_not : ndarray -> res ndarray) :
  get_free_space_map bitwise_not GenericObstacleDetector_init = Raise ValueError /\
  (forall a b, check_path_clearance GenericObstacleDetector_init a b = Ret true) /\
  forall (self self' : GenericObstacleDetector) (img : image color_image)
         (dilation_size safety_padding : Z) (map : ndarray),
    create_obstacle_map color_image structuring_element cvtColor adaptiveThreshold
      getStructuringElement dilate self img dilation_size safety_padding
    = Ret (self', map) ->
    detector_obstacle_map self' = Some map /\
    get_free_space_map bitwise_not self' = bitwise_not map /\
    forall a b,
      check_path_clearance self' a b = Ret (forallb (clear map) (line_cells a b)).
Proof.
  split; [reflexivity|]. split; [reflexivity|].
  intros self self' img dilation_size safety_padding map Hrun.
  unfold create_obstacle_map in Hrun.
  destruct (match img with Color _ c => cvtColor c | Gray _ a => Ret a end)
    as [gray| |]; cbn [bind] in Hrun; try discriminate.
  destruct (adaptiveThreshold gray 255 11 2) as [binary| |];
    cbn [bind] in Hrun; try discriminate.
  destruct (getStructuringElement dilation_size dilation_size) as [kernel| |];
    cbn [bind] in Hrun; try discriminate.
  destruct (dilate binary kernel) as [dilated| |];
    cbn [bind] in Hrun; try discriminate.
  destruct (if safety_padding >? 0
            then do padding_kernel <-
                   getStructuringElement (safety_padding * 2 + 1)
                                         (safety_padding * 2 + 1);
                 dilate dilated padding_kernel
            else Ret dilated) as [padded| |];
    cbn [bind] in Hrun; try discriminate.
  injection Hrun as <- <-. split; [reflexivity|]. split; [reflexivity|].
  intros a b. apply DetectorFacts.clearance_spec.
Qed.
End DetectorState.
